(** * Flareone core: radix router, execution pipeline and DI container

    A shallow embedding of
      - packages/core/src/router/radix-router.ts   (module [RadixRouter]),
      - packages/core/src/application/factory.ts and
        exceptions/http-exceptions.ts             (module [Pipeline]),
      - packages/core/src/di/container.ts          (module [DI]),
      - the CORS headers and the route paths of application/factory.ts
        (modules [Cors] and [Routes]), and more of the container's
        interface (module [ContainerApi]),
    with the properties the specification states about them, and further
    properties of the same code.

    Three things the runtime does are kept out of the functions and
    stated as conditions where they matter: [new Response] refuses some
    statuses ([Http.responseInit]), a plain object inherits the
    properties of [Object.prototype] ([RadixRouter.ordinaryName]), and
    [String(n)] prints digit by digit only for safe integers
    ([Http.isSafeInteger]). *)

From Stdlib Require Import Ascii String List Bool Arith ZArith Lia DecimalString.
From stdpp Require Import base option gmap strings list fin_maps.

Local Open Scope string_scope.
Set Warnings "-register-all".

(** ** JavaScript string helpers used by the router *)

Module JsString.

(** [s.startsWith(p)] *)
Definition startsWith (s p : string) : bool := String.prefix p s.

(** [s.slice(n)] for [0 <= n] *)
Fixpoint slice_from (n : nat) (s : string) : string :=
  match n, s with
  | O, _ => s
  | S _, EmptyString => EmptyString
  | S n', String _ r => slice_from n' r
  end.

(** [s.slice(0, n)] for [0 <= n] *)
Fixpoint slice_to (n : nat) (s : string) : string :=
  match n, s with
  | O, _ => EmptyString
  | S _, EmptyString => EmptyString
  | S n', String c r => String c (slice_to n' r)
  end.

(** [s[0] || ''] *)
Definition firstCharOf (s : string) : string :=
  match s with
  | EmptyString => EmptyString
  | String c _ => String c EmptyString
  end.

(** [s.endsWith('/')]: the last character, when there is one *)
Fixpoint endsWithSlash (s : string) : bool :=
  match s with
  | EmptyString => false
  | String c EmptyString => Ascii.eqb c "/"
  | String _ r => endsWithSlash r
  end.

(** [s.slice(0, -1)] *)
Fixpoint dropLast (s : string) : string :=
  match s with
  | EmptyString => EmptyString
  | String _ EmptyString => EmptyString
  | String c r => String c (dropLast r)
  end.

(** [s.replace(/\/+/g, '/')]: every run of slashes becomes one slash *)
Fixpoint collapseSlashes (s : string) : string :=
  match s with
  | EmptyString => EmptyString
  | String c r =>
      if Ascii.eqb c "/" then
        match r with
        | String c' _ => if Ascii.eqb c' "/" then collapseSlashes r
                         else String c (collapseSlashes r)
        | EmptyString => String c EmptyString
        end
      else String c (collapseSlashes r)
  end.

(** [s.split('/')] on a non-empty string, accumulating the current piece *)
Fixpoint splitSlashAcc (acc : string) (s : string) : list string :=
  match s with
  | EmptyString => [acc]
  | String c r =>
      if Ascii.eqb c "/" then acc :: splitSlashAcc EmptyString r
      else splitSlashAcc (acc ++ String c EmptyString) r
  end.

(** JavaScript truthiness of a string: [Boolean(s)] *)
Definition truthy (s : string) : bool :=
  match s with EmptyString => false | _ => true end.

(** [xs.join('/')] *)
Fixpoint joinSlash (xs : list string) : string :=
  match xs with
  | [] => EmptyString
  | [x] => x
  | x :: rest => x ++ "/" ++ joinSlash rest
  end.

(** the [while] loop of [splitOrExtendNode]: length of the longest common
    prefix of the two segments *)
Fixpoint commonPrefixLength (a b : string) : nat :=
  match a, b with
  | String x a', String y b' =>
      if Ascii.eqb x y then S (commonPrefixLength a' b') else O
  | _, _ => O
  end.

End JsString.

(** ** The radix router (radix-router.ts) *)

Module RadixRouter.
Import JsString.

Inductive NodeType := static | param | wildcard | regex.

Section WithHandlers.

(** [RouteHandler]: an opaque record for the router; always truthy. *)
Context {RouteHandler : Type}.

(** [new RegExp('^' + src + '$').test(segment)], by pattern source. *)
Variable regexTest : string -> string -> bool.

(** [RadixNode]; [pattern] holds the source of the compiled RegExp, the
    [Map]s are keyed by first character and by HTTP method. *)
Inductive RadixNode := mkNode {
  type : NodeType;
  segment : string;
  pattern : option string;
  children : gmap string RadixNode;
  paramChild : option RadixNode;
  wildcardChild : option RadixNode;
  handlers : gmap string RouteHandler;
  priority : nat
}.

Record RouteDefinition := mkRoute {
  rd_method : string;
  rd_path : string;
  rd_handler : RouteHandler
}.

Record Router := mkRouter {
  root : RadixNode;
  routes : list RouteDefinition
}.

Record RouteMatch := mkMatch {
  handler : RouteHandler;
  params : gmap string string
}.

Definition createNode (t : NodeType) (seg : string) (pat : option string)
  : RadixNode :=
  mkNode t seg pat ∅ None None ∅
    (match t with static => 3 | param => 2 | regex => 1 | wildcard => 0 end).

Definition newRouter : Router := mkRouter (createNode static "" None) [].

Definition set_segment (n : RadixNode) (s : string) : RadixNode :=
  mkNode (type n) s (pattern n) (children n) (paramChild n)
    (wildcardChild n) (handlers n) (priority n).
Definition set_children (n : RadixNode) (c : gmap string RadixNode)
  : RadixNode :=
  mkNode (type n) (segment n) (pattern n) c (paramChild n)
    (wildcardChild n) (handlers n) (priority n).
Definition set_paramChild (n : RadixNode) (c : option RadixNode)
  : RadixNode :=
  mkNode (type n) (segment n) (pattern n) (children n) c
    (wildcardChild n) (handlers n) (priority n).
Definition set_wildcardChild (n : RadixNode) (c : option RadixNode)
  : RadixNode :=
  mkNode (type n) (segment n) (pattern n) (children n) (paramChild n)
    c (handlers n) (priority n).
Definition set_handlers (n : RadixNode) (h : gmap string RouteHandler)
  : RadixNode :=
  mkNode (type n) (segment n) (pattern n) (children n) (paramChild n)
    (wildcardChild n) h (priority n).

Definition normalizePath (path : string) : string :=
  let n0 := collapseSlashes path in
  let n1 := if startsWith n0 "/" then slice_from 1 n0 else n0 in
  if endsWithSlash n1 then dropLast n1 else n1.

Definition splitPath (path : string) : list string :=
  if truthy path then filter (fun s => truthy s = true) (splitSlashAcc "" path)
  else [].

(** The regular expression of [parseSegment],
    [/^:([^(]+)(?:\((.+)\))?$/], applied to the text after the colon:
    the name is the longest run of characters other than an opening
    parenthesis and must not be empty; what follows is nothing, or a
    parenthesised non-empty pattern that ends the segment ([.] matches
    no line terminator). *)
Fixpoint takeName (s : string) : string * string :=
  match s with
  | EmptyString => (EmptyString, EmptyString)
  | String c r =>
      if Ascii.eqb c "(" then (EmptyString, s)
      else let '(n, rest) := takeName r in (String c n, rest)
  end.

Definition isLineTerminator (c : ascii) : bool :=
  Ascii.eqb c "010" || Ascii.eqb c "013".

Fixpoint noLineTerminator (s : string) : bool :=
  match s with
  | EmptyString => true
  | String c r => negb (isLineTerminator c) && noLineTerminator r
  end.

Fixpoint endsWithParen (s : string) : bool :=
  match s with
  | EmptyString => false
  | String c EmptyString => Ascii.eqb c ")"
  | String _ r => endsWithParen r
  end.

(** [Some (name, None)] for [:name], [Some (name, Some pat)] for
    [:name(pat)], [None] when the expression does not match. *)
Definition matchParam (afterColon : string) : option (string * option string) :=
  let '(name, rest) := takeName afterColon in
  if truthy name then
    match rest with
    | EmptyString => Some (name, None)
    | String _ inner =>
        (* [rest] starts with the parenthesis [takeName] stopped at *)
        let pat := dropLast inner in
        if endsWithParen inner && truthy pat && noLineTerminator pat
        then Some (name, Some pat) else None
    end
  else None.

Record Parsed := mkParsed {
  p_type : NodeType;
  p_name : string;
  p_pattern : option string
}.

Definition parseSegment (seg : string) : Parsed :=
  if startsWith seg "*" then
    let name := slice_from 1 seg in
    mkParsed wildcard (if truthy name then name else "wildcard") None
  else if startsWith seg ":" then
    match matchParam (slice_from 1 seg) with
    | Some (name, Some pat) => mkParsed regex name (Some pat)
    | Some (name, None) => mkParsed param name None
    | None => mkParsed static seg None
    end
  else mkParsed static seg None.

(** [splitOrExtendNode] and [insertSegment] return a node that lives
    inside the tree they have just mutated, and [register] goes on
    mutating that node.  Here the caller passes what it will do to the
    returned node as [k], and gets the new [parent] back. *)
Definition splitOrExtendNode (parent existing : RadixNode)
    (newSegment firstChar : string) (k : RadixNode -> RadixNode)
  : RadixNode :=
  let existingSegment := segment existing in
  let commonLength := commonPrefixLength existingSegment newSegment in
  if Nat.eqb commonLength (String.length existingSegment)
     && Nat.eqb commonLength (String.length newSegment) then
    set_children parent (<[firstChar := k existing]> (children parent))
  else if Nat.eqb commonLength (String.length newSegment) then
    let commonNode := createNode static newSegment None in
    let existing' := set_segment existing (slice_from commonLength existingSegment) in
    let commonNode' :=
      set_children commonNode
        (<[firstCharOf (segment existing') := existing']> (children commonNode)) in
    set_children parent (<[firstChar := k commonNode']> (children parent))
  else if Nat.eqb commonLength (String.length existingSegment) then
    let remainingSegment := slice_from commonLength newSegment in
    let remainingFirstChar := firstCharOf remainingSegment in
    let existing' :=
      match children existing !! remainingFirstChar with
      | Some child =>
          set_children existing
            (<[remainingFirstChar := k child]> (children existing))
      | None =>
          set_children existing
            (<[remainingFirstChar := k (createNode static remainingSegment None)]>
               (children existing))
      end in
    set_children parent (<[firstChar := existing']> (children parent))
  else
    let commonPrefix := slice_to commonLength existingSegment in
    let commonNode := createNode static commonPrefix None in
    let existing' := set_segment existing (slice_from commonLength existingSegment) in
    let newChild := createNode static (slice_from commonLength newSegment) None in
    let c1 := <[firstCharOf (segment existing') := existing']> (children commonNode) in
    let c2 := <[firstCharOf (segment newChild) := k newChild]> c1 in
    set_children parent
      (<[firstChar := set_children commonNode c2]> (children parent)).

Definition insertSegment (parent : RadixNode) (seg : string)
    (k : RadixNode -> RadixNode) : RadixNode :=
  let parsed := parseSegment seg in
  match p_type parsed with
  | static =>
      let firstChar := firstCharOf seg in
      match children parent !! firstChar with
      | None =>
          set_children parent
            (<[firstChar := k (createNode static seg None)]> (children parent))
      | Some child =>
          if String.eqb (segment child) seg
          then set_children parent (<[firstChar := k child]> (children parent))
          else splitOrExtendNode parent child seg firstChar k
      end
  | param | regex =>
      match paramChild parent with
      | None =>
          set_paramChild parent
            (Some (k (createNode (p_type parsed) (p_name parsed) (p_pattern parsed))))
      | Some pc => set_paramChild parent (Some (k pc))
      end
  | wildcard =>
      match wildcardChild parent with
      | None =>
          set_wildcardChild parent
            (Some (k (createNode wildcard (p_name parsed) None)))
      | Some wc => set_wildcardChild parent (Some (k wc))
      end
  end.

(** The loop of [register] over the segments, then
    [node.handlers.set(method, handler)] on the node it ends at. *)
Fixpoint insertSegments (segs : list string) (method : string)
    (h : RouteHandler) (node : RadixNode) : RadixNode :=
  match segs with
  | [] => set_handlers node (<[method := h]> (handlers node))
  | seg :: rest => insertSegment node seg (insertSegments rest method h)
  end.

Definition register (r : Router) (method path : string) (h : RouteHandler)
  : Router :=
  let segments := splitPath (normalizePath path) in
  mkRouter (insertSegments segments method h (root r))
           (routes r ++ [mkRoute method path h]).

Definition registerMany (r : Router) (rs : list RouteDefinition) : Router :=
  fold_left (fun acc d => register acc (rd_method d) (rd_path d) (rd_handler d))
            rs r.

Definition getHandler (node : RadixNode) (method : string)
  : option RouteHandler :=
  match handlers node !! method with
  | Some h => Some h
  | None => handlers node !! "ALL"
  end.

(** [params] is the plain object [{}] that [match] creates, and the
    map that stands for it below holds its own properties, all strings.
    That is all there is to the object as long as no name that is read
    or written is a property of [Object.prototype]: for those names
    [params[name]] is not [undefined] on the empty object (so
    [savedValue] is the inherited function, written back as an own
    property when a branch fails), and a string assigned to [__proto__]
    is not stored at all.  Statements about parameters with arbitrary
    names are made for [ordinaryName]s. *)
Definition objectPrototypeProperties : list string :=
  ["constructor"; "__defineGetter__"; "__defineSetter__"; "hasOwnProperty";
   "__lookupGetter__"; "__lookupSetter__"; "isPrototypeOf";
   "propertyIsEnumerable"; "toString"; "valueOf"; "__proto__";
   "toLocaleString"].

Definition inheritedName (name : string) : bool :=
  existsb (String.eqb name) objectPrototypeProperties.

Definition ordinaryName (name : string) : Prop := inheritedName name = false.

(** [matchPath(node, segments, index, params, method)] tries four
    stages in turn on [segments[index]]; each of them may call
    [matchPath] on [index + 1], given here as [recur].  [params] is one
    object mutated in place, so every stage returns it, on failure as
    well. *)
Abbreviation Attempt := (option RouteHandler * gmap string string)%type.

(** [if (result) return result;] and on to the next stage *)
Definition orElse (r : Attempt) (next : gmap string string -> Attempt)
  : Attempt :=
  match r with
  | (Some h, ps) => (Some h, ps)
  | (None, ps) => next ps
  end.

Definition staticStage
    (recur : RadixNode -> gmap string string -> Attempt)
    (node : RadixNode) (seg : string) (params : gmap string string)
  : Attempt :=
  match children node !! firstCharOf seg with
  | Some staticChild =>
      if startsWith seg (segment staticChild) then
        if String.eqb (segment staticChild) seg then
          recur staticChild params
        else
          let remaining :=
            slice_from (String.length (segment staticChild)) seg in
          match children staticChild !! firstCharOf remaining with
          | Some nextChild =>
              if String.eqb remaining (segment nextChild)
              then recur nextChild params
              else (None, params)
          | None => (None, params)
          end
      else (None, params)
  | None => (None, params)
  end.

(** Bind the parameter, go on, and on failure put back what was there:
    [savedValue] is the own property of that name, or [undefined], for
    an [ordinaryName]. *)
Definition bindParam
    (recur : RadixNode -> gmap string string -> Attempt)
    (pc : RadixNode) (seg : string) (params : gmap string string)
  : Attempt :=
  let savedValue := params !! segment pc in
  orElse (recur pc (<[segment pc := seg]> params))
    (fun ps =>
       (None,
        match savedValue with
        | Some v => <[segment pc := v]> ps
        | None => delete (segment pc) ps
        end)).

Definition regexStage
    (recur : RadixNode -> gmap string string -> Attempt)
    (node : RadixNode) (seg : string) (params : gmap string string)
  : Attempt :=
  match paramChild node with
  | Some pc =>
      match pattern pc with
      | Some pat =>
          if regexTest pat seg then bindParam recur pc seg params
          else (None, params)
      | None => (None, params)
      end
  | None => (None, params)
  end.

Definition paramStage
    (recur : RadixNode -> gmap string string -> Attempt)
    (node : RadixNode) (seg : string) (params : gmap string string)
  : Attempt :=
  match paramChild node with
  | Some pc =>
      match pattern pc with
      | None => bindParam recur pc seg params
      | Some _ => (None, params)
      end
  | None => (None, params)
  end.

(** [segs] is [segments.slice(index)]; the binding is an own property of
    [params] for an [ordinaryName]. *)
Definition wildcardStage (node : RadixNode) (segs : list string)
    (method : string) (params : gmap string string) : Attempt :=
  match wildcardChild node with
  | Some wc =>
      (getHandler wc method, <[segment wc := joinSlash segs]> params)
  | None => (None, params)
  end.

Fixpoint matchPath (segs : list string) (method : string)
    (node : RadixNode) (params : gmap string string) : Attempt :=
  match segs with
  | [] => (getHandler node method, params)
  | seg :: rest =>
      let recur := matchPath rest method in
      orElse (staticStage recur node seg params) (fun ps1 =>
      orElse (regexStage recur node seg ps1) (fun ps2 =>
      orElse (paramStage recur node seg ps2) (fun ps3 =>
      wildcardStage node segs method ps3)))
  end.

Definition matchRoute (r : Router) (method path : string)
  : option RouteMatch :=
  let segments := splitPath (normalizePath path) in
  match matchPath segments method (root r) ∅ with
  | (Some h, ps) => Some (mkMatch h ps)
  | (None, _) => None
  end.

Definition has (r : Router) (method path : string) : bool :=
  match matchRoute r method path with Some _ => true | None => false end.

End WithHandlers.

Arguments RadixNode : clear implicits.
Arguments Router : clear implicits.
Arguments RouteMatch : clear implicits.
Arguments RouteDefinition : clear implicits.

(** *** Routing tables used below *)

Section Tables.
Context {RouteHandler : Type}.

(** [/t], [/te] and [/tea], registered in that order *)
Definition teaRoutes (ht hte htea : RouteHandler) : Router RouteHandler :=
  register (register (register newRouter "GET" "/t" ht) "GET" "/te" hte)
    "GET" "/tea" htea.

(** [/team], [/tea] and [/te], registered in that order *)
Definition teamRoutes (hteam htea hte : RouteHandler) : Router RouteHandler :=
  register (register (register newRouter "GET" "/team" hteam) "GET" "/tea" htea)
    "GET" "/te" hte.

(** A wildcard route that only answers [POST], and a two-parameter
    route for [GET] *)
Definition filesRoutes (hpost hget : RouteHandler) : Router RouteHandler :=
  register (register newRouter "POST" "/files/*rest" hpost)
    "GET" "/:dir/:file" hget.

Definition usersParamFirst (hparam hstatic : RouteHandler)
  : Router RouteHandler :=
  register (register newRouter "GET" "/users/:id" hparam)
    "GET" "/users/active" hstatic.

Definition usersStaticFirst (hparam hstatic : RouteHandler)
  : Router RouteHandler :=
  register (register newRouter "GET" "/users/active" hstatic)
    "GET" "/users/:id" hparam.

(** Below [/users]: a static route, a route whose parameter has a
    pattern, and a wildcard route *)
Definition constrainedRoutes (hstatic hregex hwild : RouteHandler)
  : list (RouteDefinition RouteHandler) :=
  [mkRoute "GET" "/users/active" hstatic;
   mkRoute "GET" "/users/:id(\d+)" hregex;
   mkRoute "GET" "/users/*rest" hwild].

(** The same with a parameter that has no pattern *)
Definition plainRoutes (hstatic hparam hwild : RouteHandler)
  : list (RouteDefinition RouteHandler) :=
  [mkRoute "GET" "/users/active" hstatic;
   mkRoute "GET" "/users/:id" hparam;
   mkRoute "GET" "/users/*rest" hwild].
End Tables.

End RadixRouter.

(** ** JSON-like values, HTTP exceptions and responses
       (exceptions/http-exceptions.ts) *)

Module Http.

(** A JavaScript value as [JSON.stringify] sees it.  Numbers are integers
    here; [JUndefined] is a property that [JSON.stringify] leaves out.  An
    object is the finite map of its own enumerable properties. *)
Inductive Json :=
| JUndefined
| JNull
| JBool (b : bool)
| JNum (z : Z)
| JStr (s : string)
| JArr (xs : list Json)
| JObj (fields : gmap string Json).

Abbreviation JsObject := (gmap string Json).

(** [{ ...target, ...src }]: the properties of [src] win *)
Definition spread (target src : JsObject) : JsObject := src ∪ target.

Inductive Body :=
| BodyNull
| BodyText (s : string)
| BodyJson (j : Json)   (* [JSON.stringify(j)] *).

Record Response := mkResponse {
  r_status : Z;
  r_headers : gmap string string;
  r_body : Body
}.

(** [new Response(body, { status, headers })] gives the response with
    that status and that body when the status is one of 200..599 and,
    if there is a body, is not one of the statuses that allow none.  For
    other arguments the constructor throws (a [RangeError] for the
    status, a [TypeError] for the body) and there is no response: the
    functions below that build a response are meant for arguments that
    [responseInit] accepts, and the statements about what is returned
    assume it. *)
Definition statusInRange (status : Z) : bool :=
  (200 <=? status)%Z && (status <=? 599)%Z.

Definition nullBodyStatus (status : Z) : bool :=
  (status =? 204)%Z || (status =? 205)%Z || (status =? 304)%Z.

Definition responseInit (status : Z) (body : Body) : bool :=
  statusInRange status
  && match body with
     | BodyNull => true
     | _ => negb (nullBodyStatus status)
     end.

(** [Number.isSafeInteger(n)]: the integers that [String(n)] and
    [JSON.stringify(n)] print digit by digit.  Larger numbers are
    printed by the shortest digits of the double, from [1e21] on with an
    exponent. *)
Definition isSafeInteger (n : Z) : bool := (Z.abs n <? 2 ^ 53)%Z.

(** [HttpException.response]: [string | object] *)
Inductive ExceptionResponse :=
| RespString (s : string)
| RespObject (o : JsObject).

(** [HttpException] and its subclasses; [ex_retryAfter] is the field of
    [TooManyRequestsException], whose [toResponse] is overridden. *)
Record HttpException := mkHttpException {
  ex_name : string;
  ex_status : Z;
  ex_response : ExceptionResponse;
  ex_stack : option string;
  ex_retryAfter : option (option Z)
}.

(** What [catch (error)] can receive. *)
Inductive JsError :=
| ErrHttp (e : HttpException)
| ErrError (message : string) (stack : option string)   (* any other [Error] *)
| ErrOther (asString : string)                           (* [String(error)] *).

Section Exceptions.

(** The stack an exception object gets when it is constructed. *)
Variable capturedStack : option string.

Definition newHttpException (resp : ExceptionResponse) (status : Z)
  : HttpException :=
  mkHttpException "HttpException" status resp capturedStack None.

Definition InternalServerErrorException (message : string) : HttpException :=
  mkHttpException "InternalServerErrorException" 500 (RespString message)
    capturedStack None.

Definition NotFoundException (message : string) : HttpException :=
  mkHttpException "NotFoundException" 404 (RespString message)
    capturedStack None.

Definition TooManyRequestsException (resp : ExceptionResponse)
    (retryAfter : option Z) : HttpException :=
  mkHttpException "TooManyRequestsException" 429 resp capturedStack
    (Some retryAfter).

Definition toHttpException (error : JsError) : HttpException :=
  match error with
  | ErrHttp e => e
  | ErrError message _ => InternalServerErrorException message
  | ErrOther str => InternalServerErrorException str
  end.

Definition jsonHeaders : gmap string string :=
  {["Content-Type" := "application/json"]}.

(** [HttpException.prototype.toResponse]; its body is never [null], so
    [new Response] returns when [responseInit] accepts the status with
    a body. *)
Definition statusTakesBody (status : Z) : bool :=
  responseInit status (BodyText "").

Definition baseToResponse (e : HttpException) : Response :=
  let body :=
    match ex_response e with
    | RespString s =>
        <["message" := JStr s]> {["statusCode" := JNum (ex_status e)]}
    | RespObject o => spread {["statusCode" := JNum (ex_status e)]} o
    end in
  mkResponse (ex_status e) jsonHeaders (BodyJson (JObj body)).

(** [String(z)] for a safe integer [z] *)
Definition numberToString (z : Z) : string :=
  NilZero.string_of_int (Z.to_int z).

(** [toResponse], with the override of [TooManyRequestsException]:
    [if (this.retryAfter)] is false for [undefined] and for [0]. *)
Definition toResponse (e : HttpException) : Response :=
  let response := baseToResponse e in
  match ex_retryAfter e with
  | Some (Some n) =>
      if Z.eqb n 0 then response
      else mkResponse (r_status response)
             (<["Retry-After" := numberToString n]> (r_headers response))
             (r_body response)
  | _ => response
  end.

Definition stackTruthy (st : option string) : option string :=
  match st with
  | Some s => if JsString.truthy s then Some s else None
  | None => None
  end.

(** [errorToResponse(error, includeStack)]: the response it asks
    [new Response] for, or [toResponse] of the exception *)
Definition errorToResponse (error : JsError) (includeStack : bool)
  : Response :=
  let exception := toHttpException error in
  match (if includeStack then stackTruthy (ex_stack exception) else None) with
  | Some st =>
      let body :=
        match ex_response exception with
        | RespString s =>
            <["stack" := JStr st]>
              (<["message" := JStr s]>
                 {["statusCode" := JNum (ex_status exception)]})
        | RespObject o =>
            <["stack" := JStr st]>
              (spread {["statusCode" := JNum (ex_status exception)]} o)
        end in
      mkResponse (ex_status exception) jsonHeaders (BodyJson (JObj body))
  | None => toResponse exception
  end.

End Exceptions.

(** The fields of a JSON body: a property whose value is [undefined] is
    not serialised. *)
Definition bodyField (k : string) (r : Response) : option Json :=
  match r_body r with
  | BodyJson (JObj o) =>
      match o !! k with
      | Some JUndefined => None
      | other => other
      end
  | _ => None
  end.

End Http.

(** ** The request pipeline (application/factory.ts) *)

Module Pipeline.
Import Http.
Local Open Scope list_scope.

(** What a controller method, an interceptor or [next.handle()] yields. *)
Inductive JsValue :=
| VUndefined
| VNull
| VString (s : string)
| VData (j : Json)
| VResponse (r : Response).

(** What user code was observed to do, in order. *)
Inductive Event :=
| CanActivate (guard : string)    (* [guard.canActivate(context)] was called *)
| Before (interceptor : string)   (* written before [next.handle()] *)
| After (interceptor : string)    (* written after [next.handle()] returned *)
| HandlerInvoked.                 (* [executeHandler] ran the controller method *)

Inductive Outcome (A : Type) :=
| Returned (a : A)
| Thrown (e : JsError)
| OutOfFuel.
Arguments Returned {A} a.
Arguments Thrown {A} e.
Arguments OutOfFuel {A}.

(** The body of [intercept(context, next)]: it may write to the trace,
    await [next.handle()] (any number of times, with a [try]/[catch] around
    it), return a value or throw. *)
Inductive Intercept :=
| Return (v : JsValue)
| Throw (e : JsError)
| Emit (ev : Event) (k : Intercept)
| Handle (onValue : JsValue -> Intercept) (onError : JsError -> Intercept).

Record Interceptor := mkInterceptor {
  i_name : string;
  intercept : Intercept
}.

(** [canActivate] resolves to a boolean or throws. *)
Inductive GuardResult :=
| Resolves (b : bool)
| GuardThrows (e : JsError).

Record Guard := mkGuard {
  g_name : string;
  canActivate : GuardResult
}.

(** [ExceptionFilter.catch]: a response, or [None] when it throws. *)
Record ExceptionFilter := mkFilter {
  catch : JsError -> option Response
}.

(** What calling the controller method with the resolved and piped
    arguments does. *)
Inductive MethodOutcome :=
| MethodReturns (v : JsValue)
| MethodThrows (e : JsError).

(** [RouteHandler]; [h_method] is [controller[methodName]]. *)
Record RouteHandler := mkRouteHandler {
  h_methodName : string;
  h_method : option MethodOutcome;
  h_statusCode : option Z;
  h_headers : gmap string string;
  h_guards : list Guard;
  h_interceptors : list Interceptor
}.

(** The mutable locals of one [executePipeline] call that the closures
    share, and the trace. *)
Record PipelineState := mkState {
  chainIndex : Z;
  trace : list Event
}.

Definition emit (ev : Event) (st : PipelineState) : PipelineState :=
  mkState (chainIndex st) (trace st ++ [ev]).

Definition setChainIndex (i : Z) (st : PipelineState) : PipelineState :=
  mkState i (trace st).

Section WithStack.

Variable capturedStack : option string.

(** The guard loop of [executePipeline]. *)
Fixpoint runGuards (guards : list Guard) (st : PipelineState)
  : Outcome unit * PipelineState :=
  match guards with
  | [] => (Returned tt, st)
  | guard :: rest =>
      let st' := emit (CanActivate (g_name guard)) st in
      match canActivate guard with
      | GuardThrows e => (Thrown e, st')
      | Resolves false =>
          (Thrown (ErrHttp (newHttpException capturedStack
                              (RespString "Forbidden") 403)), st')
      | Resolves true => runGuards rest st'
      end
  end.

Definition executeHandler (handler : RouteHandler) (st : PipelineState)
  : Outcome JsValue * PipelineState :=
  match h_method handler with
  | None =>
      (Thrown (ErrHttp (InternalServerErrorException capturedStack
                 ("Method " ++ h_methodName handler ++ " not found")%string)), st)
  | Some (MethodReturns v) => (Returned v, emit HandlerInvoked st)
  | Some (MethodThrows e) => (Thrown e, emit HandlerInvoked st)
  end.

(** Running the body of one [intercept], where [next] is what
    [callHandler.handle()] does. *)
Fixpoint runIntercept
    (next : PipelineState -> Outcome JsValue * PipelineState)
    (body : Intercept) (st : PipelineState)
  : Outcome JsValue * PipelineState :=
  match body with
  | Return v => (Returned v, st)
  | Throw e => (Thrown e, st)
  | Emit ev k => runIntercept next k (emit ev st)
  | Handle onValue onError =>
      match next st with
      | (Returned v, st') => runIntercept next (onValue v) st'
      | (Thrown e, st') => runIntercept next (onError e) st'
      | (OutOfFuel, st') => (OutOfFuel, st')
      end
  end.

(** The closure [buildChain] of [executePipeline]; [fuel] bounds the
    nesting of [handle()] calls.  [interceptors[chainIndex--]!] on an
    index outside the array is [undefined], and calling [intercept] on
    it throws a [TypeError]. *)
Fixpoint buildChain (fuel : nat) (interceptors : list Interceptor)
    (handler : RouteHandler) (st : PipelineState)
  : Outcome JsValue * PipelineState :=
  match fuel with
  | O => (OutOfFuel, st)
  | S fuel' =>
      if (chainIndex st <? 0)%Z then executeHandler handler st
      else
        let st' := setChainIndex (chainIndex st - 1) st in
        match interceptors !! Z.to_nat (chainIndex st) with
        | Some interceptor =>
            runIntercept (buildChain fuel' interceptors handler)
              (intercept interceptor) st'
        | None =>
            (Thrown (ErrError "Cannot read properties of undefined"
                              capturedStack), st')
        end
  end.

(** [resultToResponse(result, handler)]: a [Response] as it is, and for
    other values the response that [new Response] is asked for (see
    [resultAccepted] below) *)
Definition resultToResponse (result : JsValue) (handler : RouteHandler)
  : Response :=
  match result with
  | VResponse r => r
  | _ =>
      let statusCode := default 200%Z (h_statusCode handler) in
      let headers := h_headers handler ∪ jsonHeaders in
      match result with
      | VNull | VUndefined =>
          mkResponse (if Z.eqb statusCode 200 then 204 else statusCode)
            headers BodyNull
      | VString s =>
          mkResponse statusCode (<["Content-Type" := "text/plain"]> headers)
            (BodyText s)
      | VData j => mkResponse statusCode headers (BodyJson j)
      | VResponse r => r
      end
  end.

(** Whether the [new Response] of [resultToResponse] accepts what it is
    given for this result and this handler; a [Response] that the
    handler returned is passed on as it is. *)
Definition resultAccepted (result : JsValue) (handler : RouteHandler) : bool :=
  let statusCode := default 200%Z (h_statusCode handler) in
  match result with
  | VResponse _ => true
  | VNull | VUndefined =>
      responseInit (if Z.eqb statusCode 200 then 204 else statusCode) BodyNull
  | VString s => responseInit statusCode (BodyText s)
  | VData JUndefined => false   (* [undefined] is [VUndefined] *)
  | VData j => responseInit statusCode (BodyJson j)
  end.

Record Application := mkApplication {
  globalGuards : list Guard;
  globalInterceptors : list Interceptor;
  globalFilters : list ExceptionFilter
}.

(** [executePipeline(context, handler)] *)
Definition executePipeline (app : Application) (handler : RouteHandler)
    (st : PipelineState) : Outcome Response * PipelineState :=
  let guards := globalGuards app ++ h_guards handler in
  match runGuards guards st with
  | (Thrown e, st1) => (Thrown e, st1)
  | (OutOfFuel, st1) => (OutOfFuel, st1)
  | (Returned _, st1) =>
      let interceptors := globalInterceptors app ++ h_interceptors handler in
      let st2 := setChainIndex (Z.of_nat (length interceptors) - 1) st1 in
      match buildChain (S (length interceptors)) interceptors handler st2 with
      | (Returned result, st3) =>
          (Returned (resultToResponse result handler), st3)
      | (Thrown e, st3) => (Thrown e, st3)
      | (OutOfFuel, st3) => (OutOfFuel, st3)
      end
  end.

(** [env?.['ENVIRONMENT'] === 'development'] *)
Definition isDev (env : option JsObject) : bool :=
  match env with
  | Some o =>
      match o !! "ENVIRONMENT" with
      | Some (JStr s) => String.eqb s "development"
      | _ => false
      end
  | None => false
  end.

(** [handleException(error, request, env, ctx)]: the first filter whose
    [catch] does not throw answers; otherwise [errorToResponse]. *)
Fixpoint tryFilters (filters : list ExceptionFilter) (error : JsError)
  : option Response :=
  match filters with
  | [] => None
  | f :: rest =>
      match catch f error with
      | Some r => Some r
      | None => tryFilters rest error
      end
  end.

Definition handleException (app : Application) (error : JsError)
    (env : option JsObject) : Response :=
  match tryFilters (globalFilters app) error with
  | Some r => r
  | None => errorToResponse capturedStack error (isDev env)
  end.

Record Request := mkRequest {
  req_method : string;
  req_pathname : string      (* [new URL(request.url).pathname] *)
}.

(** [options.cors] (with [handleCors] as what it does to a response
    when it is set) and [options.globalPrefix]. *)
Record Options := mkOptions {
  cors : option (Request -> Response -> Response);
  globalPrefix : option string
}.

Definition applyCors (opts : Options) (request : Request) (r : Response)
  : Response :=
  match cors opts with
  | Some handleCors => handleCors request r
  | None => r
  end.

Definition stripPrefix (opts : Options) (path : string) : string :=
  match globalPrefix opts with
  | Some prefix =>
      if JsString.truthy prefix && JsString.startsWith path prefix then
        let rest := JsString.slice_from (String.length prefix) path in
        if JsString.truthy rest then rest else "/"
      else path
  | None => path
  end.

(** [handleRequest(request, env, ctx)] of an initialised application:
    everything thrown on the way ends in [handleException]. *)
Definition handleRequest (regexTest : string -> string -> bool)
    (app : Application) (opts : Options)
    (router : RadixRouter.Router RouteHandler)
    (request : Request) (env : option JsObject) (st : PipelineState)
  : Outcome Response * PipelineState :=
  if bool_decide (is_Some (cors opts)) && String.eqb (req_method request) "OPTIONS"
  then (Returned (applyCors opts request (mkResponse 204 ∅ BodyNull)), st)
  else
    let path := stripPrefix opts (req_pathname request) in
    match RadixRouter.matchRoute regexTest router (req_method request) path with
    | None =>
        let error :=
          ErrHttp (NotFoundException capturedStack
                     ("Cannot " ++ req_method request ++ " " ++ path)%string) in
        (Returned (handleException app error env), st)
    | Some m =>
        match executePipeline app (RadixRouter.handler m) st with
        | (Returned response, st') =>
            (Returned (applyCors opts request response), st')
        | (Thrown error, st') => (Returned (handleException app error env), st')
        | (OutOfFuel, st') => (OutOfFuel, st')
        end
    end.

(** The recording interceptor of the tests: it notes its name, awaits
    [next.handle()], notes its name again and returns what it got. *)
Definition recorder (name : string) : Interceptor :=
  mkInterceptor name
    (Emit (Before name)
       (Handle (fun v => Emit (After name) (Return v)) (fun e => Throw e))).

(** An application whose global interceptors are recorders, and a route
    whose interceptors are recorders and whose method returns [v]. *)
Definition recordingApp (globals : list string) : Application :=
  mkApplication [] (map recorder globals) [].

Definition recordingHandler (routes : list string) (v : JsValue)
  : RouteHandler :=
  mkRouteHandler "handle" (Some (MethodReturns v)) None ∅ []
    (map recorder routes).

End WithStack.

(** [throw new BadRequestException({ error: 'bad' })] *)
Definition badRequestWithObject : JsError :=
  ErrHttp (mkHttpException "BadRequestException" 400
             (RespObject {["error" := JStr "bad"]}) (Some "at handler") None).

Definition noEnhancers : Application := mkApplication [] [] [].

Definition allowGuard (name : string) : Guard := mkGuard name (Resolves true).
Definition denyGuard (name : string) : Guard := mkGuard name (Resolves false).

End Pipeline.

(** ** The dependency-injection container (di/container.ts) *)

Module DI.
Local Open Scope list_scope.

(** [InjectionToken]: a class (known by its name here), a string or a
    symbol; [UndefinedToken] is the [undefined] entry that
    [getConstructorDependencies] leaves for an unannotated parameter. *)
Inductive Token :=
| ClassToken (name : string)
| StringToken (s : string)
| SymbolToken (description : string)
| UndefinedToken.

#[export] Instance Token_eq_dec : EqDecision Token.
Proof. solve_decision. Defined.

#[export] Instance Token_countable : Countable Token.
Proof.
  refine (inj_countable'
    (fun t => match t with
              | ClassToken n => inl (inl n)
              | StringToken s => inl (inr s)
              | SymbolToken d => inr (inl d)
              | UndefinedToken => inr (inr tt)
              end)
    (fun x => match x with
              | inl (inl n) => ClassToken n
              | inl (inr s) => StringToken s
              | inr (inl d) => SymbolToken d
              | inr (inr _) => UndefinedToken
              end) _).
  intros []; reflexivity.
Defined.

(** [getTokenName] *)
Definition getTokenName (t : Token) : string :=
  match t with
  | ClassToken name => if JsString.truthy name then name else "Anonymous"
  | SymbolToken d => ("Symbol(" ++ d ++ ")")%string
  | StringToken s => s
  | UndefinedToken => "undefined"
  end.

Inductive Scope := SINGLETON | REQUEST | TRANSIENT.

(** A class as the container sees it: its name, what
    [getConstructorDependencies] returns for it (token and [optional]
    flag per constructor parameter), and its [@Injectable] scope. *)
Record ClassDef := mkClass {
  c_name : string;
  c_dependencies : list (Token * bool);
  c_scope : option Scope
}.

(** Values that flow through resolution.  [VObj a] is the object that
    the [a]-th [new] of this run constructed, [VContainer c] a container,
    [VPromise p] a pending value. *)
Inductive Value :=
| VUndef
| VNull
| VPrim (s : string)
| VObj (addr : nat)
| VContainer (cid : nat)
| VPromise (p : Promise)
with Promise :=
| PResolved (v : Value)          (* fulfils with [v] *)
| PRejected (reason : string)    (* rejects *)
| PCacheSingleton (p : Promise) (owner : nat) (tok : Token)
    (* [p.then(resolved => { record.instance = resolved;
                             record.isResolved = true; return resolved })] *)
| PCacheScoped (p : Promise) (cid : nat) (tok : Token)
    (* [p.then(resolved => { this.scopedInstances.set(token, resolved);
                             return resolved })] *)
| PAllConstruct (args : list Value) (cls : ClassDef)
    (* [Promise.all(args).then(resolvedArgs => new cls(...resolvedArgs))] *).

Definition isPromise (v : Value) : bool :=
  match v with VPromise _ => true | _ => false end.

Definition isUndefined (v : Value) : bool :=
  match v with VUndef => true | _ => false end.

(** A user function given as [useFactory]. *)
Inductive UserFn :=
| FnConstruct (cls : string)   (* builds a new object from its arguments *)
| FnReturn (v : Value)         (* returns [v], e.g. [undefined] or a shared value *)
| FnThrow (reason : string)
| FnAsync (body : UserFn)      (* [async (...) => body] *).

(** The closures that [createProviderRecord] stores as [record.factory]. *)
Inductive Factory :=
| FClass (cls : ClassDef)      (* [container => this.instantiateClass(cls, container)] *)
| FValue (v : Value)           (* [() => provider.useValue], and [() => this] *)
| FFactory (inject : list Token) (fn : UserFn)
| FExisting (tok : Token).

Record ProviderRecord := mkRecord {
  token : Token;
  scope : Scope;
  factory : Factory;
  instance : Value;
  isResolved : bool
}.

Inductive Provider :=
| TypeProvider (cls : ClassDef)
| ClassProvider (provide : Token) (useClass : ClassDef) (pscope : option Scope)
| ValueProvider (provide : Token) (useValue : Value)
| FactoryProvider (provide : Token) (useFactory : UserFn)
    (inject : option (list Token)) (pscope : option Scope)
| ExistingProvider (provide : Token) (useExisting : Token).

Inductive DIError :=
| CircularDependencyError (tokens : list Token)
| TokenNotFoundError (tok : Token)
| ContainerError (message : string)
| UserError (reason : string).

Fixpoint joinArrow (xs : list string) : string :=
  match xs with
  | [] => ""
  | [x] => x
  | x :: rest => (x ++ " -> " ++ joinArrow rest)%string
  end.

(** [error.message] *)
Definition errorMessage (e : DIError) : string :=
  match e with
  | CircularDependencyError tokens =>
      ("Circular dependency detected: " ++ joinArrow (map getTokenName tokens))%string
  | TokenNotFoundError tok =>
      ("No provider found for token: " ++ getTokenName tok)%string
  | ContainerError message => message
  | UserError reason => reason
  end.

Record Container := mkContainer {
  providers : gmap Token ProviderRecord;
  parent : option nat;
  resolutionStack : list Token;
  scopedInstances : gmap Token Value
}.

(** All containers (a container is known by its index), the objects
    constructed so far (class name and constructor arguments), and the
    tokens whose [record.factory] was called, in call order. *)
Record World := mkWorld {
  containers : list Container;
  heap : list (string * list Value);
  factoryCalls : list Token
}.

Inductive Result (A : Type) :=
| Ok (a : A)
| Err (e : DIError)
| Diverge.
Arguments Ok {A} a.
Arguments Err {A} e.
Arguments Diverge {A}.

(** State and exceptions. *)
Definition M (A : Type) : Type := World -> Result A * World.

Definition ret {A} (a : A) : M A := fun w => (Ok a, w).
Definition throw {A} (e : DIError) : M A := fun w => (Err e, w).
Definition diverge {A} : M A := fun w => (Diverge, w).
Definition bind {A B} (m : M A) (k : A -> M B) : M B :=
  fun w =>
    match m w with
    | (Ok a, w') => k a w'
    | (Err e, w') => (Err e, w')
    | (Diverge, w') => (Diverge, w')
    end.
(** [try { m } finally { fin }] *)
Definition tryFinally {A} (m : M A) (fin : World -> World) : M A :=
  fun w => let '(r, w') := m w in (r, fin w').
Definition modify (f : World -> World) : M unit := fun w => (Ok tt, f w).
Definition gets {A} (f : World -> A) : M A := fun w => (Ok (f w), w).

Declare Scope di_scope.
Delimit Scope di_scope with di.
Notation "x <- m ;; k" := (bind m (fun x => k))
  (at level 100, m at next level, right associativity) : di_scope.
Notation "m ;;; k" := (bind m (fun _ => k))
  (at level 100, right associativity) : di_scope.
Local Open Scope di_scope.

Fixpoint mapM {A B} (f : A -> M B) (xs : list A) : M (list B) :=
  match xs with
  | [] => ret []
  | x :: rest => y <- f x ;; ys <- mapM f rest ;; ret (y :: ys)
  end.

(** *** Updates of one container and of one record *)

Definition updContainer (cid : nat) (f : Container -> Container) (w : World)
  : World :=
  mkWorld (alter f cid (containers w)) (heap w) (factoryCalls w).

Definition pushStack (cid : nat) (tok : Token) : World -> World :=
  updContainer cid (fun c =>
    mkContainer (providers c) (parent c) (resolutionStack c ++ [tok])
      (scopedInstances c)).

Definition popStack (cid : nat) : World -> World :=
  updContainer cid (fun c =>
    mkContainer (providers c) (parent c) (removelast (resolutionStack c))
      (scopedInstances c)).

Definition setProviders (c : Container) (ps : gmap Token ProviderRecord)
  : Container :=
  mkContainer ps (parent c) (resolutionStack c) (scopedInstances c).

(** [record.instance = v; record.isResolved = true] on the record that
    [owner] holds under [tok] *)
Definition cacheInstance (owner : nat) (tok : Token) (v : Value)
  : World -> World :=
  updContainer owner (fun c =>
    setProviders c
      (alter (fun r => mkRecord (token r) (scope r) (factory r) v true)
             tok (providers c))).

(** [this.scopedInstances.set(token, v)] *)
Definition cacheScoped (cid : nat) (tok : Token) (v : Value)
  : World -> World :=
  updContainer cid (fun c =>
    mkContainer (providers c) (parent c) (resolutionStack c)
      (<[tok := v]> (scopedInstances c))).

Definition logFactoryCall (tok : Token) (w : World) : World :=
  mkWorld (containers w) (heap w) (factoryCalls w ++ [tok]).

(** [new cls(...args)] *)
Definition construct (cname : string) (args : list Value) : M Value :=
  fun w =>
    (Ok (VObj (length (heap w))),
     mkWorld (containers w) (heap w ++ [(cname, args)]) (factoryCalls w)).

(** [getProviderRecord]: the record and the container that holds it.  A
    parent is created before its children, so the walk from [cid] takes
    at most [cid + 1] steps, which is the [fuel] it is called with. *)
Fixpoint getProviderRecordFrom (fuel : nat) (cs : list Container)
    (cid : nat) (tok : Token) : option (nat * ProviderRecord) :=
  match fuel with
  | O => None
  | S fuel' =>
      match cs !! cid with
      | None => None
      | Some c =>
          match providers c !! tok with
          | Some r => Some (cid, r)
          | None =>
              match parent c with
              | Some p => getProviderRecordFrom fuel' cs p tok
              | None => None
              end
          end
      end
  end.

Definition getProviderRecord (w : World) (cid : nat) (tok : Token)
  : option (nat * ProviderRecord) :=
  getProviderRecordFrom (S cid) (containers w) cid tok.

Definition stackOf (w : World) (cid : nat) : list Token :=
  match containers w !! cid with
  | Some c => resolutionStack c
  | None => []
  end.

Definition scopedOf (w : World) (cid : nat) : gmap Token Value :=
  match containers w !! cid with
  | Some c => scopedInstances c
  | None => ∅
  end.

Definition asyncMessage (tok : Token) : string :=
  ("Cannot use resolve() for async provider " ++ getTokenName tok
     ++ ". Use resolveAsync() instead.")%string.

(** [useFactory(...deps)] *)
Fixpoint callUserFn (fn : UserFn) (deps : list Value) : M Value :=
  match fn with
  | FnConstruct cls => construct cls deps
  | FnReturn v => ret v
  | FnThrow reason => throw (UserError reason)
  | FnAsync body =>
      fun w =>
        match callUserFn body deps w with
        | (Ok v, w') => (Ok (VPromise (PResolved v)), w')
        | (Err e, w') => (Ok (VPromise (PRejected (errorMessage e))), w')
        | (Diverge, w') => (Diverge, w')
        end
  end.

Section Resolution.

(** The nested calls of [resolveInternal(token, { optional })] on the
    container [cid]. *)
Variable resolveRec : nat -> Token -> bool -> M Value.

(** [container.resolve(token)] as the factories call it *)
Definition resolveWith (cid : nat) (tok : Token) (optional : bool)
  : M Value :=
  result <- resolveRec cid tok optional ;;
  if isPromise result then throw (ContainerError (asyncMessage tok))
  else ret result.

Definition instantiateClass (cls : ClassDef) (cid : nat) : M Value :=
  args <- mapM (fun d => resolveRec cid (fst d) (snd d)) (c_dependencies cls) ;;
  if existsb isPromise args
  then ret (VPromise (PAllConstruct args cls))
  else construct (c_name cls) args.

Definition runFactory (f : Factory) (cid : nat) : M Value :=
  match f with
  | FClass cls => instantiateClass cls cid
  | FValue v => ret v
  | FFactory inject fn =>
      deps <- mapM (fun dep => resolveWith cid dep false) inject ;;
      callUserFn fn deps
  | FExisting tok => resolveWith cid tok false
  end.

Definition resolveSingleton (cid : nat) (tok : Token) (owner : nat)
    (record : ProviderRecord) : M Value :=
  if isResolved record && negb (isUndefined (instance record))
  then ret (instance record)
  else
    modify (pushStack cid tok) ;;;
    tryFinally
      (modify (logFactoryCall tok) ;;;
       inst <- runFactory (factory record) cid ;;
       match inst with
       | VPromise p => ret (VPromise (PCacheSingleton p owner tok))
       | _ => modify (cacheInstance owner tok inst) ;;; ret inst
       end)
      (popStack cid).

Definition resolveRequestScoped (cid : nat) (tok : Token)
    (record : ProviderRecord) : M Value :=
  scoped <- gets (fun w => scopedOf w cid !! tok) ;;
  match scoped with
  | Some v => ret v
  | None =>
      modify (pushStack cid tok) ;;;
      tryFinally
        (modify (logFactoryCall tok) ;;;
         inst <- runFactory (factory record) cid ;;
         match inst with
         | VPromise p => ret (VPromise (PCacheScoped p cid tok))
         | _ => modify (cacheScoped cid tok inst) ;;; ret inst
         end)
        (popStack cid)
  end.

Definition resolveTransient (cid : nat) (tok : Token)
    (record : ProviderRecord) : M Value :=
  modify (logFactoryCall tok) ;;;
  runFactory (factory record) cid.

Definition resolveInternalBody (cid : nat) (tok : Token) (optional : bool)
  : M Value :=
  stack <- gets (fun w => stackOf w cid) ;;
  if bool_decide (tok ∈ stack)
  then throw (CircularDependencyError (stack ++ [tok]))
  else
    found <- gets (fun w => getProviderRecord w cid tok) ;;
    match found with
    | None =>
        if optional then ret VUndef else throw (TokenNotFoundError tok)
    | Some (owner, record) =>
        match scope record with
        | SINGLETON => resolveSingleton cid tok owner record
        | REQUEST => resolveRequestScoped cid tok record
        | TRANSIENT => resolveTransient cid tok record
        end
    end.

End Resolution.

(** [resolveInternal]; [fuel] bounds the depth of nested resolutions, and
    [Diverge] is a call stack that never unwinds. *)
Fixpoint resolveInternal (fuel : nat) (cid : nat) (tok : Token)
    (optional : bool) : M Value :=
  match fuel with
  | O => diverge
  | S fuel' => resolveInternalBody (resolveInternal fuel') cid tok optional
  end.

(** [Container.resolve(token, options)] *)
Definition resolve (fuel : nat) (cid : nat) (tok : Token) (optional : bool)
  : M Value :=
  resolveWith (resolveInternal fuel) cid tok optional.

(** Awaiting a pending value: the reactions registered on it run when it
    settles.  A pending value that nobody awaits (the one [resolve] has
    thrown on) is dropped here together with its reactions. *)
Fixpoint settle (p : Promise) : M Value :=
  match p with
  | PResolved v => await v
  | PRejected reason => throw (UserError reason)
  | PCacheSingleton q owner tok =>
      resolved <- settle q ;;
      modify (cacheInstance owner tok resolved) ;;; ret resolved
  | PCacheScoped q cid tok =>
      resolved <- settle q ;;
      modify (cacheScoped cid tok resolved) ;;; ret resolved
  | PAllConstruct args cls =>
      resolvedArgs <-
        (fix awaitAll (vs : list Value) : M (list Value) :=
           match vs with
           | [] => ret []
           | v :: rest => x <- await v ;; xs <- awaitAll rest ;; ret (x :: xs)
           end) args ;;
      construct (c_name cls) resolvedArgs
  end
with await (v : Value) : M Value :=
  match v with
  | VPromise p => settle p
  | _ => ret v
  end.

(** [Container.resolveAsync(token, options)], awaited: [Ok] is the value
    the returned promise fulfils with, [Err] its rejection. *)
Definition resolveAsync (fuel : nat) (cid : nat) (tok : Token)
    (optional : bool) : M Value :=
  result <- resolveInternal fuel cid tok optional ;;
  await result.

(** *** Registration and hierarchy *)

Definition containerToken : Token := ClassToken "Container".

(** [new Container(parent)]: the new container registers itself. *)
Definition newContainer (parent : option nat) (w : World) : nat * World :=
  let cid := length (containers w) in
  let self :=
    mkRecord containerToken SINGLETON (FValue (VContainer cid))
      (VContainer cid) true in
  (cid,
   mkWorld (containers w ++ [mkContainer {[containerToken := self]} parent [] ∅])
     (heap w) (factoryCalls w)).

Definition emptyWorld : World := mkWorld [] [] [].

Definition getProviderToken (p : Provider) : Token :=
  match p with
  | TypeProvider cls => ClassToken (c_name cls)
  | ClassProvider t _ _ | ValueProvider t _ | FactoryProvider t _ _ _
  | ExistingProvider t _ => t
  end.

(** [createProviderRecord]; a value provider whose [useValue] is
    [undefined] passes none of the shape checks. *)
Definition createProviderRecord (p : Provider) : Result ProviderRecord :=
  let tok := getProviderToken p in
  match p with
  | TypeProvider cls =>
      Ok (mkRecord tok (default SINGLETON (c_scope cls)) (FClass cls) VUndef false)
  | ClassProvider _ cls sc =>
      Ok (mkRecord tok (default SINGLETON sc) (FClass cls) VUndef false)
  | ValueProvider _ v =>
      if isUndefined v then Err (ContainerError "Invalid provider")
      else Ok (mkRecord tok SINGLETON (FValue v) v true)
  | FactoryProvider _ fn inject sc =>
      Ok (mkRecord tok (default SINGLETON sc) (FFactory (default [] inject) fn)
            VUndef false)
  | ExistingProvider _ existing =>
      Ok (mkRecord tok SINGLETON (FExisting existing) VUndef false)
  end.

(** [Container.register(provider)] *)
Definition register (cid : nat) (p : Provider) : M unit :=
  match createProviderRecord p with
  | Ok record =>
      modify (updContainer cid (fun c =>
        setProviders c (<[getProviderToken p := record]> (providers c))))
  | Err e => throw e
  | Diverge => diverge
  end.

Definition registerMany (cid : nat) (ps : list Provider) : M unit :=
  _ <- mapM (register cid) ps ;; ret tt.

(** [createChild] and [createRequestScope] *)
Definition createChild (cid : nat) (w : World) : nat * World :=
  newContainer (Some cid) w.

Definition createRequestScope (cid : nat) (w : World) : nat * World :=
  let '(child, w') := createChild cid w in
  (child,
   updContainer child (fun c =>
     mkContainer (providers c) (parent c) (resolutionStack c) ∅) w').

(** [Container.clear()] *)
Definition clear (cid : nat) : World -> World :=
  updContainer cid (fun c =>
    mkContainer
      ((fun r => if bool_decide (token r = containerToken) then r
                 else mkRecord (token r) (scope r) (factory r) VUndef false)
         <$> providers c)
      (parent c) (resolutionStack c) ∅).

(** The world after [m] *)
Definition after {A} (m : M A) (w : World) : World := snd (m w).

(** *** Registrations used below *)

(** A root container (number 0) with the given providers *)
Definition registered (ps : list Provider) : World :=
  after (registerMany 0 ps) (snd (newContainer None emptyWorld)).

(** [@Transient() class A { constructor(@Inject(A) a) {} }] *)
Definition selfTransientWorld : World :=
  registered
    [TypeProvider (mkClass "A" [(ClassToken "A", false)] (Some TRANSIENT))].

(** A singleton [S] that needs a transient [T] that needs [S] *)
Definition mixedCycleWorld : World :=
  registered
    [TypeProvider (mkClass "S" [(ClassToken "T", false)] None);
     TypeProvider (mkClass "T" [(ClassToken "S", false)] (Some TRANSIENT))].

(** Singletons [A] and [B] that need each other *)
Definition singletonCycleWorld : World :=
  registered
    [TypeProvider (mkClass "A" [(ClassToken "B", false)] None);
     TypeProvider (mkClass "B" [(ClassToken "A", false)] None)].

(** [CONN] comes from an async factory; [REPO] is a factory that injects
    it, [DB] an alias of it, and the class [Service] takes it in its
    constructor. *)
Definition asyncWorld : World :=
  registered
    [FactoryProvider (StringToken "CONN") (FnAsync (FnConstruct "Connection"))
       None None;
     FactoryProvider (StringToken "REPO") (FnConstruct "Repository")
       (Some [StringToken "CONN"]) None;
     ExistingProvider (StringToken "DB") (StringToken "CONN");
     TypeProvider (mkClass "Service" [(StringToken "CONN", false)] None)].

(** One class per scope, and two request scopes (1 and 2) of the root *)
Definition scopesRoot : World :=
  registered
    [TypeProvider (mkClass "Config" [] None);
     TypeProvider (mkClass "Job" [(ClassToken "Config", false)] (Some TRANSIENT));
     TypeProvider (mkClass "Session" [] (Some REQUEST))].

Definition scopesWorld : World :=
  snd (createRequestScope 0 (snd (createRequestScope 0 scopesRoot))).



(** A singleton factory that returns [undefined] *)
Definition undefinedWorld : World :=
  registered [FactoryProvider (StringToken "MAYBE") (FnReturn VUndef) None None].

End DI.

(** ** CORS headers and route paths (application/factory.ts) *)

Module Cors.
Import Http.
Local Open Scope list_scope.

(** [CorsOptions.origin]:
    [string | string[] | boolean | ((origin: string) => boolean)],
    or left out *)
Inductive OriginOption :=
| OriginUnset
| OriginBool (b : bool)
| OriginString (s : string)
| OriginList (xs : list string)
| OriginFn (f : string -> bool).

(** [CorsOptions], as far as [handleCors] reads it; [co_credentials] is
    the truthiness of [credentials]. *)
Record CorsOptions := mkCors {
  co_origin : OriginOption;
  co_methods : option (list string);
  co_allowedHeaders : option (list string);
  co_exposedHeaders : option (list string);
  co_credentials : bool;
  co_maxAge : option Z
}.

(** A truthy [options.cors]: [true] or an options object *)
Inductive CorsSetting :=
| CorsTrue
| CorsObject (o : CorsOptions).

(** [typeof this.options.cors === 'object' ? this.options.cors : {}] *)
Definition corsOptionsOf (setting : CorsSetting) : CorsOptions :=
  match setting with
  | CorsTrue => mkCors OriginUnset None None None false None
  | CorsObject o => o
  end.

(** [xs.join(', ')] *)
Fixpoint joinComma (xs : list string) : string :=
  match xs with
  | [] => ""
  | [x] => x
  | x :: rest => (x ++ ", " ++ joinComma rest)%string
  end.

(** [xs.includes(x)] *)
Definition includes (xs : list string) (x : string) : bool :=
  existsb (String.eqb x) xs.

(** [getAllowedOrigin(origin, options)]; [None] is [null] *)
Definition getAllowedOrigin (origin : string) (options : CorsOptions)
  : option string :=
  match co_origin options with
  | OriginBool true | OriginUnset => Some origin
  | OriginBool false => None
  | OriginString s => Some s
  | OriginList xs => if includes xs origin then Some origin else None
  | OriginFn f => if f origin then Some origin else None
  end.

Definition allowOrigin : string := "Access-Control-Allow-Origin".
Definition allowMethods : string := "Access-Control-Allow-Methods".
Definition allowHeaders : string := "Access-Control-Allow-Headers".
Definition allowCredentials : string := "Access-Control-Allow-Credentials".
Definition exposeHeaders : string := "Access-Control-Expose-Headers".
Definition maxAge : string := "Access-Control-Max-Age".

(** [handleCors(request, response)]; [reqHeaders] is [request.headers].
    A header name stands for the header in any spelling of its case. *)
Definition handleCors (setting : CorsSetting)
    (reqHeaders : gmap string string) (response : Response) : Response :=
  let corsOptions := corsOptionsOf setting in
  let origin := default "*" (reqHeaders !! "Origin") in
  let headers := r_headers response in
  let headers1 :=
    match getAllowedOrigin origin corsOptions with
    | Some allowedOrigin =>
        if JsString.truthy allowedOrigin
        then <[allowOrigin := allowedOrigin]> headers
        else headers
    | None => headers
    end in
  let methods :=
    match co_methods corsOptions with
    | Some ms => joinComma ms
    | None => "GET, POST, PUT, DELETE, PATCH, OPTIONS"
    end in
  let headers2 := <[allowMethods := methods]> headers1 in
  let allowedHeaders :=
    match co_allowedHeaders corsOptions with
    | Some hs => joinComma hs
    | None => default "*" (reqHeaders !! "Access-Control-Request-Headers")
    end in
  let headers3 := <[allowHeaders := allowedHeaders]> headers2 in
  let headers4 :=
    if co_credentials corsOptions
    then <[allowCredentials := "true"]> headers3 else headers3 in
  let headers5 :=
    match co_exposedHeaders corsOptions with
    | Some hs => <[exposeHeaders := joinComma hs]> headers4
    | None => headers4
    end in
  let headers6 :=
    match co_maxAge corsOptions with
    | Some n =>
        if Z.eqb n 0 then headers5
        else <[maxAge := numberToString n]> headers5
    | None => headers5
    end in
  mkResponse (r_status response) headers6 (r_body response).

(** [options.cors] for the request whose headers are [reqHeaders] *)
Definition corsOption (setting : option CorsSetting)
    (reqHeaders : gmap string string)
  : option (Pipeline.Request -> Response -> Response) :=
  match setting with
  | Some s => Some (fun _ response => handleCors s reqHeaders response)
  | None => None
  end.

End Cors.

Module Routes.
Import JsString.

(** [p.startsWith('/') ? p : `/${p}`] *)
Definition withLeadingSlash (p : string) : string :=
  if startsWith p "/" then p else ("/" ++ p)%string.

(** The path under which [registerRoutes] registers a method: global
    prefix, version, controller path and method path, each left out when
    it is not truthy, and [/] when nothing is left. *)
Definition routeFullPath (globalPrefix version : option string)
    (basePath routePath : string) : string :=
  let fullPath0 :=
    match globalPrefix with
    | Some g => if truthy g then g else ""
    | None => ""
    end in
  let fullPath1 :=
    match version with
    | Some v => if truthy v then (fullPath0 ++ "/v" ++ v)%string else fullPath0
    | None => fullPath0
    end in
  let fullPath2 :=
    if truthy basePath then (fullPath1 ++ withLeadingSlash basePath)%string
    else fullPath1 in
  let fullPath3 :=
    if truthy routePath then (fullPath2 ++ withLeadingSlash routePath)%string
    else fullPath2 in
  if truthy fullPath3 then fullPath3 else "/".

End Routes.

(** ** More of the container's interface (di/container.ts), and
       [resolveEnhancer] (application/factory.ts) *)

Module ContainerApi.
Import DI.
Local Open Scope list_scope.
Local Open Scope di_scope.

(** [has(token)]: [this.providers.has(token) || (this.parent?.has(token) ?? false)];
    the walk up the parents takes at most [cid + 1] steps, as in
    [getProviderRecord]. *)
Fixpoint hasFrom (fuel : nat) (cs : list Container) (cid : nat) (tok : Token)
  : bool :=
  match fuel with
  | O => false
  | S fuel' =>
      match cs !! cid with
      | None => false
      | Some c =>
          bool_decide (is_Some (providers c !! tok))
          || match parent c with
             | Some p => hasFrom fuel' cs p tok
             | None => false
             end
      end
  end.

Definition has (w : World) (cid : nat) (tok : Token) : bool :=
  hasFrom (S cid) (containers w) cid tok.

(** [registerValue(token, value)] and [registerAlias(token, existing)] *)
Definition registerValue (cid : nat) (tok : Token) (v : Value) : M unit :=
  register cid (ValueProvider tok v).

Definition registerAlias (cid : nat) (tok existing : Token) : M unit :=
  register cid (ExistingProvider tok existing).

(** What [resolveEnhancer] is given: a class or an instance *)
Inductive Enhancer :=
| EnhancerClass (cls : ClassDef)
| EnhancerInstance (v : Value).

(** [resolveEnhancer(enhancer)]:
    [try { return this.container.resolve(enhancer) } catch { return new enhancer() }]
    for a class, the instance itself otherwise.  The [catch] has no
    binding and takes whatever [resolve] throws: the errors of the
    container, those of the factories, and the [RangeError] with which a
    resolution that recurses without end ([Diverge]) overflows the call
    stack. *)
Definition resolveEnhancer (fuel : nat) (cid : nat) (enhancer : Enhancer)
  : M Value :=
  match enhancer with
  | EnhancerClass cls =>
      fun w =>
        match resolve fuel cid (ClassToken (c_name cls)) false w with
        | (Ok v, w') => (Ok v, w')
        | (Err _, w') => construct (c_name cls) [] w'
        | (Diverge, w') => construct (c_name cls) [] w'
        end
  | EnhancerInstance v => ret v
  end.

End ContainerApi.

(** * Properties *)

(** ** The radix router *)

Module RouterFacts.
Import JsString RadixRouter.

Section Facts.
Context {RouteHandler : Type}.
Variable regexTest : string -> string -> bool.

Abbreviation Node := (RadixNode RouteHandler).

(** No wildcard child within [depth] segments below the node: along
    static children (and the children a split put below them) and
    parameter children. *)
Fixpoint wildcardFree (depth : nat) (n : Node) : Prop :=
  match depth with
  | O => True
  | S d =>
      wildcardChild n = None
      /\ (forall k c, children n !! k = Some c ->
            wildcardFree d c
            /\ forall k' c', children c !! k' = Some c' -> wildcardFree d c')
      /\ (forall pc, paramChild n = Some pc -> wildcardFree d pc)
  end.

(** Every parameter child within [depth] segments below the node, along
    the same children, has an [ordinaryName]: what [matchPath] reads from
    and writes to [params] on the way are own string properties. *)
Fixpoint ordinaryParams (depth : nat) (n : Node) : Prop :=
  match depth with
  | O => True
  | S d =>
      (forall k c, children n !! k = Some c ->
         ordinaryParams d c
         /\ forall k' c', children c !! k' = Some c' -> ordinaryParams d c')
      /\ (forall pc, paramChild n = Some pc ->
            ordinaryName (segment pc) /\ ordinaryParams d pc)
  end.

Lemma orElse_None (r : option RouteHandler * gmap string string) next :
  fst r = None -> orElse r next = next (snd r).
Proof. destruct r as [[h|] ps]; simpl; [discriminate | done]. Qed.

Lemma orElse_Some (r : option RouteHandler * gmap string string) next h :
  fst r = Some h -> orElse r next = r.
Proof. destruct r as [[h'|] ps]; simpl; [done | discriminate]. Qed.

(** A failed parameter binding leaves the map as it found it, when the
    deeper match does. *)
Lemma bindParam_restores (recur : Node -> gmap string string
                            -> option RouteHandler * gmap string string)
    pc seg ps :
  (forall ps0, fst (recur pc ps0) = None -> snd (recur pc ps0) = ps0) ->
  fst (bindParam recur pc seg ps) = None ->
  snd (bindParam recur pc seg ps) = ps.
Proof.
  intros Hrec. unfold bindParam.
  destruct (recur pc (<[segment pc:=seg]> ps)) as [[h|] ps'] eqn:E; simpl;
    [discriminate|].
  intros _. specialize (Hrec (<[segment pc:=seg]> ps)).
  rewrite E in Hrec. simpl in Hrec. rewrite Hrec by done.
  destruct (ps !! segment pc) as [v|] eqn:Hv.
  - rewrite insert_insert_eq. by apply insert_id.
  - rewrite delete_insert_eq. by apply delete_id.
Qed.

(** X6. Backtracking through static and parameter branches restores the
    parameter map: without a wildcard in reach, and with parameters of
    ordinary names (no property of [Object.prototype]), a failed
    [matchPath] returns the map it was given. *)
Lemma matchPath_restores_params method segs :
  forall (node : Node) ps,
    wildcardFree (length segs) node ->
    ordinaryParams (length segs) node ->
    fst (matchPath regexTest segs method node ps) = None ->
    snd (matchPath regexTest segs method node ps) = ps.
Proof.
  induction segs as [|seg rest IH]; intros node ps Hfree Hord; [done|].
  simpl in Hfree. destruct Hfree as (Hw & Hstatic & Hparam).
  simpl in Hord. destruct Hord as (Ostatic & Oparam).
  cbn [matchPath].
  set (recur := matchPath regexTest rest method).
  assert (Hs : fst (staticStage recur node seg ps) = None ->
               snd (staticStage recur node seg ps) = ps).
  { unfold staticStage.
    destruct (children node !! firstCharOf seg) as [sc|] eqn:Hsc; [|done].
    destruct (Hstatic _ _ Hsc) as [Hfsc Hgrand].
    destruct (Ostatic _ _ Hsc) as [Hosc Hogrand].
    destruct (startsWith seg (segment sc)); [|done].
    destruct (String.eqb (segment sc) seg); [by apply IH|].
    destruct (children sc !! _) as [nc|] eqn:Hnc; [|done].
    destruct (String.eqb _ (segment nc)); [|done].
    apply IH; [eapply Hgrand | eapply Hogrand]; eauto. }
  assert (Hb : forall pc ps0, paramChild node = Some pc ->
               fst (bindParam recur pc seg ps0) = None ->
               snd (bindParam recur pc seg ps0) = ps0).
  { intros pc ps0 Hpc. apply bindParam_restores.
    intros ps1. apply IH; [by apply Hparam | by apply Oparam]. }
  destruct (staticStage recur node seg ps) as [[h|] ps1] eqn:E1; simpl;
    [discriminate|].
  simpl in Hs. rewrite Hs by done. clear E1 Hs ps1.
  assert (Hr : fst (regexStage regexTest recur node seg ps) = None ->
               snd (regexStage regexTest recur node seg ps) = ps).
  { unfold regexStage. destruct (paramChild node) as [pc|] eqn:Hpc; [|done].
    destruct (pattern pc); [|done].
    destruct (regexTest _ _); [by apply Hb | done]. }
  destruct (regexStage regexTest recur node seg ps) as [[h|] ps2] eqn:E2;
    simpl; [discriminate|].
  simpl in Hr. rewrite Hr by done. clear E2 Hr ps2.
  assert (Hp : fst (paramStage recur node seg ps) = None ->
               snd (paramStage recur node seg ps) = ps).
  { unfold paramStage. destruct (paramChild node) as [pc|] eqn:Hpc; [|done].
    destruct (pattern pc); [done | by apply Hb]. }
  destruct (paramStage recur node seg ps) as [[h|] ps3] eqn:E3;
    simpl; [discriminate|].
  simpl in Hp. rewrite Hp by done.
  unfold wildcardStage. by rewrite Hw.
Qed.

Lemma startsWith_same s : startsWith s s = true.
Proof.
  unfold startsWith. induction s as [|c s IH]; [done|].
  cbn [String.prefix]. by destruct (Ascii.ascii_dec c c).
Qed.

Lemma matchPath_cons method (node : Node) seg rest ps :
  matchPath regexTest (seg :: rest) method node ps
  = let recur := matchPath regexTest rest method in
    orElse (staticStage recur node seg ps) (fun ps1 =>
    orElse (regexStage regexTest recur node seg ps1) (fun ps2 =>
    orElse (paramStage recur node seg ps2) (fun ps3 =>
    wildcardStage node (seg :: rest) method ps3))).
Proof. reflexivity. Qed.

(** The static child that fits the segment decides, whatever the other
    children are. *)
Lemma static_child_first method (node : Node) seg rest ps c h ps' :
  children node !! firstCharOf seg = Some c ->
  segment c = seg ->
  matchPath regexTest rest method c ps = (Some h, ps') ->
  matchPath regexTest (seg :: rest) method node ps = (Some h, ps').
Proof.
  intros Hc Hseg Hrec. rewrite matchPath_cons. cbv zeta.
  unfold staticStage. rewrite Hc, Hseg.
  rewrite startsWith_same, String.eqb_refl, Hrec. reflexivity.
Qed.

(** After a split, the static stage follows the remainder of the segment
    one node further. *)
Lemma static_split_first method (node : Node) seg rest ps c c' h ps' :
  children node !! firstCharOf seg = Some c ->
  startsWith seg (segment c) = true ->
  segment c <> seg ->
  let remaining := slice_from (String.length (segment c)) seg in
  children c !! firstCharOf remaining = Some c' ->
  segment c' = remaining ->
  matchPath regexTest rest method c' ps = (Some h, ps') ->
  matchPath regexTest (seg :: rest) method node ps = (Some h, ps').
Proof.
  intros Hc Hpre Hne remaining Hc' Hseg' Hrec. rewrite matchPath_cons. cbv zeta.
  unfold staticStage. rewrite Hc, Hpre.
  apply String.eqb_neq in Hne. rewrite Hne.
  fold remaining. rewrite Hc', Hseg', String.eqb_refl, Hrec. reflexivity.
Qed.

(** When the static stage has failed, the parameter child decides if it
    leads to a handler: under its pattern when it has one, and without
    condition when it has none. *)
Lemma param_child_second method (node : Node) seg rest ps ps1 pc h ps' :
  staticStage (matchPath regexTest rest method) node seg ps = (None, ps1) ->
  paramChild node = Some pc ->
  match pattern pc with
  | Some pat => regexTest pat seg = true
  | None => True
  end ->
  matchPath regexTest rest method pc (<[segment pc := seg]> ps1) = (Some h, ps') ->
  matchPath regexTest (seg :: rest) method node ps = (Some h, ps').
Proof.
  intros Hs Hpc Hpat Hrec. rewrite matchPath_cons. cbv zeta.
  rewrite Hs. cbn [orElse].
  unfold regexStage, paramStage. rewrite Hpc.
  destruct (pattern pc) as [pat|].
  - rewrite Hpat. unfold bindParam. rewrite Hrec. reflexivity.
  - cbn [orElse]. unfold bindParam. rewrite Hrec. reflexivity.
Qed.

(** A parameter child whose pattern refuses the segment is not entered:
    the stages of the parameter child leave the map as it is. *)
Lemma param_child_refused method (node : Node) seg rest ps pc pat :
  paramChild node = Some pc ->
  pattern pc = Some pat ->
  regexTest pat seg = false ->
  regexStage regexTest (matchPath regexTest rest method) node seg ps = (None, ps)
  /\ paramStage (matchPath regexTest rest method) node seg ps = (None, ps).
Proof.
  intros Hpc Hpat Hre. unfold regexStage, paramStage.
  by rewrite Hpc, Hpat, Hre.
Qed.

(** When the static child and the parameter child have failed, the
    wildcard child decides. *)
Lemma wildcard_child_last method (node : Node) seg rest ps ps1 ps2 ps3 wc :
  let recur := matchPath regexTest rest method in
  staticStage recur node seg ps = (None, ps1) ->
  regexStage regexTest recur node seg ps1 = (None, ps2) ->
  paramStage recur node seg ps2 = (None, ps3) ->
  wildcardChild node = Some wc ->
  matchPath regexTest (seg :: rest) method node ps
  = (getHandler wc method, <[segment wc := joinSlash (seg :: rest)]> ps3).
Proof.
  intros recur Hs Hr Hp Hw. rewrite matchPath_cons. cbv zeta.
  fold recur. rewrite Hs. cbn [orElse]. rewrite Hr. cbn [orElse].
  rewrite Hp. cbn [orElse]. unfold wildcardStage. by rewrite Hw.
Qed.

Lemma no_child_no_match method (node : Node) seg rest ps :
  children node !! firstCharOf seg = None ->
  paramChild node = None ->
  wildcardChild node = None ->
  matchPath regexTest (seg :: rest) method node ps = (None, ps).
Proof.
  intros Hc Hp Hw. rewrite matchPath_cons. cbv zeta.
  unfold staticStage, regexStage, paramStage, wildcardStage.
  by rewrite Hc, Hp, Hw.
Qed.

Ltac each_order H :=
  symmetry in H; apply permutations_Permutation in H; vm_compute in H;
  repeat (apply elem_of_cons in H as [->|H]);
  [..|by apply elem_of_nil in H].

(** The three routes of [constrainedRoutes], registered in any order *)
Lemma constrained_routes_precedence (hs hr hw : RouteHandler) order :
  order ≡ₚ constrainedRoutes hs hr hw ->
  regexTest "\d+" "42" = true ->
  regexTest "\d+" "bob" = false ->
  let r := registerMany newRouter order in
  matchRoute regexTest r "GET" "/users/active" = Some (mkMatch hs ∅)
  /\ matchRoute regexTest r "GET" "/users/42"
     = Some (mkMatch hr {["id" := "42"]})
  /\ matchRoute regexTest r "GET" "/users/bob"
     = Some (mkMatch hw {["rest" := "bob"]})
  /\ matchRoute regexTest r "GET" "/users/active/x"
     = Some (mkMatch hw {["rest" := "active/x"]}).
Proof.
  intros Horder H42 Hbob r. subst r.
  each_order Horder;
    (split; [vm_compute; reflexivity|]);
    (split; [vm_compute; rewrite H42; reflexivity|]);
    (split; [vm_compute; rewrite Hbob; reflexivity|]);
    destruct (regexTest "\d+" "active") eqn:Hactive;
    vm_compute; rewrite Hactive; reflexivity.
Qed.

(** The three routes of [plainRoutes], registered in any order *)
Lemma plain_routes_precedence (hs hp hw : RouteHandler) order :
  order ≡ₚ plainRoutes hs hp hw ->
  let r := registerMany newRouter order in
  matchRoute regexTest r "GET" "/users/active" = Some (mkMatch hs ∅)
  /\ matchRoute regexTest r "GET" "/users/bob"
     = Some (mkMatch hp {["id" := "bob"]})
  /\ matchRoute regexTest r "GET" "/users/a/b"
     = Some (mkMatch hw {["rest" := "a/b"]}).
Proof.
  intros Horder r. subst r.
  each_order Horder; repeat split; vm_compute; reflexivity.
Qed.

(** C6. On a segment [matchPath] tries the static child, then the
    parameter child under its pattern, then the parameter child without
    a pattern, then the wildcard child, and the first that finds a
    handler gives the result.  In terms of the node: a static child that
    fits the segment and leads to a handler decides, whatever the other
    children are (also through the one node that a split put below it);
    when the static stage has failed, the parameter child decides if its
    pattern accepts the segment, or it has none, and it leads to a
    handler; a parameter child whose pattern refuses the segment is not
    entered; the wildcard child decides only when both have failed, and
    then alone; without any fitting child there is no match.  A node has
    one parameter child, with a pattern or without.  With a static route,
    a parameter route (with a pattern, which accepts [42] and refuses
    [bob], or without) and a wildcard route below [/users], registered
    in any order, the static route answers its own path, the parameter
    route the segments it accepts, and the wildcard route the rest, with
    the bindings of the answering route only; with [/users/:id] and
    [/users/active] registered in either order, [/users/active] is
    answered by the static route, with no parameter bound. *)
Theorem match_precedence :
  (forall method (node : Node) seg rest ps c h ps',
      children node !! firstCharOf seg = Some c ->
      segment c = seg ->
      matchPath regexTest rest method c ps = (Some h, ps') ->
      matchPath regexTest (seg :: rest) method node ps = (Some h, ps'))
  /\ (forall method (node : Node) seg rest ps c c' h ps',
        children node !! firstCharOf seg = Some c ->
        startsWith seg (segment c) = true ->
        segment c <> seg ->
        let remaining := slice_from (String.length (segment c)) seg in
        children c !! firstCharOf remaining = Some c' ->
        segment c' = remaining ->
        matchPath regexTest rest method c' ps = (Some h, ps') ->
        matchPath regexTest (seg :: rest) method node ps = (Some h, ps'))
  /\ (forall method (node : Node) seg rest ps ps1 pc h ps',
        staticStage (matchPath regexTest rest method) node seg ps = (None, ps1) ->
        paramChild node = Some pc ->
        match pattern pc with
        | Some pat => regexTest pat seg = true
        | None => True
        end ->
        matchPath regexTest rest method pc (<[segment pc := seg]> ps1)
        = (Some h, ps') ->
        matchPath regexTest (seg :: rest) method node ps = (Some h, ps'))
  /\ (forall method (node : Node) seg rest ps ps1 pc pat wc,
        staticStage (matchPath regexTest rest method) node seg ps = (None, ps1) ->
        paramChild node = Some pc ->
        pattern pc = Some pat ->
        regexTest pat seg = false ->
        wildcardChild node = Some wc ->
        matchPath regexTest (seg :: rest) method node ps
        = (getHandler wc method, <[segment wc := joinSlash (seg :: rest)]> ps1))
  /\ (forall method (node : Node) seg rest ps ps1 ps2 ps3 wc,
        let recur := matchPath regexTest rest method in
        staticStage recur node seg ps = (None, ps1) ->
        regexStage regexTest recur node seg ps1 = (None, ps2) ->
        paramStage recur node seg ps2 = (None, ps3) ->
        wildcardChild node = Some wc ->
        matchPath regexTest (seg :: rest) method node ps
        = (getHandler wc method, <[segment wc := joinSlash (seg :: rest)]> ps3))
  /\ (forall method (node : Node) seg rest ps,
        children node !! firstCharOf seg = None ->
        paramChild node = None ->
        wildcardChild node = None ->
        matchPath regexTest (seg :: rest) method node ps = (None, ps))
  /\ (forall (hs hr hw : RouteHandler) order,
        order ≡ₚ constrainedRoutes hs hr hw ->
        regexTest "\d+" "42" = true ->
        regexTest "\d+" "bob" = false ->
        let r := registerMany newRouter order in
        matchRoute regexTest r "GET" "/users/active" = Some (mkMatch hs ∅)
        /\ matchRoute regexTest r "GET" "/users/42"
           = Some (mkMatch hr {["id" := "42"]})
        /\ matchRoute regexTest r "GET" "/users/bob"
           = Some (mkMatch hw {["rest" := "bob"]})
        /\ matchRoute regexTest r "GET" "/users/active/x"
           = Some (mkMatch hw {["rest" := "active/x"]}))
  /\ (forall (hs hp hw : RouteHandler) order,
        order ≡ₚ plainRoutes hs hp hw ->
        let r := registerMany newRouter order in
        matchRoute regexTest r "GET" "/users/active" = Some (mkMatch hs ∅)
        /\ matchRoute regexTest r "GET" "/users/bob"
           = Some (mkMatch hp {["id" := "bob"]})
        /\ matchRoute regexTest r "GET" "/users/a/b"
           = Some (mkMatch hw {["rest" := "a/b"]}))
  /\ (forall hparam hstatic : RouteHandler,
        matchRoute regexTest (usersParamFirst hparam hstatic) "GET" "/users/active"
        = Some (mkMatch hstatic ∅)
        /\ matchRoute regexTest (usersStaticFirst hparam hstatic) "GET" "/users/active"
           = Some (mkMatch hstatic ∅)
        /\ matchRoute regexTest (usersParamFirst hparam hstatic) "GET" "/users/42"
           = Some (mkMatch hparam {["id" := "42"]})).
Proof.
  split; [intros; eapply static_child_first; eauto|].
  split; [intros; eapply static_split_first; eauto|].
  split; [intros; eapply param_child_second; eauto|].
  split.
  { intros method node seg rest ps ps1 pc pat wc Hs Hpc Hpat Hre Hw.
    destruct (param_child_refused method node seg rest ps1 pc pat Hpc Hpat Hre)
      as [Hr Hp].
    by apply (wildcard_child_last method node seg rest ps ps1 ps1 ps1 wc). }
  split; [intros; eapply wildcard_child_last; eauto|].
  split; [intros; by apply no_child_no_match|].
  split; [intros; by apply constrained_routes_precedence|].
  split; [intros; by apply plain_routes_precedence|].
  intros hparam hstatic. repeat split; vm_compute; reflexivity.
Qed.

(** C2, on the code: after [/t], [/te] and [/tea] have been registered
    in that order, [/tea] is not found and [/te] is answered by the
    handler of [/tea]: when the new segment extends the existing node,
    [splitOrExtendNode] takes the child under the next character as it
    is, whatever its segment.  After [/team], [/tea], [/te] the path
    [/team] is not found either: [matchPath] follows a split one level
    deep only. *)
Theorem tea_routes_not_found (ht hte htea : RouteHandler) :
  matchRoute regexTest (teaRoutes ht hte htea) "GET" "/tea" = None
  /\ matchRoute regexTest (teaRoutes ht hte htea) "GET" "/te"
     = Some (mkMatch htea ∅)
  /\ matchRoute regexTest (teaRoutes ht hte htea) "GET" "/t"
     = Some (mkMatch ht ∅)
  /\ matchRoute regexTest (teamRoutes ht hte htea) "GET" "/team" = None.
Proof. repeat split; vm_compute; reflexivity. Qed.

(** C5, on the code: the wildcard stage binds its value and returns
    whatever [getHandler] finds, also nothing; the binding then stays.
    [GET /files/a] fails below [files] on a wildcard that only answers
    [POST], is matched by [/:dir/:file], and comes back with [rest]
    bound next to [dir] and [file]. *)
Theorem wildcard_binding_leaks (hpost hget : RouteHandler) :
  matchRoute regexTest (filesRoutes hpost hget) "GET" "/files/a"
  = Some (mkMatch hget
            (<["rest" := "a"]> (<["file" := "a"]> {["dir" := "files"]}))).
Proof. vm_compute. reflexivity. Qed.

End Facts.

(** Three routes registered with the wildcard first and the static route
    last, and a pattern that accepts [42] only *)
Lemma match_precedence_witness :
  let test := fun (_ seg : string) => String.eqb seg "42" in
  let r :=
    registerMany newRouter
      [mkRoute "GET" "/users/*rest" 3; mkRoute "GET" "/users/:id(\d+)" 2;
       mkRoute "GET" "/users/active" 1] in
  matchRoute test r "GET" "/users/active" = Some (mkMatch 1 ∅)
  /\ matchRoute test r "GET" "/users/42" = Some (mkMatch 2 {["id" := "42"]})
  /\ matchRoute test r "GET" "/users/bob" = Some (mkMatch 3 {["rest" := "bob"]}).
Proof.
  intros test r.
  destruct (@match_precedence nat test) as (_ & _ & _ & _ & _ & _ & Hc & _).
  destruct (Hc 1 2 3
              [mkRoute "GET" "/users/*rest" 3; mkRoute "GET" "/users/:id(\d+)" 2;
               mkRoute "GET" "/users/active" 1])
    as (Hactive & H42 & Hbob & _).
  - exact (Permutation_sym (Permutation_rev (constrainedRoutes 1 2 3))).
  - reflexivity.
  - reflexivity.
  - by repeat split.
Defined.

End RouterFacts.

(** ** The request pipeline *)

Module PipelineFacts.
Import Http Pipeline.
Local Open Scope list_scope.
Local Open Scope Z_scope.

Arguments buildChain : simpl never.

Section Facts.

Variable capturedStack : option string.

(** The [canActivate] calls on the guards [gs], in order *)
Definition guardCalls (gs : list Guard) : list Event :=
  map (fun g => CanActivate (g_name g)) gs.

Definition addTrace (evs : list Event) (st : PipelineState) : PipelineState :=
  mkState (chainIndex st) (trace st ++ evs).

Definition allows (g : Guard) : Prop := canActivate g = Resolves true.
Definition denies (g : Guard) : Prop := canActivate g = Resolves false.

(** [new HttpException('Forbidden', 403)] *)
Definition forbidden : JsError :=
  ErrHttp (newHttpException capturedStack (RespString "Forbidden") 403).

(** [chainIndex] only goes down *)
Definition le_index (st st' : PipelineState) : Prop :=
  chainIndex st' <= chainIndex st.

Definition befores (names : list string) : list Event := map Before names.
Definition afters (names : list string) : list Event := map After names.

Lemma addTrace_nil st : addTrace [] st = st.
Proof. destruct st; unfold addTrace; simpl. by rewrite app_nil_r. Qed.

Lemma addTrace_emit ev evs st :
  addTrace evs (emit ev st) = addTrace (ev :: evs) st.
Proof. unfold addTrace, emit; simpl. by rewrite <- app_assoc. Qed.

(** Guards that allow the request are passed one after the other. *)
Lemma runGuards_allowed pre rest st :
  Forall allows pre ->
  runGuards capturedStack (pre ++ rest) st
  = runGuards capturedStack rest (addTrace (guardCalls pre) st).
Proof.
  intros Hpre. revert st.
  induction Hpre as [|g pre Hg _ IH]; intros st; simpl.
  - by rewrite addTrace_nil.
  - unfold allows in Hg. rewrite Hg, IH. by rewrite addTrace_emit.
Qed.

(** The first guard that resolves to [false] ends the loop. *)
Lemma runGuards_denied pre g post st :
  Forall allows pre -> denies g ->
  runGuards capturedStack (pre ++ g :: post) st
  = (Thrown forbidden, addTrace (guardCalls (pre ++ [g])) st).
Proof.
  intros Hpre Hg. rewrite runGuards_allowed by done. simpl.
  unfold denies in Hg. rewrite Hg. f_equal.
  unfold guardCalls. rewrite map_app. simpl.
  unfold addTrace, emit; simpl. by rewrite <- app_assoc.
Qed.

(** *** Fuel: [buildChain] needs one unit per remaining interceptor *)

Lemma buildChain_S fuel interceptors handler st :
  buildChain capturedStack (S fuel) interceptors handler st
  = if chainIndex st <? 0 then executeHandler capturedStack handler st
    else
      match interceptors !! Z.to_nat (chainIndex st) with
      | Some interceptor =>
          runIntercept (buildChain capturedStack fuel interceptors handler)
            (intercept interceptor) (setChainIndex (chainIndex st - 1) st)
      | None =>
          (Thrown (ErrError "Cannot read properties of undefined"
                            capturedStack),
           setChainIndex (chainIndex st - 1) st)
      end.
Proof. reflexivity. Qed.

Lemma runIntercept_total next body :
  forall bound,
  (forall st, chainIndex st <= bound ->
     fst (next st) <> OutOfFuel /\ le_index st (snd (next st))) ->
  forall st, chainIndex st <= bound ->
    fst (runIntercept next body st) <> OutOfFuel
    /\ le_index st (snd (runIntercept next body st)).
Proof.
  intros bound Hnext.
  induction body as [v|e|ev k IH|onValue IHv onError IHe]; intros st Hst; simpl.
  - split; [done | unfold le_index; lia].
  - split; [done | unfold le_index; lia].
  - destruct (IH (emit ev st)) as [H1 H2]; [done|].
    split; [done | by unfold le_index in *].
  - destruct (Hnext st Hst) as [Hn Hle].
    destruct (next st) as [[v|e|] st'] eqn:E; simpl in *; [| |done].
    + destruct (IHv v st') as [H1 H2]; [unfold le_index in Hle; lia|].
      split; [done | unfold le_index in *; lia].
    + destruct (IHe e st') as [H1 H2]; [unfold le_index in Hle; lia|].
      split; [done | unfold le_index in *; lia].
Qed.

Lemma buildChain_total fuel interceptors handler :
  forall st, Z.max 0 (chainIndex st + 1) < Z.of_nat fuel ->
    fst (buildChain capturedStack fuel interceptors handler st) <> OutOfFuel
    /\ le_index st (snd (buildChain capturedStack fuel interceptors handler st)).
Proof.
  induction fuel as [|fuel IH]; intros st Hst; [lia|].
  rewrite buildChain_S.
  destruct (Z.ltb_spec (chainIndex st) 0) as [Hneg|Hpos].
  - unfold executeHandler.
    destruct (h_method handler) as [[v|e]|]; simpl;
      (split; [done | unfold le_index; simpl; lia]).
  - destruct (interceptors !! Z.to_nat (chainIndex st)) as [i|]; simpl.
    + destruct (runIntercept_total
                  (buildChain capturedStack fuel interceptors handler)
                  (intercept i) (chainIndex st - 1)) with
        (st := setChainIndex (chainIndex st - 1) st) as [H1 H2].
      * intros st0 H0. apply IH. lia.
      * simpl. lia.
      * split; [done|]. unfold le_index in *. simpl in *. lia.
    + split; [done | unfold le_index; simpl; lia].
Qed.

(** [executePipeline] always comes back: the fuel it gives [buildChain]
    is enough for any interceptors. *)
Lemma executePipeline_total app handler st :
  fst (executePipeline capturedStack app handler st) <> OutOfFuel.
Proof.
  unfold executePipeline.
  destruct (runGuards capturedStack _ st) as [[[]|e|] st1] eqn:Hg; [|done|].
  - set (ics := globalInterceptors app ++ h_interceptors handler).
    destruct (buildChain_total (S (length ics)) ics handler
                (setChainIndex (Z.of_nat (length ics) - 1) st1)) as [H _].
    { cbn [chainIndex setChainIndex]. lia. }
    destruct (buildChain capturedStack (S (length ics)) ics handler _)
      as [[v|e|] st3]; cbn [fst] in *; done.
  - exfalso. clear -Hg. revert st Hg.
    induction (globalGuards app ++ h_guards handler) as [|g gs IH];
      intros st Hg; simpl in Hg; [done|].
    destruct (canActivate g) as [[]|]; try done. eauto.
Qed.

(** *** The chain, seen through recording interceptors *)

(** With recording interceptors [pre ++ post] and [chainIndex] on the
    last of [pre], the chain enters the interceptors of [pre] from the
    last to the first, runs the handler, and leaves them from the first
    to the last. *)
Lemma buildChain_recorders v handler pre :
  h_method handler = Some (MethodReturns v) ->
  forall post tr,
    buildChain capturedStack (S (length pre)) (map recorder (pre ++ post))
      handler (mkState (Z.of_nat (length pre) - 1) tr)
    = (Returned v,
       mkState (-1)
         (tr ++ befores (rev pre) ++ [HandlerInvoked] ++ afters pre)).
Proof.
  intros Hm.
  induction pre as [|x pre IH] using rev_ind; intros post tr.
  - rewrite buildChain_S. simpl. unfold executeHandler. rewrite Hm. reflexivity.
  - rewrite length_app. simpl length.
    replace (length pre + 1)%nat with (S (length pre)) by lia.
    rewrite buildChain_S. cbn [chainIndex].
    destruct (Z.ltb_spec (Z.of_nat (S (length pre)) - 1) 0) as [?|_]; [lia|].
    replace (Z.to_nat (Z.of_nat (S (length pre)) - 1)) with (length pre) by lia.
    rewrite <- app_assoc. simpl app.
    rewrite list_lookup_fmap.
    rewrite list_lookup_middle by done.
    unfold setChainIndex. cbn [chainIndex trace].
    replace (Z.of_nat (S (length pre)) - 1 - 1) with (Z.of_nat (length pre) - 1) by lia.
    cbn [fmap option_fmap option_map recorder intercept runIntercept].
    unfold emit at 1. cbn [chainIndex trace].
    rewrite (IH (x :: post)).
    cbn [runIntercept]. unfold emit; simpl. f_equal. f_equal.
    unfold befores, afters.
    rewrite rev_app_distr, !map_app. simpl.
    rewrite <- !app_assoc. simpl. reflexivity.
Qed.

(** What [executePipeline] does with recording interceptors: the trace
    enters them in reverse registration order and leaves them in
    registration order, for any split into global and route
    interceptors. *)
Lemma executePipeline_recorders globals routes v st :
  executePipeline capturedStack (recordingApp globals)
    (recordingHandler routes v) st
  = (Returned (resultToResponse v (recordingHandler routes v)),
     mkState (-1)
       (trace st ++ befores (rev (globals ++ routes))
          ++ [HandlerInvoked] ++ afters (globals ++ routes))).
Proof.
  unfold executePipeline. cbn [recordingApp globalGuards recordingHandler
    h_guards app runGuards globalInterceptors h_interceptors].
  rewrite <- map_app, length_map.
  pose proof (buildChain_recorders v (recordingHandler routes v)
                (globals ++ routes) eq_refl [] (trace st)) as H.
  rewrite app_nil_r in H.
  unfold setChainIndex. unfold recordingHandler in *. rewrite H.
  reflexivity.
Qed.

(** A denied request: the guards up to the denying one were called, and
    nothing after them. *)
Lemma executePipeline_denied app handler pre g post st :
  globalGuards app ++ h_guards handler = pre ++ g :: post ->
  Forall allows pre ->
  denies g ->
  executePipeline capturedStack app handler st
  = (Thrown forbidden, addTrace (guardCalls (pre ++ [g])) st).
Proof.
  intros Hsplit Hpre Hg. unfold executePipeline. rewrite Hsplit.
  by rewrite runGuards_denied.
Qed.

Lemma forbidden_response dev :
  r_status (errorToResponse capturedStack forbidden dev) = 403
  /\ bodyField "statusCode" (errorToResponse capturedStack forbidden dev)
     = Some (JNum 403)
  /\ bodyField "message" (errorToResponse capturedStack forbidden dev)
     = Some (JStr "Forbidden").
Proof.
  unfold errorToResponse, forbidden. cbn [toHttpException].
  unfold newHttpException. cbn [ex_stack ex_status ex_response].
  destruct dev; [destruct (stackTruthy capturedStack)|]; by repeat split.
Qed.

(** Through [handleRequest]: a matched route whose guards deny is answered
    by [handleException], with status 403 when no filter steps in. *)
Lemma handleRequest_denied regexTest app opts router request env m
    pre g post st :
  cors opts = None ->
  RadixRouter.matchRoute regexTest router (req_method request)
    (stripPrefix opts (req_pathname request)) = Some m ->
  globalGuards app ++ h_guards (RadixRouter.handler m) = pre ++ g :: post ->
  Forall allows pre ->
  denies g ->
  globalFilters app = [] ->
  exists response,
    handleRequest capturedStack regexTest app opts router request env st
    = (Returned response, addTrace (guardCalls (pre ++ [g])) st)
    /\ r_status response = 403.
Proof.
  intros Hcors Hmatch Hsplit Hpre Hg Hfilters.
  unfold handleRequest. rewrite Hcors, Hmatch. cbn [andb bool_decide].
  rewrite bool_decide_eq_false_2 by (by intros [? ?]). cbn [andb].
  rewrite (executePipeline_denied _ _ _ _ _ _ Hsplit Hpre Hg).
  eexists. split; [reflexivity|].
  unfold handleException. rewrite Hfilters. cbn [tryFilters].
  apply forbidden_response.
Qed.

(** C8. Guards run in order, global guards first and then those of the
    route; when one of them resolves to [false], [canActivate] has been
    called on that guard and on those before it and on no later one,
    neither interceptors nor handler run, and the request fails with the
    [HttpException] of status 403, which the error response carries. *)
Theorem guard_short_circuit app handler pre g post st :
  globalGuards app ++ h_guards handler = pre ++ g :: post ->
  Forall allows pre ->
  denies g ->
  executePipeline capturedStack app handler st
  = (Thrown forbidden, addTrace (guardCalls (pre ++ [g])) st)
  /\ ex_status (toHttpException capturedStack forbidden) = 403
  /\ forall dev,
       r_status (errorToResponse capturedStack forbidden dev) = 403
       /\ bodyField "statusCode" (errorToResponse capturedStack forbidden dev)
          = Some (JNum 403).
Proof.
  intros Hsplit Hpre Hg. split; [|split; [reflexivity|]].
  - by apply executePipeline_denied with (post := post).
  - intros dev. destruct (forbidden_response dev) as (? & ? & _). by split.
Qed.

(** What [errorToResponse] asks [new Response] for when no global
    filter answers, with [stackAdded] the stack that the development
    branch writes. *)
Lemma handleException_body app error env :
  tryFilters (globalFilters app) error = None ->
  let e := toHttpException capturedStack error in
  let r := handleException capturedStack app error env in
  let stackAdded := if isDev env then stackTruthy (ex_stack e) else None in
  r_status r = ex_status e
  /\ r_headers r !! "Content-Type" = Some "application/json"
  /\ exists body,
       r_body r = BodyJson (JObj body)
       /\ (forall st, stackAdded = Some st -> body !! "stack" = Some (JStr st))
       /\ match ex_response e with
          | RespString s =>
              body !! "statusCode" = Some (JNum (ex_status e))
              /\ body !! "message" = Some (JStr s)
              /\ (stackAdded = None -> body !! "stack" = None)
          | RespObject o =>
              (forall k v, o !! k = Some v ->
                 k <> "stack" \/ stackAdded = None -> body !! k = Some v)
              /\ (o !! "statusCode" = None ->
                  body !! "statusCode" = Some (JNum (ex_status e)))
              /\ (o !! "message" = None -> body !! "message" = None)
              /\ (stackAdded = None -> o !! "stack" = None ->
                  body !! "stack" = None)
          end.
Proof.
  intros Hfilters e r stackAdded.
  subst r. unfold handleException. rewrite Hfilters.
  unfold errorToResponse. fold e. fold stackAdded.
  assert (Hto : r_status (toResponse e) = ex_status e
                /\ r_body (toResponse e) = r_body (baseToResponse e)
                /\ r_headers (toResponse e) !! "Content-Type"
                   = Some "application/json").
  { unfold toResponse. destruct (ex_retryAfter e) as [[n|]|]; try done.
    destruct (n =? 0); done. }
  destruct Hto as (Hst & Hbody & Hct).
  unfold baseToResponse in Hbody. cbn [r_body] in Hbody.
  destruct (ex_response e) as [s|o] eqn:Hresp;
    destruct stackAdded as [stk|] eqn:Hstk;
    (split; [done|]); (split; [done|]); cbn [r_body]; rewrite ?Hbody;
    (eexists; split; [reflexivity|]); unfold spread.
  - split; [intros st [= <-]; by rewrite lookup_insert_eq|]. done.
  - done.
  - split; [intros st [= <-]; by rewrite lookup_insert_eq|].
    repeat split.
    + intros k v Hk [Hne|?]; [|done].
      rewrite lookup_insert_ne by done. by apply lookup_union_Some_l.
    + intros Hnone. rewrite lookup_insert_ne by done.
      rewrite lookup_union_r by done. by rewrite lookup_singleton_eq.
    + intros Hnone. rewrite lookup_insert_ne by done.
      by rewrite lookup_union_r.
    + done.
  - split; [done|]. repeat split.
    + intros k v Hk _. by apply lookup_union_Some_l.
    + intros Hnone. rewrite lookup_union_r by done.
      by rewrite lookup_singleton_eq.
    + intros Hnone. by rewrite lookup_union_r.
    + intros _ Hnone. by rewrite lookup_union_r.
Qed.

(** [isDev]: the environment object is there and its [ENVIRONMENT] is
    the string ['development']. *)
Definition development (env : option JsObject) : Prop :=
  exists o, env = Some o /\ o !! "ENVIRONMENT" = Some (JStr "development").

Lemma isDev_development env : isDev env = true <-> development env.
Proof.
  unfold isDev, development. split.
  - destruct env as [o|]; [|done].
    destruct (o !! "ENVIRONMENT") as [[| | | |s| |]|] eqn:Ho; try done.
    intros ->%String.eqb_eq. eauto.
  - intros (o & -> & ->). reflexivity.
Qed.

(** C9, as the code has it.  An error that is not an [HttpException]
    becomes an [InternalServerErrorException]: status 500, with the
    message of the error (or [String(error)]) as its response.  When no
    global filter answers and [new Response] accepts the status of the
    exception with a body, the response has that status, the JSON
    content type and a JSON object as its body.  For a string response
    the body has [statusCode] (the numeric status) and [message] (that
    string); for an object response the body is the object's own
    properties over [statusCode], so [message] is there exactly when the
    object has one.  The handler writes [stack] only when
    [env.ENVIRONMENT === 'development'] and the exception has a stack. *)
Theorem error_response_shape app error env :
  tryFilters (globalFilters app) error = None ->
  let e := toHttpException capturedStack error in
  statusTakesBody (ex_status e) = true ->
  let r := handleException capturedStack app error env in
  let noStackAdded := ~ development env \/ stackTruthy (ex_stack e) = None in
  match error with
  | ErrHttp e' => e = e'
  | ErrError message _ =>
      ex_status e = 500 /\ ex_response e = RespString message
  | ErrOther text =>
      ex_status e = 500 /\ ex_response e = RespString text
  end
  /\ r_status r = ex_status e
  /\ r_headers r !! "Content-Type" = Some "application/json"
  /\ exists body,
       r_body r = BodyJson (JObj body)
       /\ (forall st, development env -> stackTruthy (ex_stack e) = Some st ->
             body !! "stack" = Some (JStr st))
       /\ match ex_response e with
          | RespString s =>
              body !! "statusCode" = Some (JNum (ex_status e))
              /\ body !! "message" = Some (JStr s)
              /\ (noStackAdded -> body !! "stack" = None)
          | RespObject o =>
              (forall k v, o !! k = Some v ->
                 k <> "stack" \/ noStackAdded -> body !! k = Some v)
              /\ (o !! "statusCode" = None ->
                  body !! "statusCode" = Some (JNum (ex_status e)))
              /\ (o !! "message" = None -> body !! "message" = None)
              /\ (noStackAdded -> o !! "stack" = None ->
                  body !! "stack" = None)
          end.
Proof.
  intros Hfilters e _ r noStackAdded.
  split; [by destruct error|].
  destruct (handleException_body app error env Hfilters)
    as (Hst & Hct & body & Hbody & Hstack & Hshape).
  fold e in Hst, Hstack, Hshape. fold r in Hst, Hct, Hbody.
  split; [exact Hst|]. split; [exact Hct|].
  exists body. split; [exact Hbody|].
  assert (Hnone : noStackAdded ->
                  (if isDev env then stackTruthy (ex_stack e) else None) = None).
  { intros [Hdev|Hno].
    - destruct (isDev env) eqn:Hd; [|done].
      by apply isDev_development in Hd.
    - by destruct (isDev env). }
  split.
  - intros st Hdev Hs. apply Hstack.
    apply isDev_development in Hdev. by rewrite Hdev.
  - destruct (ex_response e) as [s|o].
    + destruct Hshape as (H1 & H2 & H3). eauto.
    + destruct Hshape as (H1 & H2 & H3 & H4).
      split; [|split; [done|split; [done|]]].
      * intros k v Hk [Hne|Hno]; apply (H1 k v Hk); [by left | right; eauto].
      * eauto.
Qed.

End Facts.

(** C1, on the code: for interceptors [A, B] registered in that order
    (both global, [A] global and [B] on the route, or both on the route)
    the chain starts at the end of the array, so [B] is the outermost
    wrapper and the observed order is B-before, A-before, handler,
    A-after, B-after, not the order A-before, B-before, handler, B-after,
    A-after. *)
Theorem interceptors_AB_observed_order :
  let observed := [Before "B"; Before "A"; HandlerInvoked; After "A"; After "B"] in
  let expected := [Before "A"; Before "B"; HandlerInvoked; After "B"; After "A"] in
  let run globals routes :=
    trace (snd (executePipeline None (recordingApp globals)
                  (recordingHandler routes (VString "ok")) (mkState 0 []))) in
  run ["A"; "B"] [] = observed
  /\ run ["A"] ["B"] = observed
  /\ run [] ["A"; "B"] = observed
  /\ observed <> expected.
Proof.
  cbv beta zeta. rewrite !executePipeline_recorders. simpl.
  repeat split; try reflexivity. discriminate.
Qed.

Lemma guard_short_circuit_witness :
  executePipeline None
    (mkApplication [allowGuard "global"] [] [])
    (mkRouteHandler "m" (Some (MethodReturns VNull)) None ∅
       [denyGuard "first"; allowGuard "second"] [recorder "A"])
    (mkState 0 [])
  = (Thrown (forbidden None),
     mkState 0 [CanActivate "global"; CanActivate "first"]).
Proof.
  apply (guard_short_circuit None
           (mkApplication [allowGuard "global"] [] [])
           (mkRouteHandler "m" (Some (MethodReturns VNull)) None ∅
              [denyGuard "first"; allowGuard "second"] [recorder "A"])
           [allowGuard "global"] (denyGuard "first") [allowGuard "second"]
           (mkState 0 [])).
  - reflexivity.
  - repeat constructor.
  - reflexivity.
Defined.

(** C9 as stated fails: an [HttpException] whose response is the object
    [{ error: 'bad' }] is answered with [{ statusCode: 400, error: 'bad' }],
    a body without [message]. *)
Lemma error_body_without_message :
  ~ (forall (app : Application) (error : JsError) (env : option JsObject),
       let r := handleException None app error env in
       (exists n, bodyField "statusCode" r = Some (JNum n))
       /\ is_Some (bodyField "message" r)
       /\ (is_Some (bodyField "stack" r) -> isDev env = true)).
Proof.
  intros H.
  destruct (H noEnhancers badRequestWithObject None) as (_ & [v Hv] & _).
  vm_compute in Hv. discriminate.
Qed.

Lemma error_response_shape_witness :
  let r := handleException None noEnhancers badRequestWithObject None in
  r_status r = 400
  /\ exists body,
       r_body r = BodyJson (JObj body)
       /\ body !! "error" = Some (JStr "bad")
       /\ body !! "statusCode" = Some (JNum 400)
       /\ body !! "message" = None
       /\ body !! "stack" = None.
Proof.
  destruct (error_response_shape None noEnhancers badRequestWithObject None
              eq_refl eq_refl) as (_ & Hst & _ & body & Hb & _ & Hk & Hsc & Hm & Hs).
  split; [exact Hst|]. exists body. split; [exact Hb|].
  split; [apply Hk; [reflexivity | by left]|].
  split; [apply Hsc; reflexivity|].
  split; [apply Hm; reflexivity | apply Hs; [left; by intros (o & ? & _) | reflexivity]].
Defined.

End PipelineFacts.

(** ** The container *)

Module DIFacts.
Import DI.
Local Open Scope list_scope.
Local Open Scope di_scope.

(** *** What a resolution on the container [cid] leaves as it was *)

Definition recRel (r r' : ProviderRecord) : Prop :=
  token r = token r' /\ scope r = scope r' /\ factory r = factory r'.

Definition contRel (c c' : Container) : Prop :=
  parent c = parent c'
  /\ resolutionStack c = resolutionStack c'
  /\ forall tok, option_Forall2 recRel (providers c !! tok) (providers c' !! tok).

Definition contsRel (cs cs' : list Container) : Prop :=
  length cs = length cs'
  /\ forall i c c', cs !! i = Some c -> cs' !! i = Some c' -> contRel c c'.

(** Registrations, parents and resolution stacks are the same, only the
    scoped cache of [cid] may differ, and the heap and the log of factory
    calls have only grown. *)
Definition stepRel (cid : nat) (w w' : World) : Prop :=
  contsRel (containers w) (containers w')
  /\ (forall c, c <> cid -> scopedOf w' c = scopedOf w c)
  /\ heap w `prefix_of` heap w'
  /\ factoryCalls w `prefix_of` factoryCalls w'.

(** A computation that keeps [stepRel] *)
Definition preserves {A} (cid : nat) (m : M A) : Prop :=
  forall w r w', m w = (r, w') -> stepRel cid w w'.

(** The record that [owner] holds under [tok] *)
Definition recordAt (w : World) (owner : nat) (tok : Token)
  : option ProviderRecord :=
  match containers w !! owner with
  | Some c => providers c !! tok
  | None => None
  end.


(** In [selfTransientWorld] the transient [A] is found with an empty
    resolution stack, also after any number of factory calls. *)
Definition selfTransientState (w : World) : Prop :=
  stackOf w 0 = []
  /\ getProviderRecord w 0 (ClassToken "A")
     = Some (0, mkRecord (ClassToken "A") TRANSIENT
                  (FClass (mkClass "A" [(ClassToken "A", false)] (Some TRANSIENT)))
                  VUndef false).

(** *** Inversion of the monadic combinators *)

Lemma bind_Ok {A B} (m : M A) (k : A -> M B) w b w' :
  bind m k w = (Ok b, w') ->
  exists a w1, m w = (Ok a, w1) /\ k a w1 = (Ok b, w').
Proof.
  unfold bind. destruct (m w) as [[a|e|] w1]; intros H; try discriminate.
  eauto.
Qed.

Lemma bind_inv {A B} (m : M A) (k : A -> M B) w r w' :
  bind m k w = (r, w') ->
  (exists a w1, m w = (Ok a, w1) /\ k a w1 = (r, w'))
  \/ (exists e, m w = (Err e, w') /\ r = Err e)
  \/ (m w = (Diverge, w') /\ r = Diverge).
Proof.
  unfold bind. destruct (m w) as [[a|e|] w1]; intros H.
  - left. eauto.
  - right. left. inversion H; subst. eauto.
  - right. right. inversion H; subst. eauto.
Qed.

(** *** The relation is a preorder, and the primitives keep it *)

Lemma recRel_refl r : recRel r r.
Proof. by repeat split. Qed.

Lemma recRel_trans r1 r2 r3 : recRel r1 r2 -> recRel r2 r3 -> recRel r1 r3.
Proof. intros (?&?&?) (?&?&?). repeat split; congruence. Qed.

Lemma contRel_refl c : contRel c c.
Proof.
  repeat split. intros tok. destruct (providers c !! tok); constructor.
  apply recRel_refl.
Qed.

Lemma contRel_trans c1 c2 c3 : contRel c1 c2 -> contRel c2 c3 -> contRel c1 c3.
Proof.
  intros (?&?&H1) (?&?&H2). repeat split; try congruence.
  intros tok. specialize (H1 tok). specialize (H2 tok).
  destruct H1; inversion H2; subst; constructor.
  eauto using recRel_trans.
Qed.

Lemma contsRel_refl cs : contsRel cs cs.
Proof.
  split; [done|]. intros i c c' H1 H2.
  rewrite H1 in H2. inversion H2; subst. apply contRel_refl.
Qed.

Lemma contsRel_trans cs1 cs2 cs3 :
  contsRel cs1 cs2 -> contsRel cs2 cs3 -> contsRel cs1 cs3.
Proof.
  intros [L1 H1] [L2 H2]. split; [congruence|].
  intros i c c' Hc Hc'.
  destruct (lookup_lt_is_Some_2 cs2 i) as [c2 Hc2].
  { rewrite <- L1. eapply lookup_lt_Some; eauto. }
  eapply contRel_trans; eauto.
Qed.

Lemma stepRel_intro cid w w' :
  contsRel (containers w) (containers w') ->
  (forall c, c <> cid -> scopedOf w' c = scopedOf w c) ->
  heap w `prefix_of` heap w' ->
  factoryCalls w `prefix_of` factoryCalls w' ->
  stepRel cid w w'.
Proof. intros. unfold stepRel. tauto. Qed.

Lemma stepRel_refl cid w : stepRel cid w w.
Proof. apply stepRel_intro; try done. apply contsRel_refl. Qed.

Lemma stepRel_trans cid w1 w2 w3 :
  stepRel cid w1 w2 -> stepRel cid w2 w3 -> stepRel cid w1 w3.
Proof.
  intros (C1&S1&H1&F1) (C2&S2&H2&F2). apply stepRel_intro.
  - eapply contsRel_trans; eauto.
  - intros c Hc. rewrite S2, S1; done.
  - by etrans.
  - by etrans.
Qed.

Lemma preserves_ret {A} cid (a : A) : preserves cid (ret a).
Proof. intros w r w' [= <- <-]. apply stepRel_refl. Qed.

Lemma preserves_throw {A} cid e : preserves cid (@throw A e).
Proof. intros w r w' [= <- <-]. apply stepRel_refl. Qed.

Lemma preserves_diverge {A} cid : preserves cid (@diverge A).
Proof. intros w r w' [= <- <-]. apply stepRel_refl. Qed.

Lemma preserves_gets {A} cid (f : World -> A) : preserves cid (gets f).
Proof. intros w r w' [= <- <-]. apply stepRel_refl. Qed.

Lemma preserves_bind {A B} cid (m : M A) (k : A -> M B) :
  preserves cid m -> (forall a, preserves cid (k a)) ->
  preserves cid (bind m k).
Proof.
  intros Hm Hk w r w' H.
  destruct (bind_inv _ _ _ _ _ H) as [(a&w1&H1&H2)|[(e&H1&_)|[H1 _]]].
  - eapply stepRel_trans; [eapply Hm | eapply Hk]; eauto.
  - eapply Hm; eauto.
  - eapply Hm; eauto.
Qed.

Lemma preserves_mapM {A B} cid (f : A -> M B) xs :
  (forall x, preserves cid (f x)) -> preserves cid (mapM f xs).
Proof.
  intros Hf. induction xs as [|x xs IH]; simpl.
  - apply preserves_ret.
  - apply preserves_bind; [apply Hf|]. intros y.
    apply preserves_bind; [apply IH|]. intros ys. apply preserves_ret.
Qed.

Lemma preserves_modify cid (f : World -> World) :
  (forall w, stepRel cid w (f w)) -> preserves cid (modify f).
Proof. intros Hf w r w' [= <- <-]. apply Hf. Qed.

Lemma stepRel_logFactoryCall cid tok w : stepRel cid w (logFactoryCall tok w).
Proof.
  apply stepRel_intro; try done; simpl.
  - apply contsRel_refl.
  - by apply prefix_app_r.
Qed.

Lemma preserves_construct cid cname args : preserves cid (construct cname args).
Proof.
  intros w r w' [= <- <-]. apply stepRel_intro; try done; simpl.
  - apply contsRel_refl.
  - by apply prefix_app_r.
Qed.

Lemma preserves_callUserFn cid fn deps : preserves cid (callUserFn fn deps).
Proof.
  induction fn as [cls|v|reason|body IH]; simpl.
  - apply preserves_construct.
  - apply preserves_ret.
  - apply preserves_throw.
  - intros w r w' H. specialize (IH w).
    destruct (callUserFn body deps w) as [[v|e|] w1];
      inversion H; subst; eapply IH; eauto.
Qed.

(** Updating one container *)
Lemma contsRel_alter cs i (f : Container -> Container) :
  (forall c, cs !! i = Some c -> contRel c (f c)) ->
  contsRel cs (alter f i cs).
Proof.
  intros Hf. split; [by rewrite length_alter|].
  intros j c c' Hc Hc'.
  destruct (decide (j = i)) as [->|Hne].
  - rewrite list_lookup_alter_eq, Hc in Hc'. simpl in Hc'.
    inversion Hc'; subst. by apply Hf.
  - rewrite list_lookup_alter_ne in Hc' by done.
    rewrite Hc in Hc'. inversion Hc'; subst. apply contRel_refl.
Qed.

Lemma scopedOf_updContainer_ne cid c f w :
  c <> cid -> scopedOf (updContainer cid f w) c = scopedOf w c.
Proof.
  intros Hne. unfold scopedOf, updContainer; simpl.
  by rewrite list_lookup_alter_ne.
Qed.

Lemma scopedOf_updContainer_same cid f w :
  (forall c, scopedInstances (f c) = scopedInstances c) ->
  forall c, scopedOf (updContainer cid f w) c = scopedOf w c.
Proof.
  intros Hf c. unfold scopedOf, updContainer; simpl.
  destruct (decide (c = cid)) as [->|Hne].
  - rewrite list_lookup_alter_eq. destruct (containers w !! cid); simpl; [apply Hf|done].
  - by rewrite list_lookup_alter_ne.
Qed.

Lemma stepRel_cacheInstance cid owner tok v w :
  stepRel cid w (cacheInstance owner tok v w).
Proof.
  apply stepRel_intro; try done.
  - apply (contsRel_alter (containers w) owner). intros c _.
    split; [done|]. split; [done|]. simpl. intros t.
    destruct (decide (t = tok)) as [->|Hne].
    + rewrite lookup_alter_eq. destruct (providers c !! tok); constructor.
      by repeat split.
    + rewrite lookup_alter_ne by done.
      destruct (providers c !! t); constructor. apply recRel_refl.
  - intros c _. by apply scopedOf_updContainer_same.
Qed.

Lemma stepRel_cacheScoped cid tok v w :
  stepRel cid w (cacheScoped cid tok v w).
Proof.
  apply stepRel_intro; try done.
  - apply (contsRel_alter (containers w) cid). intros c _.
    split; [done|]. split; [done|]. simpl. intros t.
    destruct (providers c !! t); constructor. apply recRel_refl.
  - intros c Hc. by apply scopedOf_updContainer_ne.
Qed.

(** [push], then [try { m } finally { pop }] *)
Lemma preserves_guarded {A} cid tok (m : M A) :
  preserves cid m ->
  preserves cid (modify (pushStack cid tok) ;;; tryFinally m (popStack cid)).
Proof.
  intros Hm w r w' H. unfold bind, modify, tryFinally in H.
  destruct (m (pushStack cid tok w)) as [r1 wf] eqn:E.
  inversion H; subst; clear H.
  destruct (Hm _ _ _ E) as ([Hlen Hrel] & Hsc & Hheap & Hcalls).
  apply stepRel_intro.
  - split.
    + unfold popStack, pushStack, updContainer in *; simpl in *.
      rewrite length_alter in *. done.
    + intros i c c' Hc Hc'.
      unfold popStack, pushStack, updContainer in *; simpl in *.
      destruct (decide (i = cid)) as [->|Hne].
      * rewrite list_lookup_alter_eq in Hc'.
        destruct (containers wf !! cid) as [cf|] eqn:Hcf; [|done].
        simpl in Hc'. inversion Hc'; subst; clear Hc'.
        destruct (Hrel cid
                    (mkContainer (providers c) (parent c)
                       (resolutionStack c ++ [tok]) (scopedInstances c)) cf)
          as (Hp & Hs & Hr); [|done|].
        { by rewrite list_lookup_alter_eq, Hc. }
        simpl in *. split; [done|]. split; [|done].
        simpl. rewrite <- Hs. by rewrite removelast_last.
      * rewrite list_lookup_alter_ne in Hc' by done.
        apply (Hrel i); [|done].
        by rewrite list_lookup_alter_ne.
  - intros c Hc. unfold popStack.
    rewrite scopedOf_updContainer_same by done.
    rewrite Hsc by done. unfold pushStack.
    by rewrite scopedOf_updContainer_same.
  - done.
  - done.
Qed.

Section BodyPreserves.
Variable resolveRec : nat -> Token -> bool -> M Value.
Variable cid : nat.
Hypothesis Hrec : forall tok opt, preserves cid (resolveRec cid tok opt).

Lemma preserves_resolveWith tok opt :
  preserves cid (resolveWith resolveRec cid tok opt).
Proof.
  apply preserves_bind; [apply Hrec|]. intros v.
  destruct (isPromise v); [apply preserves_throw | apply preserves_ret].
Qed.

Lemma preserves_instantiateClass cls :
  preserves cid (instantiateClass resolveRec cls cid).
Proof.
  apply preserves_bind; [apply preserves_mapM; intros; apply Hrec|].
  intros args. destruct (existsb isPromise args);
    [apply preserves_ret | apply preserves_construct].
Qed.

Lemma preserves_runFactory f : preserves cid (runFactory resolveRec f cid).
Proof.
  destruct f as [cls|v|inject fn|tok]; simpl.
  - apply preserves_instantiateClass.
  - apply preserves_ret.
  - apply preserves_bind.
    + apply preserves_mapM. intros. apply preserves_resolveWith.
    + intros. apply preserves_callUserFn.
  - apply preserves_resolveWith.
Qed.

Lemma preserves_resolveSingleton tok owner record :
  preserves cid (resolveSingleton resolveRec cid tok owner record).
Proof.
  unfold resolveSingleton.
  destruct (isResolved record && negb (isUndefined (instance record)));
    [apply preserves_ret|].
  apply preserves_guarded.
  apply preserves_bind;
    [apply preserves_modify; intros; apply stepRel_logFactoryCall|].
  intros _. apply preserves_bind; [apply preserves_runFactory|].
  intros inst.
  assert (Hcache : preserves cid
            (modify (cacheInstance owner tok inst) ;;; ret inst)).
  { apply preserves_bind; [|intros; apply preserves_ret].
    apply preserves_modify. intros. apply stepRel_cacheInstance. }
  destruct inst; try exact Hcache. apply preserves_ret.
Qed.

Lemma preserves_resolveRequestScoped tok record :
  preserves cid (resolveRequestScoped resolveRec cid tok record).
Proof.
  unfold resolveRequestScoped.
  apply preserves_bind; [apply preserves_gets|]. intros [v|];
    [apply preserves_ret|].
  apply preserves_guarded.
  apply preserves_bind;
    [apply preserves_modify; intros; apply stepRel_logFactoryCall|].
  intros _. apply preserves_bind; [apply preserves_runFactory|].
  intros inst.
  assert (Hcache : preserves cid
            (modify (cacheScoped cid tok inst) ;;; ret inst)).
  { apply preserves_bind; [|intros; apply preserves_ret].
    apply preserves_modify. intros. apply stepRel_cacheScoped. }
  destruct inst; try exact Hcache. apply preserves_ret.
Qed.

Lemma preserves_resolveTransient tok record :
  preserves cid (resolveTransient resolveRec cid tok record).
Proof.
  unfold resolveTransient.
  apply preserves_bind;
    [apply preserves_modify; intros; apply stepRel_logFactoryCall|].
  intros _. apply preserves_runFactory.
Qed.

Lemma preserves_resolveInternalBody tok opt :
  preserves cid (resolveInternalBody resolveRec cid tok opt).
Proof.
  unfold resolveInternalBody.
  apply preserves_bind; [apply preserves_gets|]. intros stack.
  destruct (bool_decide (tok ∈ stack)); [apply preserves_throw|].
  apply preserves_bind; [apply preserves_gets|]. intros [[owner record]|].
  - destruct (scope record).
    + apply preserves_resolveSingleton.
    + apply preserves_resolveRequestScoped.
    + apply preserves_resolveTransient.
  - destruct opt; [apply preserves_ret | apply preserves_throw].
Qed.

End BodyPreserves.

(** A resolution on [cid] changes no registration, parent or resolution
    stack, touches the scoped cache of [cid] only, and only adds to the
    heap and to the log. *)
Lemma resolveInternal_preserves fuel :
  forall cid tok opt, preserves cid (resolveInternal fuel cid tok opt).
Proof.
  induction fuel as [|fuel IH]; intros cid tok opt; simpl.
  - apply preserves_diverge.
  - apply preserves_resolveInternalBody. intros. apply IH.
Qed.

Lemma resolve_preserves fuel cid tok opt :
  preserves cid (resolve fuel cid tok opt).
Proof.
  apply preserves_resolveWith. intros. apply resolveInternal_preserves.
Qed.

(** *** Looking records up *)

Lemma getProviderRecordFrom_found fuel cs cid tok owner r :
  getProviderRecordFrom fuel cs cid tok = Some (owner, r) ->
  exists c, cs !! owner = Some c /\ providers c !! tok = Some r.
Proof.
  revert cid. induction fuel as [|fuel IH]; intros cid; simpl; [done|].
  destruct (cs !! cid) as [c|] eqn:Hc; [|done].
  destruct (providers c !! tok) as [r0|] eqn:Hr.
  - intros [= <- <-]. eauto.
  - destruct (parent c); [apply IH | done].
Qed.

Lemma getProviderRecord_recordAt w cid tok owner r :
  getProviderRecord w cid tok = Some (owner, r) -> recordAt w owner tok = Some r.
Proof.
  intros H. destruct (getProviderRecordFrom_found _ _ _ _ _ _ H) as (c & Hc & Hr).
  unfold recordAt. by rewrite Hc.
Qed.

Lemma getProviderRecordFrom_rel fuel cs cs' tok :
  contsRel cs cs' ->
  forall cid,
    match getProviderRecordFrom fuel cs cid tok with
    | Some (owner, r) =>
        exists r', getProviderRecordFrom fuel cs' cid tok = Some (owner, r')
                   /\ recRel r r'
    | None => getProviderRecordFrom fuel cs' cid tok = None
    end.
Proof.
  intros [Hlen Hrel]. induction fuel as [|fuel IH]; intros cid; simpl; [done|].
  destruct (cs !! cid) as [c|] eqn:Hc.
  - destruct (lookup_lt_is_Some_2 cs' cid) as [c' Hc'].
    { rewrite <- Hlen. eapply lookup_lt_Some; eauto. }
    rewrite Hc'. destruct (Hrel _ _ _ Hc Hc') as (Hp & _ & Hr).
    specialize (Hr tok). destruct Hr as [r r' Hrr|].
    + eauto.
    + rewrite <- Hp. destruct (parent c); [apply IH | done].
  - apply lookup_ge_None in Hc.
    rewrite (lookup_ge_None_2 cs' cid) by lia. done.
Qed.

Lemma getProviderRecord_stepRel c w w' cid tok owner r :
  stepRel c w w' ->
  getProviderRecord w cid tok = Some (owner, r) ->
  exists r', getProviderRecord w' cid tok = Some (owner, r') /\ recRel r r'.
Proof.
  intros (Hc & _) H. unfold getProviderRecord in *.
  pose proof (getProviderRecordFrom_rel (S cid) _ _ tok Hc cid) as Hrel.
  by rewrite H in Hrel.
Qed.

Lemma stackOf_stepRel c w w' cid :
  stepRel c w w' -> stackOf w' cid = stackOf w cid.
Proof.
  intros ([Hlen Hrel] & _). unfold stackOf.
  destruct (containers w !! cid) as [x|] eqn:Hx.
  - destruct (lookup_lt_is_Some_2 (containers w') cid) as [y Hy].
    { rewrite <- Hlen. eapply lookup_lt_Some; eauto. }
    rewrite Hy. by destruct (Hrel _ _ _ Hx Hy) as (_ & -> & _).
  - apply lookup_ge_None in Hx.
    rewrite (lookup_ge_None_2 (containers w') cid) by lia. done.
Qed.

Lemma recordAt_popStack cid w owner tok :
  recordAt (popStack cid w) owner tok = recordAt w owner tok.
Proof.
  unfold recordAt, popStack, updContainer; simpl.
  destruct (decide (owner = cid)) as [->|Hne].
  - rewrite list_lookup_alter_eq. by destruct (containers w !! cid).
  - by rewrite list_lookup_alter_ne.
Qed.

Lemma recordAt_cacheInstance owner tok v w :
  recordAt (cacheInstance owner tok v w) owner tok
  = (fun r => mkRecord (token r) (scope r) (factory r) v true)
      <$> recordAt w owner tok.
Proof.
  unfold recordAt, cacheInstance, updContainer; simpl.
  rewrite list_lookup_alter_eq.
  destruct (containers w !! owner); simpl; [|done].
  by rewrite lookup_alter_eq.
Qed.


Lemma scopedOf_pushStack cid tok w c :
  scopedOf (pushStack cid tok w) c = scopedOf w c.
Proof. unfold pushStack. by apply scopedOf_updContainer_same. Qed.


(** *** Inversion of a successful resolution *)

Lemma resolve_Ok_inv fuel cid tok opt w v w1 :
  resolve fuel cid tok opt w = (Ok v, w1) ->
  resolveInternal fuel cid tok opt w = (Ok v, w1) /\ isPromise v = false.
Proof.
  unfold resolve, resolveWith. intros H.
  apply bind_Ok in H as (a & w' & H1 & H2).
  destruct (isPromise a) eqn:Hp; [discriminate|].
  inversion H2; subst. done.
Qed.

Lemma resolve_of_internal fuel cid tok opt w v w1 :
  resolveInternal fuel cid tok opt w = (Ok v, w1) -> isPromise v = false ->
  resolve fuel cid tok opt w = (Ok v, w1).
Proof.
  intros H Hp. unfold resolve, resolveWith, bind. rewrite H, Hp. done.
Qed.

Lemma resolveInternalBody_found rec cid tok opt w owner r :
  tok ∉ stackOf w cid ->
  getProviderRecord w cid tok = Some (owner, r) ->
  resolveInternalBody rec cid tok opt w
  = match scope r with
    | SINGLETON => resolveSingleton rec cid tok owner r
    | REQUEST => resolveRequestScoped rec cid tok r
    | TRANSIENT => resolveTransient rec cid tok r
    end w.
Proof.
  intros Hst Hfound. unfold resolveInternalBody, bind, gets.
  rewrite bool_decide_eq_false_2 by done. by rewrite Hfound.
Qed.

Lemma resolveInternal_Ok_found fuel cid tok opt w v w1 owner r :
  resolveInternal fuel cid tok opt w = (Ok v, w1) ->
  getProviderRecord w cid tok = Some (owner, r) ->
  exists fuel',
    fuel = S fuel'
    /\ (tok ∉ stackOf w cid)
    /\ match scope r with
       | SINGLETON => resolveSingleton (resolveInternal fuel') cid tok owner r
       | REQUEST => resolveRequestScoped (resolveInternal fuel') cid tok r
       | TRANSIENT => resolveTransient (resolveInternal fuel') cid tok r
       end w = (Ok v, w1).
Proof.
  intros H Hfound. destruct fuel as [|fuel']; [discriminate|].
  exists fuel'. split; [done|]. simpl in H.
  assert (Hst : tok ∉ stackOf w cid).
  { intros Hin. unfold resolveInternalBody, bind, gets in H.
    rewrite bool_decide_eq_true_2 in H by done. discriminate. }
  split; [done|]. by rewrite resolveInternalBody_found with (owner:=owner) (r:=r) in H.
Qed.

Lemma guarded_Ok_inv {A} cid tok (m : M A) w v w1 :
  (modify (pushStack cid tok) ;;; tryFinally m (popStack cid)) w = (Ok v, w1) ->
  exists wf, m (pushStack cid tok w) = (Ok v, wf) /\ w1 = popStack cid wf.
Proof.
  unfold bind, modify, tryFinally.
  destruct (m (pushStack cid tok w)) as [r wf]. intros [= -> <-]. eauto.
Qed.

(** The factory call inside [try]: a result that is not pending is
    cached by [cache] and returned. *)
Lemma factoryStep_Ok_inv rec f cid tok (wrap : Promise -> Promise)
    (cache : Value -> World -> World) w v wf :
  (modify (logFactoryCall tok) ;;;
   inst <- runFactory rec f cid ;;
   match inst with
   | VPromise p => ret (VPromise (wrap p))
   | _ => modify (cache inst) ;;; ret inst
   end) w = (Ok v, wf) ->
  isPromise v = false ->
  exists w3, runFactory rec f cid (logFactoryCall tok w) = (Ok v, w3)
             /\ wf = cache v w3.
Proof.
  intros H Hp. apply bind_Ok in H as ([] & w2 & H1 & H).
  inversion H1; subst; clear H1.
  apply bind_Ok in H as (inst & w3 & H2 & H).
  exists w3.
  destruct inst; unfold bind, modify, ret in H; inversion H; subst;
    try done.
Qed.

(** *** Constructing factories *)



(** *** Singleton scope *)

(** A singleton that has been resolved to an instance is answered from
    the record from then on: same instance, nothing else changes. *)
Lemma singleton_resolved_once fuel1 fuel2 w cid tok opt owner r v1 w1 :
  getProviderRecord w cid tok = Some (owner, r) ->
  scope r = SINGLETON ->
  resolve fuel1 cid tok opt w = (Ok v1, w1) ->
  v1 <> VUndef ->
  resolve (S fuel2) cid tok opt w1 = (Ok v1, w1).
Proof.
  intros Hfound Hscope Hres Hdef.
  pose proof (resolve_preserves _ _ _ _ _ _ _ Hres) as Hstep.
  apply resolve_Ok_inv in Hres as [Hint Hp].
  destruct (resolveInternal_Ok_found _ _ _ _ _ _ _ _ _ Hint Hfound)
    as (fuel' & -> & Hst & Hrun).
  rewrite Hscope in Hrun.
  destruct (getProviderRecord_stepRel _ _ _ _ _ _ _ Hstep Hfound)
    as (r' & Hfound' & (_ & Hsc' & _)).
  assert (Hcached : isResolved r' = true /\ instance r' = v1).
  { apply getProviderRecord_recordAt in Hfound'.
    unfold resolveSingleton in Hrun.
    destruct (isResolved r && negb (isUndefined (instance r))) eqn:Hc.
    - inversion Hrun; subst.
      apply getProviderRecord_recordAt in Hfound.
      rewrite Hfound in Hfound'. inversion Hfound'; subst.
      apply andb_true_iff in Hc as [-> _]. done.
    - apply guarded_Ok_inv in Hrun as (wf & Hbody & ->).
      apply factoryStep_Ok_inv in Hbody as (w3 & _ & ->); [|done].
      rewrite recordAt_popStack, recordAt_cacheInstance in Hfound'.
      destruct (recordAt w3 owner tok); inversion Hfound'; subst. done. }
  destruct Hcached as [Hres' Hinst'].
  apply resolve_of_internal; [|done]. simpl.
  rewrite resolveInternalBody_found with (owner := owner) (r := r').
  - rewrite <- Hsc', Hscope. unfold resolveSingleton.
    rewrite Hres', Hinst'. destruct v1; done.
  - by rewrite (stackOf_stepRel _ _ _ _ Hstep).
  - done.
Qed.

(** *** Transient scope *)



(** *** Request scope *)

Lemma getProviderRecord_container w cid tok x :
  getProviderRecord w cid tok = Some x -> is_Some (containers w !! cid).
Proof.
  unfold getProviderRecord. simpl.
  destruct (containers w !! cid); [eauto | done].
Qed.





(** *** Request scopes of one parent *)





(** *** A singleton whose factory returns [undefined] *)

Lemma singleton_undefined_not_cached fuel w cid tok opt owner r w1 :
  getProviderRecord w cid tok = Some (owner, r) ->
  scope r = SINGLETON ->
  resolve fuel cid tok opt w = (Ok VUndef, w1) ->
  (exists more, factoryCalls w1 = factoryCalls w ++ tok :: more)
  /\ exists r', getProviderRecord w1 cid tok = Some (owner, r')
                /\ scope r' = SINGLETON
                /\ instance r' = VUndef
                /\ isResolved r' && negb (isUndefined (instance r')) = false.
Proof.
  intros Hfound Hscope Hres.
  pose proof (resolve_preserves _ _ _ _ _ _ _ Hres) as Hstep.
  apply resolve_Ok_inv in Hres as [Hint Hp].
  destruct (resolveInternal_Ok_found _ _ _ _ _ _ _ _ _ Hint Hfound)
    as (fuel' & -> & Hst & Hrun).
  rewrite Hscope in Hrun.
  destruct (getProviderRecord_stepRel _ _ _ _ _ _ _ Hstep Hfound)
    as (r' & Hfound' & (_ & Hsc' & _)).
  unfold resolveSingleton in Hrun.
  destruct (isResolved r && negb (isUndefined (instance r))) eqn:Hc.
  { inversion Hrun as [[Hi Hw]]. rewrite Hi in Hc.
    by rewrite andb_false_r in Hc. }
  apply guarded_Ok_inv in Hrun as (wf & Hbody & ->).
  apply factoryStep_Ok_inv in Hbody as (w3 & Hrun & ->); [|done].
  split.
  - pose proof (preserves_runFactory _ cid
                  (fun t o => resolveInternal_preserves fuel' cid t o)
                  _ _ _ _ Hrun) as (_ & _ & _ & [more Hcalls]).
    exists more. simpl in *. rewrite Hcalls. by rewrite <- app_assoc.
  - exists r'. split; [done|]. split; [congruence|].
    apply getProviderRecord_recordAt in Hfound'.
    rewrite recordAt_popStack, recordAt_cacheInstance in Hfound'.
    destruct (recordAt w3 owner tok); inversion Hfound'; subst. done.
Qed.

(** A singleton record that the fast path does not accept has its
    factory called by every resolution that returns. *)
Lemma singleton_uncached_calls_factory fuel w cid tok opt owner r v w1 :
  getProviderRecord w cid tok = Some (owner, r) ->
  scope r = SINGLETON ->
  isResolved r && negb (isUndefined (instance r)) = false ->
  resolveInternal fuel cid tok opt w = (Ok v, w1) ->
  exists more, factoryCalls w1 = factoryCalls w ++ tok :: more.
Proof.
  intros Hfound Hscope Hc Hint.
  destruct (resolveInternal_Ok_found _ _ _ _ _ _ _ _ _ Hint Hfound)
    as (fuel' & -> & Hst & Hrun).
  rewrite Hscope in Hrun. unfold resolveSingleton in Hrun. rewrite Hc in Hrun.
  apply guarded_Ok_inv in Hrun as (wf & Hbody & ->).
  apply bind_Ok in Hbody as ([] & wl & Hlog & Hbody).
  inversion Hlog; subst; clear Hlog.
  apply bind_Ok in Hbody as (inst & w3 & Hrun & Hbody).
  pose proof (preserves_runFactory _ cid
                (fun t o => resolveInternal_preserves fuel' cid t o)
                _ _ _ _ Hrun) as (_ & _ & _ & [more Hcalls]).
  exists more.
  assert (factoryCalls wf = factoryCalls w3) as Hsame.
  { destruct inst; unfold bind, modify, ret in Hbody; by inversion Hbody. }
  simpl in *. rewrite Hsame, Hcalls. by rewrite <- app_assoc.
Qed.

(** *** The claims *)


(** C10. A singleton that resolves to [undefined] has had its factory
    called: the fast path only answers when the cached instance is not
    [undefined].  The record it leaves holds [undefined], the fast path
    refuses it as well, and every later resolution that returns has
    called the factory again. *)
Theorem singleton_undefined_reinvoked fuel w cid tok opt owner r w1 :
  getProviderRecord w cid tok = Some (owner, r) ->
  scope r = SINGLETON ->
  resolve fuel cid tok opt w = (Ok VUndef, w1) ->
  (exists more, factoryCalls w1 = factoryCalls w ++ tok :: more)
  /\ (exists r', getProviderRecord w1 cid tok = Some (owner, r')
                 /\ instance r' = VUndef
                 /\ isResolved r' && negb (isUndefined (instance r')) = false)
  /\ (forall fuel2 v2 w2,
        resolve fuel2 cid tok opt w1 = (Ok v2, w2) ->
        exists more, factoryCalls w2 = factoryCalls w1 ++ tok :: more).
Proof.
  intros Hfound Hscope Hres.
  destruct (singleton_undefined_not_cached _ _ _ _ _ _ _ _ Hfound Hscope Hres)
    as (Hcalls & r' & Hfound' & Hsc' & Hinst & Hfast).
  split; [done|]. split; [eauto|].
  intros fuel2 v2 w2 Hres2. apply resolve_Ok_inv in Hres2 as [Hint _].
  eapply singleton_uncached_calls_factory; eauto.
Qed.



Lemma singleton_undefined_reinvoked_witness :
  let maybe := StringToken "MAYBE" in
  let w1 := after (resolve 2 0 maybe false) undefinedWorld in
  let w2 := after (resolve 2 0 maybe false) w1 in
  resolve 2 0 maybe false undefinedWorld = (Ok VUndef, w1)
  /\ (exists more, factoryCalls w1 = factoryCalls undefinedWorld ++ maybe :: more)
  /\ (exists more, factoryCalls w2 = factoryCalls w1 ++ maybe :: more).
Proof.
  intros maybe w1 w2.
  assert (Hres : resolve 2 0 maybe false undefinedWorld = (Ok VUndef, w1))
    by (vm_compute; reflexivity).
  destruct (singleton_undefined_reinvoked 2 undefinedWorld 0 maybe false
              0 (mkRecord maybe SINGLETON (FFactory [] (FnReturn VUndef))
                   VUndef false) w1)
    as (Hfirst & _ & Hagain);
    [vm_compute; reflexivity | reflexivity | exact Hres |].
  split; [exact Hres|]. split; [exact Hfirst|].
  apply (Hagain 2 VUndef w2). vm_compute; reflexivity.
Defined.

(** *** Resolution that never returns *)

Lemma selfTransientState_log w :
  selfTransientState w -> selfTransientState (logFactoryCall (ClassToken "A") w).
Proof. intros [? ?]. by split. Qed.

Lemma selfTransient_diverges fuel :
  forall w, selfTransientState w ->
    fst (resolveInternal fuel 0 (ClassToken "A") false w) = Diverge.
Proof.
  induction fuel as [|fuel IH]; intros w Hstate; [done|].
  pose proof (IH _ (selfTransientState_log w Hstate)) as Hrec.
  destruct Hstate as [Hstack Hfound]. simpl.
  erewrite resolveInternalBody_found; [|rewrite Hstack; set_solver|done].
  cbn [scope]. unfold resolveTransient, bind at 1, modify.
  cbn [factory runFactory]. unfold instantiateClass. cbn [c_dependencies mapM].
  unfold bind. cbn [fst snd].
  destruct (resolveInternal fuel 0 (ClassToken "A") false
              (logFactoryCall (ClassToken "A") w)) as [[v|e|] w'];
    simpl in Hrec; by try discriminate.
Qed.

Lemma selfTransientWorld_state : selfTransientState selfTransientWorld.
Proof. split; vm_compute; reflexivity. Qed.

(** A token that is being resolved is reported with the stack as path. *)
Lemma resolveInternal_on_stack fuel cid tok opt w :
  tok ∈ stackOf w cid ->
  resolveInternal (S fuel) cid tok opt w
  = (Err (CircularDependencyError (stackOf w cid ++ [tok])), w).
Proof.
  intros Hin. simpl. unfold resolveInternalBody, bind, gets.
  by rewrite bool_decide_eq_true_2.
Qed.

(** C3, on the code: [resolveTransient] does not put the token on the
    resolution stack.  A transient provider that needs itself is never
    reported: its resolution recurses without end, whatever the fuel.
    When a singleton [S] needs a transient [T] that needs [S], the error
    is raised, but its path is [S -> S], without [T].  With singletons
    only, [A -> B -> A] is reported in full. *)
Theorem transient_cycle_not_reported :
  (forall fuel,
      fst (resolve fuel 0 (ClassToken "A") false selfTransientWorld) = Diverge)
  /\ (forall fuel,
        fst (resolve (S (S (S fuel))) 0 (ClassToken "S") false mixedCycleWorld)
        = Err (CircularDependencyError [ClassToken "S"; ClassToken "S"])
        /\ errorMessage (CircularDependencyError [ClassToken "S"; ClassToken "S"])
           = "Circular dependency detected: S -> S")
  /\ (forall fuel,
        fst (resolve (S (S (S fuel))) 0 (ClassToken "A") false singletonCycleWorld)
        = Err (CircularDependencyError
                 [ClassToken "A"; ClassToken "B"; ClassToken "A"])
        /\ errorMessage (CircularDependencyError
                           [ClassToken "A"; ClassToken "B"; ClassToken "A"])
           = "Circular dependency detected: A -> B -> A").
Proof.
  split; [|split].
  - intros fuel. unfold resolve, resolveWith, bind.
    pose proof (selfTransient_diverges fuel _ selfTransientWorld_state) as H.
    destruct (resolveInternal fuel 0 (ClassToken "A") false selfTransientWorld)
      as [[v|e|] w']; simpl in H; by try discriminate.
  - intros fuel. split; vm_compute; reflexivity.
  - intros fuel. split; vm_compute; reflexivity.
Qed.

(** *** Synchronous resolution and pending values *)

(** [resolve] returns no pending value. *)
Lemma resolve_never_pending fuel cid tok opt w v w1 :
  resolve fuel cid tok opt w = (Ok v, w1) -> isPromise v = false.
Proof. intros H. by apply resolve_Ok_inv in H as [_ ?]. Qed.

(** When the resolution comes back pending, [resolve] throws the
    [ContainerError] that names the token. *)
Lemma resolve_pending_throws fuel cid tok opt w p w1 :
  resolveInternal fuel cid tok opt w = (Ok (VPromise p), w1) ->
  resolve fuel cid tok opt w = (Err (ContainerError (asyncMessage tok)), w1).
Proof. intros H. unfold resolve, resolveWith, bind. by rewrite H. Qed.

(** C7, on the code.  [resolve] throws a [ContainerError] for a token
    with an async provider and for everything that depends on it, and
    [resolveAsync] awaits it behind a class constructor.  But a factory
    provider injects its [inject] tokens, and an alias forwards, with the
    synchronous [container.resolve]: for [REPO] (a factory that injects
    the async [CONN]) and for [DB] (an alias of it) [resolveAsync] is
    rejected with the same [ContainerError]. *)
Theorem resolveAsync_through_factory_rejected fuel :
  let conn := StringToken "CONN" in
  let tooAsync := Err (ContainerError (asyncMessage conn)) in
  fst (resolve (S fuel) 0 conn false asyncWorld) = tooAsync
  /\ fst (resolveAsync (S fuel) 0 conn false asyncWorld) = Ok (VObj 0)
  /\ fst (resolve (S (S fuel)) 0 (ClassToken "Service") false asyncWorld)
     = Err (ContainerError (asyncMessage (ClassToken "Service")))
  /\ fst (resolveAsync (S (S fuel)) 0 (ClassToken "Service") false asyncWorld)
     = Ok (VObj 1)
  /\ fst (resolve (S (S fuel)) 0 (StringToken "REPO") false asyncWorld) = tooAsync
  /\ fst (resolveAsync (S (S fuel)) 0 (StringToken "REPO") false asyncWorld)
     = tooAsync
  /\ fst (resolve (S (S fuel)) 0 (StringToken "DB") false asyncWorld) = tooAsync
  /\ fst (resolveAsync (S (S fuel)) 0 (StringToken "DB") false asyncWorld)
     = tooAsync.
Proof. repeat split; vm_compute; reflexivity. Qed.

End DIFacts.

(** * Further properties *)

(** ** More of the radix router *)

Module RouterExtra.
Import JsString RadixRouter.
Local Open Scope list_scope.

(** The non-empty pieces of a path between its slashes *)
Definition pieces (path : string) : list string :=
  filter (fun s => truthy s = true) (splitSlashAcc "" path).

(** No slash in the string *)
Fixpoint slashFree (s : string) : bool :=
  match s with
  | EmptyString => true
  | String c r => negb (Ascii.eqb c "/") && slashFree r
  end.

(** What [splitPath] produces: a non-empty string without a slash *)
Definition isSegment (s : string) : Prop :=
  truthy s = true /\ slashFree s = true.

Lemma collapseSlashes_cons c r :
  collapseSlashes (String c r)
  = if Ascii.eqb c "/" then
      match r with
      | String c' _ => if Ascii.eqb c' "/" then collapseSlashes r
                       else String c (collapseSlashes r)
      | EmptyString => String c EmptyString
      end
    else String c (collapseSlashes r).
Proof. reflexivity. Qed.

Lemma splitSlashAcc_cons acc c r :
  splitSlashAcc acc (String c r)
  = if Ascii.eqb c "/" then acc :: splitSlashAcc EmptyString r
    else splitSlashAcc (acc ++ String c EmptyString)%string r.
Proof. reflexivity. Qed.

Lemma pieces_cons_empty xs :
  filter (fun s => truthy s = true) ("" :: xs)
  = filter (fun s => truthy s = true) xs.
Proof. by rewrite filter_cons_False by (simpl; discriminate). Qed.

Lemma filter_split_collapse s :
  forall acc,
    filter (fun s => truthy s = true) (splitSlashAcc acc (collapseSlashes s))
    = filter (fun s => truthy s = true) (splitSlashAcc acc s).
Proof.
  induction s as [|c r IH]; intros acc; [done|].
  rewrite collapseSlashes_cons, (splitSlashAcc_cons acc c r).
  destruct (Ascii.eqb c "/") eqn:Hc.
  - destruct r as [|c' r'].
    + rewrite splitSlashAcc_cons, Hc. done.
    + destruct (Ascii.eqb c' "/") eqn:Hc'.
      * rewrite IH. rewrite !splitSlashAcc_cons, Hc'.
        rewrite (filter_cons _ acc), (filter_cons _ acc ("" :: _)).
        by rewrite pieces_cons_empty.
      * rewrite splitSlashAcc_cons, Hc.
        rewrite !(filter_cons _ acc). by rewrite IH.
  - rewrite splitSlashAcc_cons, Hc. apply IH.
Qed.

Lemma filter_split_dropLast s :
  forall acc,
    endsWithSlash s = true ->
    filter (fun s => truthy s = true) (splitSlashAcc acc (dropLast s))
    = filter (fun s => truthy s = true) (splitSlashAcc acc s).
Proof.
  induction s as [|c r IH]; intros acc Hend; [done|].
  destruct r as [|c' r'].
  - simpl in Hend. simpl. rewrite Hend.
    rewrite (filter_cons _ acc [""]). rewrite pieces_cons_empty.
    by rewrite (filter_cons _ acc []).
  - change (endsWithSlash (String c (String c' r')))
      with (endsWithSlash (String c' r')) in Hend.
    change (dropLast (String c (String c' r')))
      with (String c (dropLast (String c' r'))).
    rewrite !(splitSlashAcc_cons acc c).
    destruct (Ascii.eqb c "/").
    + rewrite !(filter_cons _ acc). by rewrite IH.
    + by apply IH.
Qed.

Lemma startsWith_slash s :
  startsWith s "/" = true -> exists r, s = String "/" r.
Proof.
  unfold startsWith. destruct s as [|c r]; cbn [String.prefix]; [done|].
  destruct (Ascii.ascii_dec "/" c) as [<-|]; [eauto | done].
Qed.

Lemma splitPath_pieces p : splitPath p = pieces p.
Proof. unfold splitPath, pieces. destruct p; reflexivity. Qed.

Lemma segments_pieces path : splitPath (normalizePath path) = pieces path.
Proof.
  rewrite splitPath_pieces. unfold pieces, normalizePath.
  cbv zeta.
  set (n0 := collapseSlashes path).
  set (n1 := if startsWith n0 "/" then slice_from 1 n0 else n0).
  transitivity (filter (fun s => truthy s = true) (splitSlashAcc "" n1)).
  { destruct (endsWithSlash n1) eqn:He; [|done].
    by apply filter_split_dropLast. }
  transitivity (filter (fun s => truthy s = true) (splitSlashAcc "" n0)).
  { subst n1. destruct (startsWith n0 "/") eqn:Hs; [|done].
    destruct (startsWith_slash _ Hs) as [r ->].
    cbn [slice_from]. rewrite splitSlashAcc_cons. simpl Ascii.eqb. cbn iota.
    by rewrite pieces_cons_empty. }
  apply filter_split_collapse.
Qed.

Lemma append_nil s : ("" ++ s)%string = s.
Proof. reflexivity. Qed.

Lemma append_cons c s r : (String c s ++ r)%string = String c (s ++ r)%string.
Proof. reflexivity. Qed.

Lemma append_empty_r s : (s ++ "")%string = s.
Proof.
  induction s as [|c s IH]; [done|]. by rewrite append_cons, IH.
Qed.

Lemma append_snoc acc c r :
  ((acc ++ String c "") ++ r)%string = (acc ++ String c r)%string.
Proof.
  induction acc as [|a acc IH]; [done|]. by rewrite !append_cons, IH.
Qed.

Lemma slashFree_app a b :
  slashFree (a ++ b)%string = slashFree a && slashFree b.
Proof.
  induction a as [|c a IH]; [done|].
  rewrite append_cons. simpl. rewrite IH. by rewrite andb_assoc.
Qed.

Lemma splitSlashAcc_slashFree s :
  forall acc, slashFree acc = true ->
    Forall (fun x => slashFree x = true) (splitSlashAcc acc s).
Proof.
  induction s as [|c r IH]; intros acc Hacc.
  - by constructor.
  - rewrite splitSlashAcc_cons. destruct (Ascii.eqb c "/") eqn:Hc.
    + constructor; [done|]. by apply IH.
    + apply IH. rewrite slashFree_app, Hacc. simpl. by rewrite Hc.
Qed.

Lemma pieces_are_segments path : Forall isSegment (pieces path).
Proof.
  unfold pieces. apply Forall_forall. intros x Hx.
  apply list_elem_of_filter in Hx as [Hne Hin]. split; [done|].
  pose proof (splitSlashAcc_slashFree path "" eq_refl) as H.
  rewrite Forall_forall in H. by apply H.
Qed.

Lemma splitSlashAcc_app_slash s :
  forall acc, splitSlashAcc acc (s ++ "/")%string = splitSlashAcc acc s ++ [""].
Proof.
  induction s as [|c r IH]; intros acc; [done|].
  rewrite append_cons, !splitSlashAcc_cons.
  destruct (Ascii.eqb c "/"); by rewrite IH.
Qed.

Lemma pieces_leading_slash p : pieces ("/" ++ p)%string = pieces p.
Proof.
  unfold pieces. rewrite append_cons, append_nil, splitSlashAcc_cons.
  simpl Ascii.eqb. cbn iota. by rewrite pieces_cons_empty.
Qed.

Lemma pieces_trailing_slash p : pieces (p ++ "/")%string = pieces p.
Proof.
  unfold pieces. rewrite splitSlashAcc_app_slash, filter_app.
  rewrite pieces_cons_empty, filter_nil. by rewrite app_nil_r.
Qed.

(** [splitSlashAcc] runs through a slash-free string without cutting *)
Lemma splitSlashAcc_segment s :
  forall acc rest,
    slashFree s = true ->
    splitSlashAcc acc (s ++ rest)%string = splitSlashAcc (acc ++ s)%string rest.
Proof.
  induction s as [|c r IH]; intros acc rest Hs.
  - by rewrite append_nil, append_empty_r.
  - simpl in Hs. apply andb_prop in Hs as [Hc Hr].
    apply negb_true_iff in Hc.
    rewrite append_cons, splitSlashAcc_cons, Hc, IH by done.
    by rewrite append_snoc.
Qed.

Lemma split_joinSlash segs :
  segs <> [] ->
  Forall (fun x => slashFree x = true) segs ->
  splitSlashAcc "" (joinSlash segs) = segs.
Proof.
  induction segs as [|x rest IH]; intros Hne Hall; [done|].
  apply Forall_cons in Hall as [Hx Hrest].
  destruct rest as [|y rest'].
  - cbn [joinSlash]. rewrite <- (append_empty_r x) at 1.
    by rewrite splitSlashAcc_segment by done.
  - change (joinSlash (x :: y :: rest'))
      with (x ++ "/" ++ joinSlash (y :: rest'))%string.
    rewrite splitSlashAcc_segment by done.
    rewrite append_cons, append_nil, splitSlashAcc_cons.
    simpl Ascii.eqb. cbn iota. rewrite append_nil. f_equal. by apply IH.
Qed.

Lemma pieces_joinSlash segs :
  Forall isSegment segs -> pieces (joinSlash segs) = segs.
Proof.
  intros Hall. destruct segs as [|x rest]; [done|].
  unfold pieces. rewrite split_joinSlash; [|done|].
  - induction Hall as [|y ys [Hy _] _ IH]; [done|].
    rewrite filter_cons_True by done. by rewrite IH.
  - eapply Forall_impl; [exact Hall|]. by intros ? [_ ?].
Qed.

Lemma segments_of_joined segs :
  Forall isSegment segs ->
  splitPath (normalizePath ("/" ++ joinSlash segs)) = segs.
Proof.
  intros Hall. rewrite segments_pieces, pieces_leading_slash.
  by apply pieces_joinSlash.
Qed.

Section Facts.
Context {RouteHandler : Type}.
Variable regexTest : string -> string -> bool.

Abbreviation Node := (RadixNode RouteHandler).

(** X1. [normalizePath] and [splitPath] together keep exactly the
    non-empty pieces between the slashes of the path as it was given;
    each is non-empty and has no slash.  So a leading slash, a trailing
    slash or a doubled slash changes neither what [match] finds nor the
    node [register] writes to. *)
Theorem path_segments_ignore_slashes :
  (forall path, splitPath (normalizePath path) = pieces path)
  /\ (forall path, Forall isSegment (splitPath (normalizePath path)))
  /\ (forall (r : Router RouteHandler) method path,
        matchRoute regexTest r method ("/" ++ path) = matchRoute regexTest r method path
        /\ matchRoute regexTest r method (path ++ "/") = matchRoute regexTest r method path
        /\ matchRoute regexTest r method ("//" ++ path ++ "//")
           = matchRoute regexTest r method path)
  /\ (forall (r : Router RouteHandler) method path h,
        root (register r method (path ++ "/") h) = root (register r method path h)
        /\ root (register r method ("/" ++ path) h) = root (register r method path h)).
Proof.
  split; [apply segments_pieces|].
  split; [intros path; rewrite segments_pieces; apply pieces_are_segments|].
  split.
  - intros r method path. unfold matchRoute. rewrite !segments_pieces.
    rewrite pieces_leading_slash, pieces_trailing_slash.
    change ("//" ++ path ++ "//")%string with ("/" ++ ("/" ++ (path ++ "//")))%string.
    rewrite !pieces_leading_slash.
    replace (path ++ "//")%string with ((path ++ "/") ++ "/")%string
      by (clear; induction path as [|c p IH]; [done|];
          by rewrite !append_cons, IH).
    by rewrite !pieces_trailing_slash.
  - intros r method path h. unfold register. cbn [root].
    rewrite !segments_pieces.
    by rewrite pieces_leading_slash, pieces_trailing_slash.
Qed.

(** X2. Splitting is the inverse of joining: for segments that are
    non-empty and have no slash, the path made of a slash and the
    segments joined by slashes is split into those segments again. *)
Theorem split_join_round_trip segs :
  Forall isSegment segs ->
  splitPath (normalizePath ("/" ++ joinSlash segs)) = segs.
Proof.
  intros Hall. rewrite segments_pieces, pieces_leading_slash.
  by apply pieces_joinSlash.
Qed.

(** *** One route on a fresh router *)

(** What a request is expected to bind against the segments of a route:
    a static segment has to be equal, a parameter binds the request
    segment (when its pattern, if it has one, accepts it), and a
    wildcard, which has to be the last segment of the route, binds what
    is left of the request, of which there is at least one segment. *)
Fixpoint routeBind (pats reqs : list string) (ps : gmap string string)
  : option (gmap string string) :=
  match pats, reqs with
  | [], [] => Some ps
  | pat :: pats', req :: reqs' =>
      let parsed := parseSegment pat in
      match p_type parsed with
      | static =>
          if String.eqb pat req then routeBind pats' reqs' ps else None
      | param => routeBind pats' reqs' (<[p_name parsed := req]> ps)
      | regex =>
          match p_pattern parsed with
          | Some src =>
              if regexTest src req
              then routeBind pats' reqs' (<[p_name parsed := req]> ps)
              else None
          | None => None
          end
      | wildcard =>
          match pats' with
          | [] => Some (<[p_name parsed := joinSlash reqs]> ps)
          | _ :: _ => None
          end
      end
  | _, _ => None
  end.

(** The parameter or the wildcard of a route segment has a name that is
    no property of [Object.prototype]: its binding is an own string
    property of [params]. *)
Definition ordinaryPattern (pat : string) : bool :=
  match p_type (parseSegment pat) with
  | static => true
  | _ => negb (inheritedName (p_name (parseSegment pat)))
  end.

Lemma insertSegment_keeps (parent : Node) seg k :
  segment (insertSegment parent seg k) = segment parent
  /\ pattern (insertSegment parent seg k) = pattern parent.
Proof.
  unfold insertSegment, splitOrExtendNode. cbv zeta.
  repeat case_match; done.
Qed.

Lemma insertSegments_keeps pats method h (n : Node) :
  segment (insertSegments pats method h n) = segment n
  /\ pattern (insertSegments pats method h n) = pattern n.
Proof. destruct pats; [done | apply insertSegment_keeps]. Qed.

Lemma parseSegment_param seg :
  p_type (parseSegment seg) = param -> p_pattern (parseSegment seg) = None.
Proof.
  unfold parseSegment. repeat case_match; simpl; done.
Qed.

Lemma startsWith_refl s : startsWith s s = true.
Proof.
  unfold startsWith. induction s as [|c s IH]; [done|].
  cbn [String.prefix]. by destruct (Ascii.ascii_dec c c).
Qed.

Lemma getHandler_set method (h : RouteHandler) reqMethod t s p :
  reqMethod = method \/ method = "ALL" ->
  getHandler (set_handlers (createNode t s p)
                (<[method := h]> (handlers (createNode t s p)))) reqMethod
  = Some h.
Proof.
  intros Hm. unfold getHandler. cbn [handlers set_handlers createNode].
  destruct Hm as [-> | ->]; [by rewrite lookup_insert_eq|].
  destruct (decide (reqMethod = "ALL")) as [->|Hne].
  - by rewrite lookup_insert_eq.
  - rewrite lookup_insert_ne, lookup_empty by done.
    by rewrite lookup_insert_eq.
Qed.

Lemma matchPath_fresh method (h : RouteHandler) reqMethod :
  reqMethod = method \/ method = "ALL" ->
  forall pats reqs t s p ps bs,
    routeBind pats reqs ps = Some bs ->
    matchPath regexTest reqs reqMethod
      (insertSegments pats method h (createNode t s p)) ps
    = (Some h, bs).
Proof.
  intros Hm. induction pats as [|pat pats IH]; intros reqs t s p ps bs Hb.
  - destruct reqs; [|done]. injection Hb as <-.
    cbn [insertSegments matchPath]. by rewrite getHandler_set.
  - destruct reqs as [|req reqs]; [done|].
    cbn [routeBind] in Hb. cbv zeta in Hb.
    cbn [insertSegments]. unfold insertSegment. cbv zeta.
    destruct (p_type (parseSegment pat)) eqn:Ht.
    + destruct (String.eqb pat req) eqn:He; [|done].
      apply String.eqb_eq in He as <-.
      cbn [createNode children]. rewrite lookup_empty.
      cbn [matchPath]. unfold staticStage at 1.
      cbn [children set_children]. rewrite lookup_insert_eq.
      destruct (insertSegments_keeps pats method h (createNode static pat None))
        as [-> _].
      cbn [segment createNode].
      rewrite startsWith_refl, String.eqb_refl.
      by rewrite (IH _ _ _ _ _ _ Hb).
    + cbn [createNode paramChild].
      cbn [matchPath]. unfold staticStage at 1.
      cbn [children set_paramChild createNode]. rewrite lookup_empty. cbn [orElse].
      unfold regexStage at 1, paramStage at 1. cbn [paramChild set_paramChild createNode].
      destruct (insertSegments_keeps pats method h
                  (createNode param (p_name (parseSegment pat))
                     (p_pattern (parseSegment pat)))) as [Hseg Hpat].
      rewrite Hpat. unfold bindParam. rewrite Hseg.
      cbn [pattern segment createNode].
      rewrite (parseSegment_param _ Ht). cbn [orElse].
      by rewrite (IH _ _ _ _ _ _ Hb).
    + destruct pats as [|pat' pats']; [|done]. injection Hb as <-.
      cbn [createNode wildcardChild].
      cbn [matchPath]. unfold staticStage at 1.
      cbn [children set_wildcardChild createNode]. rewrite lookup_empty. cbn [orElse].
      unfold regexStage at 1, paramStage at 1.
      cbn [paramChild set_wildcardChild createNode orElse].
      unfold wildcardStage. cbn [wildcardChild set_wildcardChild createNode insertSegments].
      by rewrite getHandler_set.
    + destruct (p_pattern (parseSegment pat)) as [src|] eqn:Hsrc; [|done].
      destruct (regexTest src req) eqn:Hre; [|done].
      cbn [createNode paramChild].
      cbn [matchPath]. unfold staticStage at 1.
      cbn [children set_paramChild createNode]. rewrite lookup_empty. cbn [orElse].
      unfold regexStage at 1. cbn [paramChild set_paramChild createNode].
      destruct (insertSegments_keeps pats method h
                  (createNode regex (p_name (parseSegment pat)) (Some src)))
        as [Hseg Hpat].
      rewrite Hpat. cbn [pattern createNode]. rewrite Hre.
      unfold bindParam. rewrite Hseg. cbn [segment createNode].
      by rewrite (IH _ _ _ _ _ _ Hb).
Qed.

(** X3. Round trip of [register] and [match] on a router that holds
    one route whose parameters and wildcard have ordinary names (no
    property of [Object.prototype]): a request whose segments fit the
    segments of the route (see [routeBind]) is answered with the handler
    of the route and with exactly the bindings its parameters and its
    final wildcard take, for the method of the route, and for every
    method when the route was registered for [ALL]. *)
Theorem fresh_route_round_trip method path (h : RouteHandler)
    reqMethod reqPath bs :
  forallb ordinaryPattern (splitPath (normalizePath path)) = true ->
  routeBind (splitPath (normalizePath path))
    (splitPath (normalizePath reqPath)) ∅ = Some bs ->
  reqMethod = method \/ method = "ALL" ->
  matchRoute regexTest (register newRouter method path h) reqMethod reqPath
  = Some (mkMatch h bs).
Proof.
  intros _ Hb Hm. unfold matchRoute, register, newRouter. cbn [root].
  by rewrite (matchPath_fresh method h reqMethod Hm _ _ _ _ _ _ _ Hb).
Qed.

(** *** Several registrations for one path *)

(** The loop of [register] over the segments, with what is done to the
    node it ends at left open *)
Fixpoint insertWith (pats : list string) (k : Node -> Node) (node : Node)
  : Node :=
  match pats with
  | [] => k node
  | seg :: rest => insertSegment node seg (insertWith rest k)
  end.

(** [node.handlers.set(method, handler)] *)
Definition setHandler (method : string) (h : RouteHandler) (node : Node) : Node :=
  set_handlers node (<[method := h]> (handlers node)).

(** [k] writes to the handlers of a node only *)
Definition keepsNode (k : Node -> Node) : Prop :=
  forall n,
    segment (k n) = segment n /\ pattern (k n) = pattern n
    /\ children (k n) = children n /\ paramChild (k n) = paramChild n
    /\ wildcardChild (k n) = wildcardChild n.

Lemma insertSegment_ext (n : Node) seg k k' :
  (forall x, k x = k' x) -> insertSegment n seg k = insertSegment n seg k'.
Proof.
  intros H. unfold insertSegment, splitOrExtendNode. cbv zeta.
  repeat case_match; rewrite ?H; done.
Qed.

Lemma insertWith_ext pats k k' :
  (forall x, k x = k' x) ->
  forall n, insertWith pats k n = insertWith pats k' n.
Proof.
  intros H. induction pats as [|seg rest IH]; intros n; cbn [insertWith].
  - apply H.
  - apply insertSegment_ext. exact IH.
Qed.

Lemma insertSegments_insertWith pats method h :
  forall n, insertSegments pats method h n
            = insertWith pats (setHandler method h) n.
Proof.
  induction pats as [|seg rest IH]; intros n; [done|].
  cbn [insertSegments insertWith]. apply insertSegment_ext. exact IH.
Qed.

Lemma insertWith_keeps pats k (n : Node) :
  keepsNode k ->
  segment (insertWith pats k n) = segment n
  /\ pattern (insertWith pats k n) = pattern n.
Proof.
  intros Hk. destruct pats as [|seg rest]; cbn [insertWith].
  - destruct (Hk n) as (? & ? & _). done.
  - apply insertSegment_keeps.
Qed.

(** Registering the same segments again ends at the same node. *)
Lemma insertWith_again pats :
  forall k1 k2 t s p,
    keepsNode k1 ->
    insertWith pats k2 (insertWith pats k1 (createNode t s p))
    = insertWith pats (fun n => k2 (k1 n)) (createNode t s p).
Proof.
  induction pats as [|seg rest IH]; intros k1 k2 t s p Hk; [done|].
  cbn [insertWith]. unfold insertSegment. cbv zeta.
  destruct (p_type (parseSegment seg)) eqn:Ht.
  - cbn [createNode children]. rewrite lookup_empty.
    cbn [children set_children]. rewrite lookup_insert_eq.
    rewrite (proj1 (insertWith_keeps rest k1 _ Hk)).
    cbn [segment createNode]. rewrite String.eqb_refl.
    unfold set_children. cbn. rewrite insert_insert_eq. by rewrite IH.
  - cbn [createNode paramChild set_paramChild]. unfold set_paramChild. cbn.
    by rewrite IH.
  - cbn [createNode wildcardChild set_wildcardChild]. unfold set_wildcardChild.
    cbn. by rewrite IH.
  - cbn [createNode paramChild set_paramChild]. unfold set_paramChild. cbn.
    by rewrite IH.
Qed.

Lemma matchPath_insertWith k (h : RouteHandler) reqMethod :
  keepsNode k ->
  (forall t s p, getHandler (k (createNode t s p)) reqMethod = Some h) ->
  forall pats reqs t s p ps bs,
    routeBind pats reqs ps = Some bs ->
    matchPath regexTest reqs reqMethod (insertWith pats k (createNode t s p)) ps
    = (Some h, bs).
Proof.
  intros Hk Hget.
  induction pats as [|pat pats IH]; intros reqs t s p ps bs Hb.
  - destruct reqs; [|done]. injection Hb as <-.
    cbn [insertWith matchPath]. by rewrite Hget.
  - destruct reqs as [|req reqs]; [done|].
    cbn [routeBind] in Hb. cbv zeta in Hb.
    cbn [insertWith]. unfold insertSegment. cbv zeta.
    destruct (p_type (parseSegment pat)) eqn:Ht.
    + destruct (String.eqb pat req) eqn:He; [|done].
      apply String.eqb_eq in He as <-.
      cbn [createNode children]. rewrite lookup_empty.
      cbn [matchPath]. unfold staticStage at 1.
      cbn [children set_children]. rewrite lookup_insert_eq.
      rewrite (proj1 (insertWith_keeps pats k _ Hk)).
      cbn [segment createNode].
      rewrite startsWith_refl, String.eqb_refl.
      by rewrite (IH _ _ _ _ _ _ Hb).
    + cbn [createNode paramChild].
      cbn [matchPath]. unfold staticStage at 1.
      cbn [children set_paramChild createNode]. rewrite lookup_empty. cbn [orElse].
      unfold regexStage at 1, paramStage at 1. cbn [paramChild set_paramChild createNode].
      destruct (insertWith_keeps pats k
                  (createNode param (p_name (parseSegment pat))
                     (p_pattern (parseSegment pat))) Hk) as [Hseg Hpat].
      rewrite Hpat. unfold bindParam. rewrite Hseg.
      cbn [pattern segment createNode].
      rewrite (parseSegment_param _ Ht). cbn [orElse].
      by rewrite (IH _ _ _ _ _ _ Hb).
    + destruct pats as [|pat' pats']; [|done]. injection Hb as <-.
      cbn [createNode wildcardChild].
      cbn [matchPath]. unfold staticStage at 1.
      cbn [children set_wildcardChild createNode]. rewrite lookup_empty. cbn [orElse].
      unfold regexStage at 1, paramStage at 1.
      cbn [paramChild set_wildcardChild createNode orElse].
      unfold wildcardStage. cbn [wildcardChild set_wildcardChild createNode insertWith].
      rewrite Hget.
      by rewrite (proj1 (Hk (createNode wildcard (p_name (parseSegment pat)) None))).
    + destruct (p_pattern (parseSegment pat)) as [src|] eqn:Hsrc; [|done].
      destruct (regexTest src req) eqn:Hre; [|done].
      cbn [createNode paramChild].
      cbn [matchPath]. unfold staticStage at 1.
      cbn [children set_paramChild createNode]. rewrite lookup_empty. cbn [orElse].
      unfold regexStage at 1. cbn [paramChild set_paramChild createNode].
      destruct (insertWith_keeps pats k
                  (createNode regex (p_name (parseSegment pat)) (Some src)) Hk)
        as [Hseg Hpat].
      rewrite Hpat. cbn [pattern createNode]. rewrite Hre.
      unfold bindParam. rewrite Hseg. cbn [segment createNode].
      by rewrite (IH _ _ _ _ _ _ Hb).
Qed.

(** [register] called for each method and handler of [regs], in order,
    all with the same path *)
Definition registerOn (path : string) (r : Router RouteHandler)
    (regs : list (string * RouteHandler)) : Router RouteHandler :=
  fold_left (fun acc mh => register acc (fst mh) path (snd mh)) regs r.

(** The handlers that these registrations leave on one node *)
Definition handlersAfter (hs : gmap string RouteHandler)
    (regs : list (string * RouteHandler)) : gmap string RouteHandler :=
  fold_left (fun acc mh => <[fst mh := snd mh]> acc) regs hs.

Definition setHandlers (regs : list (string * RouteHandler)) (n : Node) : Node :=
  set_handlers n (handlersAfter (handlers n) regs).

Lemma keepsNode_setHandlers regs : keepsNode (setHandlers regs).
Proof. intros n. by repeat split. Qed.

Lemma setHandlers_cons m h regs n :
  setHandlers regs (setHandler m h n) = setHandlers ((m, h) :: regs) n.
Proof. reflexivity. Qed.

Lemma root_registerOn path regs :
  forall m h,
    root (registerOn path (register newRouter m path h) regs)
    = insertWith (splitPath (normalizePath path))
        (setHandlers ((m, h) :: regs)) (createNode static "" None).
Proof.
  set (pats := splitPath (normalizePath path)).
  assert (H : forall regs0 regs1 r,
             regs1 <> [] ->
             root r = insertWith pats (setHandlers regs1) (createNode static "" None) ->
             root (registerOn path r regs0)
             = insertWith pats (setHandlers (regs1 ++ regs0))
                 (createNode static "" None)).
  { induction regs0 as [|[m0 h0] regs0 IH]; intros regs1 r Hne Hr.
    - by rewrite app_nil_r.
    - cbn [registerOn fold_left fst snd].
      fold (registerOn path (register r m0 path h0) regs0).
      rewrite (IH (regs1 ++ [(m0, h0)])).
      + by rewrite <- app_assoc.
      + by destruct regs1.
      + unfold register. cbn [root]. fold pats.
        rewrite insertSegments_insertWith, Hr.
        rewrite insertWith_again by apply keepsNode_setHandlers.
        apply insertWith_ext. intros x.
        unfold setHandler, setHandlers, handlersAfter, set_handlers. cbn.
        by rewrite fold_left_app. }
  intros m h. apply (H regs [(m, h)]); [done|].
  unfold register, newRouter. cbn [root]. fold pats.
  by rewrite insertSegments_insertWith.
Qed.

(** X30. Several handlers registered for one path, on a router that
    holds nothing else, end on one node.  A request that fits the path is
    answered by the handler that was registered last for its method,
    which replaces the earlier ones; when none was registered for the
    method, by the one registered last for [ALL].  The order between
    registrations of different methods plays no part.  The bindings are
    those of the path, whose parameters and wildcard have ordinary
    names. *)
Theorem same_path_last_registration_wins path regs reqMethod reqPath bs h :
  forallb ordinaryPattern (splitPath (normalizePath path)) = true ->
  routeBind (splitPath (normalizePath path))
    (splitPath (normalizePath reqPath)) ∅ = Some bs ->
  match handlersAfter ∅ regs !! reqMethod with
  | Some x => Some x
  | None => handlersAfter ∅ regs !! "ALL"
  end = Some h ->
  matchRoute regexTest (registerOn path newRouter regs) reqMethod reqPath
  = Some (mkMatch h bs).
Proof.
  intros _ Hb Hh. destruct regs as [|[m0 h0] regs]; [done|].
  unfold matchRoute.
  change (registerOn path newRouter ((m0, h0) :: regs))
    with (registerOn path (register newRouter m0 path h0) regs).
  rewrite root_registerOn.
  rewrite (matchPath_insertWith (setHandlers ((m0, h0) :: regs)) h reqMethod
             (keepsNode_setHandlers _)) with (bs := bs); [done| |done].
  intros t s p. unfold getHandler, setHandlers.
  cbn [handlers set_handlers createNode]. exact Hh.
Qed.

Lemma firstCharOf_app a b :
  truthy a = true -> firstCharOf (a ++ b)%string = firstCharOf a.
Proof. by destruct a. Qed.

Lemma startsWith_app a b : startsWith (a ++ b)%string a = true.
Proof.
  unfold startsWith. induction a as [|c a IH]; [by destruct b|].
  rewrite append_cons. cbn [String.prefix]. by destruct (Ascii.ascii_dec c c).
Qed.

Lemma slice_from_app a b : slice_from (String.length a) (a ++ b)%string = b.
Proof. induction a as [|c a IH]; [by destruct b | done]. Qed.

Lemma length_append a b :
  String.length (a ++ b)%string = String.length a + String.length b.
Proof.
  induction a as [|c a IH]; [done|]. rewrite append_cons. simpl. by rewrite IH.
Qed.

Lemma eqb_append_false a b :
  truthy b = true -> String.eqb a (a ++ b)%string = false.
Proof.
  intros Hb. apply String.eqb_neq. intros Heq.
  apply (f_equal String.length) in Heq. rewrite length_append in Heq.
  destruct b; [done|]. simpl in Heq. lia.
Qed.

(** X4. [matchPath] does not keep segment boundaries below a static
    node: when a route has two static segments one after the other, a
    request that has their concatenation as ONE segment is answered by
    that route.  ([/ab/c] answers [/abc].) *)
Theorem adjacent_static_segments_match_joined method (h : RouteHandler) a b :
  isSegment a -> isSegment b ->
  p_type (parseSegment a) = static ->
  p_type (parseSegment b) = static ->
  matchRoute regexTest (register newRouter method ("/" ++ a ++ "/" ++ b) h)
    method ("/" ++ a ++ b)
  = Some (mkMatch h ∅).
Proof.
  intros Ha Hb Hsa Hsb.
  assert (Hab : isSegment (a ++ b)%string).
  { destruct Ha as [Ha1 Ha2], Hb as [Hb1 Hb2]. split.
    - by destruct a.
    - by rewrite slashFree_app, Ha2, Hb2. }
  unfold matchRoute, register, newRouter. cbn [root].
  change ("/" ++ a ++ "/" ++ b)%string with ("/" ++ joinSlash [a; b])%string.
  change ("/" ++ a ++ b)%string with ("/" ++ joinSlash [(a ++ b)%string])%string.
  rewrite (segments_of_joined [a; b])
    by (apply Forall_cons; split; [done|]; by apply Forall_singleton).
  rewrite (segments_of_joined [(a ++ b)%string])
    by (by apply Forall_singleton).
  cbn [insertSegments]. unfold insertSegment. cbv zeta.
  rewrite Hsa, Hsb. cbn [createNode children]. rewrite !lookup_empty.
  cbn [matchPath]. unfold staticStage.
  cbn [children set_children segment set_handlers].
  rewrite firstCharOf_app by apply Ha. rewrite lookup_insert_eq.
  cbn [children set_children segment set_handlers].
  rewrite startsWith_app, eqb_append_false by apply Hb.
  rewrite slice_from_app, lookup_insert_eq.
  rewrite getHandler_set by (by left).
  cbn [segment set_handlers createNode]. rewrite String.eqb_refl. reflexivity.
Qed.

(** *** Segments after a wildcard *)

(** A wildcard segment that is not the last segment of the route *)
Fixpoint wildcardBeforeEnd (pats : list string) : bool :=
  match pats with
  | [] => false
  | pat :: rest =>
      match p_type (parseSegment pat), rest with
      | wildcard, _ :: _ => true
      | _, _ => wildcardBeforeEnd rest
      end
  end.

(** No request is answered from this node *)
Definition dead (n : Node) : Prop :=
  forall reqs reqMethod ps, fst (matchPath regexTest reqs reqMethod n ps) = None.

Lemma insertSegment_handlers (parent : Node) seg k :
  handlers (insertSegment parent seg k) = handlers parent.
Proof.
  unfold insertSegment, splitOrExtendNode. cbv zeta.
  repeat case_match; done.
Qed.

Lemma getHandler_empty (n : Node) reqMethod :
  handlers n = ∅ -> getHandler n reqMethod = None.
Proof. intros H. unfold getHandler. by rewrite H, !lookup_empty. Qed.

Lemma bindParam_dead recur (pc : Node) seg ps :
  (forall ps0, fst (recur pc ps0) = None) ->
  fst (bindParam (RouteHandler := RouteHandler) recur pc seg ps) = None.
Proof.
  intros Hrec. unfold bindParam.
  specialize (Hrec (<[segment pc := seg]> ps)).
  by destruct (recur pc (<[segment pc := seg]> ps)) as [[?|] ?].
Qed.

Lemma orElse_dead (r : option RouteHandler * gmap string string) next :
  fst r = None -> (forall ps, fst (next ps) = None) ->
  fst (orElse r next) = None.
Proof. destruct r as [[?|] ps]; simpl; [done | auto]. Qed.

Lemma staticStage_no_children recur (n : Node) seg ps :
  children n = ∅ -> staticStage recur n seg ps = (None, ps).
Proof. intros H. unfold staticStage. by rewrite H, lookup_empty. Qed.

Lemma wildcardBeforeEnd_dead method (h : RouteHandler) pats :
  wildcardBeforeEnd pats = true ->
  forall t s p,
    dead (insertSegments pats method h (createNode t s p))
    /\ forall k c,
         children (insertSegments pats method h (createNode t s p)) !! k = Some c ->
         dead c.
Proof.
  induction pats as [|pat pats IH]; intros Hw t s p; [done|].
  cbn [wildcardBeforeEnd] in Hw. cbn [insertSegments].
  unfold insertSegment. cbv zeta.
  destruct (p_type (parseSegment pat)) eqn:Ht.
  - assert (Hw' : wildcardBeforeEnd pats = true) by (by destruct pats).
    destruct (IH Hw' static pat None) as [Hd Hc].
    cbn [createNode children]. rewrite lookup_empty.
    split.
    + intros [|req reqs] reqMethod ps; [by cbn|].
      cbn [matchPath]. apply orElse_dead.
      * unfold staticStage. cbn [children set_children].
        destruct (decide (firstCharOf pat = firstCharOf req)) as [->|Hne];
          [rewrite lookup_insert_eq | by rewrite lookup_insert_ne, lookup_empty].
        destruct (startsWith req _); [|done].
        destruct (String.eqb _ req); [apply Hd|].
        destruct (children _ !! _) as [nc|] eqn:Hnc; [|done].
        destruct (String.eqb _ (segment nc)); [|done].
        eapply Hc; eauto.
      * intros ps1. done.
    + intros k c. cbn [children set_children].
      destruct (decide (firstCharOf pat = k)) as [->|Hne].
      * rewrite lookup_insert_eq. by intros [= <-].
      * by rewrite lookup_insert_ne, lookup_empty.
  - assert (Hw' : wildcardBeforeEnd pats = true) by (by destruct pats).
    cbn [createNode paramChild].
    destruct (IH Hw' param (p_name (parseSegment pat))
                (p_pattern (parseSegment pat))) as [Hd _].
    split; [|by intros k c; cbn; rewrite lookup_empty].
    intros [|req reqs] reqMethod ps; [by cbn|].
    cbn [matchPath]. apply orElse_dead; [by rewrite staticStage_no_children|].
    intros ps1. apply orElse_dead.
    { unfold regexStage. cbn [paramChild set_paramChild].
      destruct (pattern _); [|done].
      destruct (regexTest _ _); [|done].
      apply bindParam_dead. intros ps0. apply Hd. }
    intros ps2. apply orElse_dead; [|done].
    unfold paramStage. cbn [paramChild set_paramChild].
    destruct (pattern _); [done|].
    apply bindParam_dead. intros ps0. apply Hd.
  - cbn [createNode wildcardChild].
    split; [|by intros k c; cbn; rewrite lookup_empty].
    intros [|req reqs] reqMethod ps; [by cbn|].
    cbn [matchPath]. apply orElse_dead; [by rewrite staticStage_no_children|].
    intros ps1. apply orElse_dead; [done|].
    intros ps2. apply orElse_dead; [done|].
    intros ps3. unfold wildcardStage. cbn [wildcardChild set_wildcardChild fst].
    apply getHandler_empty.
    destruct pats as [|pat' pats']; [done|].
    cbn [insertSegments]. by rewrite insertSegment_handlers.
  - assert (Hw' : wildcardBeforeEnd pats = true) by (by destruct pats).
    cbn [createNode paramChild].
    destruct (IH Hw' regex (p_name (parseSegment pat))
                (p_pattern (parseSegment pat))) as [Hd _].
    split; [|by intros k c; cbn; rewrite lookup_empty].
    intros [|req reqs] reqMethod ps; [by cbn|].
    cbn [matchPath]. apply orElse_dead; [by rewrite staticStage_no_children|].
    intros ps1. apply orElse_dead.
    { unfold regexStage. cbn [paramChild set_paramChild].
      destruct (pattern _); [|done].
      destruct (regexTest _ _); [|done].
      apply bindParam_dead. intros ps0. apply Hd. }
    intros ps2. apply orElse_dead; [|done].
    unfold paramStage. cbn [paramChild set_paramChild].
    destruct (pattern _); [done|].
    apply bindParam_dead. intros ps0. apply Hd.
Qed.

(** X5. [matchPath] never goes below a wildcard child: the wildcard
    stage answers with the handlers of the wildcard node itself.  So a
    route with further segments after a wildcard segment is not
    reachable: on a router that holds only this route, no request of any
    method and path is matched. *)
Theorem segments_after_wildcard_unreachable method path (h : RouteHandler) :
  wildcardBeforeEnd (splitPath (normalizePath path)) = true ->
  forall reqMethod reqPath,
    matchRoute regexTest (register newRouter method path h) reqMethod reqPath
    = None.
Proof.
  intros Hw reqMethod reqPath. unfold matchRoute, register, newRouter.
  cbn [root].
  destruct (wildcardBeforeEnd_dead method h _ Hw static "" None) as [Hd _].
  specialize (Hd (splitPath (normalizePath reqPath)) reqMethod ∅).
  by destruct (matchPath _ _ _ _ _) as [[?|] ?].
Qed.

(** [getRoutes()]: a copy of the list of definitions *)
Definition getRoutes (r : Router RouteHandler) : list (RouteDefinition RouteHandler) :=
  routes r.

(** X7. [getRoutes] lists the definitions in the order in which they
    were registered, with the path as it was given; a definition that a
    later one overwrote in the tree stays in the list. *)
Theorem getRoutes_registration_order (r : Router RouteHandler) :
  (forall method path h,
      getRoutes (register r method path h)
      = getRoutes r ++ [mkRoute method path h])
  /\ (forall rs, getRoutes (registerMany r rs) = getRoutes r ++ rs)
  /\ (forall rs, getRoutes (registerMany newRouter rs) = rs).
Proof.
  assert (H : forall rs (r0 : Router RouteHandler),
             getRoutes (registerMany r0 rs) = getRoutes r0 ++ rs).
  { induction rs as [|d rs IH]; intros r0.
    - by rewrite app_nil_r.
    - unfold registerMany in *. cbn [fold_left]. rewrite IH.
      unfold getRoutes, register. cbn [routes].
      rewrite <- app_assoc. by destruct d. }
  split; [done|]. split; [intros rs; apply H|].
  intros rs. by rewrite H.
Qed.

End Facts.

Lemma split_join_round_trip_witness :
  splitPath (normalizePath ("/" ++ joinSlash ["users"; ":id"; "posts"]))
  = ["users"; ":id"; "posts"].
Proof.
  apply (split_join_round_trip ["users"; ":id"; "posts"]).
  repeat constructor.
Defined.

Lemma fresh_route_round_trip_witness :
  matchRoute (fun _ _ => true)
    (register newRouter "ALL" "/users/:id/files/*rest" tt)
    "GET" "/users/42/files/a/b.txt"
  = Some (mkMatch tt (<["rest" := "a/b.txt"]> (<["id" := "42"]> ∅))).
Proof.
  apply (fresh_route_round_trip (fun _ _ => true) "ALL"
           "/users/:id/files/*rest" tt "GET" "/users/42/files/a/b.txt").
  - reflexivity.
  - vm_compute. reflexivity.
  - right. reflexivity.
Defined.

Lemma adjacent_static_segments_match_joined_witness :
  matchRoute (fun _ _ => true) (register newRouter "GET" "/ab/c" tt)
    "GET" "/abc"
  = Some (mkMatch tt ∅).
Proof.
  apply (adjacent_static_segments_match_joined (fun _ _ => true)
           "GET" tt "ab" "c"); repeat constructor.
Defined.

Lemma segments_after_wildcard_unreachable_witness :
  matchRoute (fun _ _ => true) (register newRouter "GET" "/files/*rest/raw" tt)
    "GET" "/files/a/raw"
  = None.
Proof.
  apply (segments_after_wildcard_unreachable (fun _ _ => true)
           "GET" "/files/*rest/raw" tt).
  vm_compute. reflexivity.
Defined.

Lemma same_path_last_registration_wins_witness :
  let regs := [("ALL", 1); ("GET", 2); ("GET", 3)] in
  matchRoute (fun _ _ => true) (registerOn "/users/:id" newRouter regs)
    "GET" "/users/42"
  = Some (mkMatch 3 {["id" := "42"]})
  /\ matchRoute (fun _ _ => true) (registerOn "/users/:id" newRouter regs)
       "POST" "/users/42"
     = Some (mkMatch 1 {["id" := "42"]}).
Proof.
  intros regs. split.
  - apply (same_path_last_registration_wins (fun _ _ => true) "/users/:id" regs
             "GET" "/users/42"); vm_compute; reflexivity.
  - apply (same_path_last_registration_wins (fun _ _ => true) "/users/:id" regs
             "POST" "/users/42"); vm_compute; reflexivity.
Defined.

(** A failed match below [/:id/x] puts back the value that [id] had. *)
Lemma matchPath_restores_params_witness :
  let node : RadixNode unit :=
    set_paramChild (createNode static "" None)
      (Some (insertSegments ["x"] "GET" tt (createNode param "id" None))) in
  snd (matchPath (fun _ _ => true) ["42"; "y"] "GET" node {["id" := "old"]})
  = {["id" := "old"]}.
Proof.
  intros node.
  apply (RouterFacts.matchPath_restores_params (fun _ _ => true) "GET"
           ["42"; "y"] node {["id" := "old"]}).
  - cbn [RouterFacts.wildcardFree length]. split; [reflexivity|]. split.
    + intros k c Hk. cbn in Hk. by rewrite lookup_empty in Hk.
    + intros pc [= <-]. split; [reflexivity|]. split; [|done].
      intros k c Hk. split; [exact I|]. intros k' c' Hk'. exact I.
  - cbn [RouterFacts.ordinaryParams length]. split.
    + intros k c Hk. cbn in Hk. by rewrite lookup_empty in Hk.
    + intros pc [= <-]. split; [reflexivity|]. split; [|done].
      intros k c Hk. split; [exact I|]. intros k' c' Hk'. exact I.
  - vm_compute. reflexivity.
Defined.

End RouterExtra.

(** ** More of the request pipeline *)

Module PipelineExtra.
Import Http Pipeline Cors Routes PipelineFacts.
Local Open Scope list_scope.
Local Open Scope Z_scope.

Arguments buildChain : simpl never.



Lemma handleCors_allowOrigin setting reqHeaders response :
  r_headers (handleCors setting reqHeaders response) !! allowOrigin
  = match getAllowedOrigin (default "*" (reqHeaders !! "Origin"))
            (corsOptionsOf setting) with
    | Some o => if JsString.truthy o then Some o
                else r_headers response !! allowOrigin
    | None => r_headers response !! allowOrigin
    end.
Proof.
  unfold handleCors. cbn [r_headers].
  set (h1 := match getAllowedOrigin _ _ with Some _ => _ | None => _ end).
  transitivity (h1 !! allowOrigin).
  { destruct (co_maxAge _) as [n|]; [destruct (n =? 0)|];
      destruct (co_exposedHeaders _); destruct (co_credentials _);
      rewrite ?lookup_insert_ne by done; done. }
  subst h1. destruct (getAllowedOrigin _ _) as [o|]; [|done].
  destruct (JsString.truthy o); [by rewrite lookup_insert_eq | done].
Qed.

Lemma includes_elem_of xs x : includes xs x = true -> x ∈ xs.
Proof.
  unfold includes. intros H. apply existsb_exists in H as (y & Hy & He).
  apply String.eqb_eq in He as ->. by apply list_elem_of_In.
Qed.

(** X9. Which origin [handleCors] allows.  On a response that carries
    no [Access-Control-Allow-Origin] yet, the header it writes is never
    empty and is: the configured string; or the [Origin] of the request
    ([*] when the request has none), and then only when that origin is
    in the configured list, or accepted by the configured function, or
    no origin is configured or it is [true].  With [origin: false]
    nothing is written. *)
Theorem handleCors_allowed_origin setting reqHeaders response v :
  r_headers response !! allowOrigin = None ->
  r_headers (handleCors setting reqHeaders response) !! allowOrigin = Some v ->
  let origin := default "*" (reqHeaders !! "Origin") in
  v <> ""
  /\ match co_origin (corsOptionsOf setting) with
     | OriginUnset | OriginBool true => v = origin
     | OriginBool false => False
     | OriginString s => v = s
     | OriginList xs => v = origin /\ v ∈ xs
     | OriginFn f => v = origin /\ f v = true
     end.
Proof.
  intros Hnone Hv origin. rewrite handleCors_allowOrigin, Hnone in Hv.
  fold origin in Hv. unfold getAllowedOrigin in Hv.
  destruct (co_origin (corsOptionsOf setting)) as [|[]|s|xs|f]; try done.
  - destruct (JsString.truthy origin) eqn:Ht; [|done].
    injection Hv as <-. split; [by destruct origin | done].
  - destruct (JsString.truthy origin) eqn:Ht; [|done].
    injection Hv as <-. split; [by destruct origin | done].
  - destruct (JsString.truthy s) eqn:Ht; [|done].
    injection Hv as <-. split; [by destruct s | done].
  - destruct (includes xs origin) eqn:Hi; [|done].
    destruct (JsString.truthy origin) eqn:Ht; [|done].
    injection Hv as <-. split; [by destruct origin|].
    split; [done | by apply includes_elem_of].
  - destruct (f origin) eqn:Hf; [|done].
    destruct (JsString.truthy origin) eqn:Ht; [|done].
    injection Hv as <-. split; [by destruct origin | done].
Qed.

Section Facts.

Variable capturedStack : option string.
Variable regexTest : string -> string -> bool.

(** X10. A request for which no route is found is answered by
    [handleException] with the [NotFoundException] whose message names
    the method and the path after the global prefix was cut off, and
    nothing of the pipeline runs.  When no filter answers, the status is
    404, the body carries [statusCode] and that message, and the only
    header is the JSON content type: CORS headers are not added to it. *)
Theorem unmatched_route_is_404 app opts router request env st :
  (bool_decide (is_Some (cors opts)) && String.eqb (req_method request) "OPTIONS")%bool
    = false ->
  let path := stripPrefix opts (req_pathname request) in
  let message := ("Cannot " ++ req_method request ++ " " ++ path)%string in
  RadixRouter.matchRoute regexTest router (req_method request) path = None ->
  handleRequest capturedStack regexTest app opts router request env st
  = (Returned (handleException capturedStack app
                 (ErrHttp (NotFoundException capturedStack message)) env), st)
  /\ (tryFilters (globalFilters app)
        (ErrHttp (NotFoundException capturedStack message)) = None ->
      forall response,
        handleRequest capturedStack regexTest app opts router request env st
        = (Returned response, st) ->
        r_status response = 404
        /\ r_headers response = jsonHeaders
        /\ bodyField "statusCode" response = Some (JNum 404)
        /\ bodyField "message" response = Some (JStr message)).
Proof.
  intros Hpre path message Hmatch.
  assert (Heq : handleRequest capturedStack regexTest app opts router request
                  env st
                = (Returned (handleException capturedStack app
                     (ErrHttp (NotFoundException capturedStack message)) env),
                   st)).
  { unfold handleRequest. rewrite Hpre. fold path. by rewrite Hmatch. }
  split; [exact Heq|].
  intros Hfilters response Hresp. rewrite Heq in Hresp.
  injection Hresp as <-.
  unfold handleException. rewrite Hfilters.
  unfold errorToResponse, NotFoundException.
  cbn [toHttpException ex_stack ex_status ex_response].
  destruct (isDev env); [destruct (stackTruthy capturedStack)|];
    by repeat split.
Qed.

(** X11. A guard that throws ends the guard loop like one that
    denies, but with its own exception: the guards before it were asked,
    no later guard, no interceptor and not the handler.  When a filter
    answers, or [new Response] accepts the status of the exception with
    a body, [handleRequest] answers with what [handleException] makes of
    that exception: without a filter that answers, a response with the
    status of the exception (500 when it is not an [HttpException]), not
    with 403. *)
Theorem guard_exception_propagates app opts router request env m
    pre g post e st :
  (bool_decide (is_Some (cors opts)) && String.eqb (req_method request) "OPTIONS")%bool
    = false ->
  RadixRouter.matchRoute regexTest router (req_method request)
    (stripPrefix opts (req_pathname request)) = Some m ->
  globalGuards app ++ h_guards (RadixRouter.handler m) = pre ++ g :: post ->
  Forall allows pre ->
  canActivate g = GuardThrows e ->
  executePipeline capturedStack app (RadixRouter.handler m) st
  = (Thrown e, addTrace (guardCalls (pre ++ [g])) st)
  /\ (is_Some (tryFilters (globalFilters app) e)
      \/ statusTakesBody (ex_status (toHttpException capturedStack e)) = true ->
      handleRequest capturedStack regexTest app opts router request env st
      = (Returned (handleException capturedStack app e env),
         addTrace (guardCalls (pre ++ [g])) st))
  /\ (tryFilters (globalFilters app) e = None ->
      statusTakesBody (ex_status (toHttpException capturedStack e)) = true ->
      r_status (handleException capturedStack app e env)
      = ex_status (toHttpException capturedStack e)
      /\ match e with
         | ErrHttp e' => toHttpException capturedStack e = e'
         | _ => ex_status (toHttpException capturedStack e) = 500
         end).
Proof.
  intros Hpre Hmatch Hsplit Hallow Hg.
  assert (Hp : executePipeline capturedStack app (RadixRouter.handler m) st
               = (Thrown e, addTrace (guardCalls (pre ++ [g])) st)).
  { unfold executePipeline. rewrite Hsplit.
    rewrite runGuards_allowed by done. cbn [runGuards]. rewrite Hg.
    f_equal. unfold guardCalls. rewrite map_app. cbn [map].
    unfold addTrace, emit. cbn [chainIndex trace]. by rewrite <- app_assoc. }
  split; [exact Hp|]. split.
  - intros _. unfold handleRequest. by rewrite Hpre, Hmatch, Hp.
  - intros Hnone Hok.
    destruct (handleException_body capturedStack app e env Hnone) as (Hst & _).
    split; [exact Hst | by destruct e].
Qed.

(** *** Interceptors that do not call [next.handle()], or call it twice *)

(** Below [outer] recording interceptors sits an interceptor that
    returns [v] without calling [next.handle()]. *)
Lemma buildChain_short_circuit v sc handler inner :
  intercept sc = Return v ->
  forall outer post (fuel : nat) tr,
    (length outer < fuel)%nat ->
    buildChain capturedStack fuel
      (inner ++ sc :: map recorder outer ++ post) handler
      (mkState (Z.of_nat (length inner + length outer)) tr)
    = (Returned v,
       mkState (Z.of_nat (length inner) - 1)
         (tr ++ befores (rev outer) ++ afters outer)).
Proof.
  intros Hsc.
  induction outer as [|x outer IH] using rev_ind; intros post fuel tr Hfuel.
  - destruct fuel as [|fuel]; [cbn in Hfuel; lia|].
    rewrite buildChain_S. cbn [chainIndex length].
    rewrite Nat.add_0_r.
    destruct (Z.ltb_spec (Z.of_nat (length inner)) 0) as [?|_]; [lia|].
    rewrite Nat2Z.id. cbn [map app].
    rewrite list_lookup_middle by done.
    rewrite Hsc. cbn [runIntercept]. unfold setChainIndex.
    cbn [chainIndex trace befores afters rev map app]. by rewrite app_nil_r.
  - destruct fuel as [|fuel]; [lia|].
    rewrite length_app in *. cbn [length] in *.
    rewrite buildChain_S. cbn [chainIndex].
    destruct (Z.ltb_spec (Z.of_nat (length inner + (length outer + 1))) 0)
      as [?|_]; [lia|].
    rewrite Nat2Z.id.
    assert (Hlook : (inner ++ sc :: map recorder (outer ++ [x]) ++ post)
                      !! (length inner + (length outer + 1))%nat
                    = Some (recorder x)).
    { rewrite lookup_app_r by lia.
      replace (length inner + (length outer + 1) - length inner)%nat
        with (S (length outer)) by lia.
      change ((map recorder (outer ++ [x]) ++ post) !! length outer
              = Some (recorder x)).
      rewrite map_app. cbn [map]. rewrite <- app_assoc. cbn [app].
      apply list_lookup_middle. by rewrite length_map. }
    rewrite Hlook. unfold setChainIndex. cbn [chainIndex trace].
    cbn [recorder intercept runIntercept].
    unfold emit at 1. cbn [chainIndex trace].
    replace (Z.of_nat (length inner + (length outer + 1)) - 1)
      with (Z.of_nat (length inner + length outer)) by lia.
    rewrite map_app. cbn [map]. rewrite <- app_assoc. cbn [app].
    rewrite (IH (recorder x :: post)) by lia.
    cbn [runIntercept]. unfold emit. cbn [chainIndex trace].
    f_equal. f_equal. unfold befores, afters.
    rewrite rev_app_distr, !map_app. cbn [rev map app].
    by rewrite <- !app_assoc.
Qed.

(** X12. An interceptor that returns a value without calling
    [next.handle()] (a cache hit) cuts the chain: the interceptors
    registered after it, which wrap it, still run around it, but the
    interceptors registered before it and the handler do not run.  Its
    value becomes the response, when [new Response] accepts the status
    code of the route for it. *)
Theorem interceptor_without_handle_skips_handler app handler v sc inner outer st :
  Forall allows (globalGuards app ++ h_guards handler) ->
  globalInterceptors app ++ h_interceptors handler
    = inner ++ sc :: map recorder outer ->
  intercept sc = Return v ->
  let events :=
    guardCalls (globalGuards app ++ h_guards handler)
      ++ befores (rev outer) ++ afters outer in
  snd (executePipeline capturedStack app handler st)
  = mkState (Z.of_nat (length inner) - 1) (trace st ++ events)
  /\ (HandlerInvoked ∉ events)
  /\ (resultAccepted v handler = true ->
      fst (executePipeline capturedStack app handler st)
      = Returned (resultToResponse v handler)).
Proof.
  intros Hallow Hsplit Hsc events.
  assert (Hrun : executePipeline capturedStack app handler st
                 = (Returned (resultToResponse v handler),
                    mkState (Z.of_nat (length inner) - 1) (trace st ++ events))).
  { unfold executePipeline.
    pose proof (runGuards_allowed capturedStack
                  (globalGuards app ++ h_guards handler) [] st Hallow) as Hg.
    rewrite app_nil_r in Hg. rewrite Hg. cbn [runGuards].
    rewrite Hsplit.
    pose proof (buildChain_short_circuit v sc handler inner Hsc outer []
                  (S (length (inner ++ sc :: map recorder outer)))
                  (trace st ++ guardCalls (globalGuards app ++ h_guards handler)))
      as Hb.
    rewrite app_nil_r in Hb.
    unfold setChainIndex, addTrace. cbn [chainIndex trace].
    replace (Z.of_nat (length (inner ++ sc :: map recorder outer)) - 1)
      with (Z.of_nat (length inner + length outer))
      by (rewrite length_app; cbn [length]; rewrite length_map; lia).
    rewrite Hb.
    + subst events. by rewrite <- !app_assoc.
    + rewrite length_app. cbn [length]. rewrite length_map. lia. }
  rewrite Hrun. split; [done|]. split; [|done].
  subst events. unfold guardCalls, befores, afters.
  rewrite !elem_of_app, !list_elem_of_fmap.
  intros [(g & Hg & _) | [(x & Hx & _) | (x & Hx & _)]]; discriminate.
Qed.

(** Recording interceptors around a handler that throws *)
Lemma buildChain_recorders_throw e handler pre :
  h_method handler = Some (MethodThrows e) ->
  forall post tr,
    buildChain capturedStack (S (length pre)) (map recorder pre ++ post)
      handler (mkState (Z.of_nat (length pre) - 1) tr)
    = (Thrown e,
       mkState (-1) (tr ++ befores (rev pre) ++ [HandlerInvoked])).
Proof.
  intros Hm.
  induction pre as [|x pre IH] using rev_ind; intros post tr.
  - rewrite buildChain_S. cbn. unfold executeHandler. rewrite Hm. reflexivity.
  - rewrite length_app. cbn [length].
    replace (length pre + 1)%nat with (S (length pre)) by lia.
    rewrite buildChain_S. cbn [chainIndex].
    destruct (Z.ltb_spec (Z.of_nat (S (length pre)) - 1) 0) as [?|_]; [lia|].
    replace (Z.to_nat (Z.of_nat (S (length pre)) - 1)) with (length pre) by lia.
    rewrite map_app. cbn [map]. rewrite <- app_assoc. cbn [app].
    rewrite (list_lookup_middle (map recorder pre) post (recorder x))
      by (by rewrite length_map).
    unfold setChainIndex. cbn [chainIndex trace].
    replace (Z.of_nat (S (length pre)) - 1 - 1) with (Z.of_nat (length pre) - 1) by lia.
    cbn [recorder intercept runIntercept].
    unfold emit at 1. cbn [chainIndex trace].
    rewrite (IH (recorder x :: post)).
    cbn [runIntercept]. f_equal. f_equal.
    unfold befores.
    rewrite rev_app_distr, !map_app. cbn [rev map app].
    by rewrite <- !app_assoc.
Qed.

(** [try { return await next.handle() } catch { return await next.handle() }] *)
Definition retryOnce : Interceptor :=
  mkInterceptor "retry"
    (Handle (fun v => Return v)
       (fun _ => Handle (fun v => Return v) (fun e => Throw e))).

(** X13. The position in the chain is one counter shared by all calls
    of [next.handle()] of a request.  When the outermost interceptor
    calls [next.handle()] a second time after the first call has failed,
    the second call goes straight to the handler: the interceptors
    inside it are not entered again. *)
Theorem second_handle_call_skips_interceptors inner e handler st :
  h_method handler = Some (MethodThrows e) ->
  h_guards handler = [] ->
  h_interceptors handler = map recorder inner ++ [retryOnce] ->
  executePipeline capturedStack noEnhancers handler st
  = (Thrown e,
     mkState (-1)
       (trace st ++ befores (rev inner) ++ [HandlerInvoked; HandlerInvoked])).
Proof.
  intros Hm Hg Hi. unfold executePipeline.
  cbn [noEnhancers globalGuards globalInterceptors app].
  rewrite Hg, Hi. cbn [runGuards].
  rewrite length_app, length_map. cbn [length].
  rewrite buildChain_S. unfold setChainIndex. cbn [chainIndex trace].
  destruct (Z.ltb_spec (Z.of_nat (length inner + 1) - 1) 0) as [?|_]; [lia|].
  rewrite (list_lookup_middle (map recorder inner) [] retryOnce)
    by (rewrite length_map; lia).
  cbn [retryOnce intercept runIntercept].
  replace (Z.of_nat (length inner + 1) - 1 - 1) with (Z.of_nat (length inner) - 1)
    by lia.
  replace (length inner + 1)%nat with (S (length inner)) by lia.
  rewrite (buildChain_recorders_throw e handler inner Hm [retryOnce] (trace st)).
  rewrite buildChain_S. cbn [chainIndex Z.ltb Z.compare].
  unfold executeHandler. rewrite Hm. cbn [runIntercept].
  unfold emit. cbn [chainIndex trace]. f_equal. f_equal.
  by rewrite <- !app_assoc.
Qed.

(** X14. [handleException] asks the global filters in the order in
    which they were registered and answers with what the first one
    returns whose [catch] does not throw; later filters are not asked,
    and neither the kind of error nor the environment is looked at. *)
Theorem first_filter_that_answers_wins app pre f post error env response :
  globalFilters app = pre ++ f :: post ->
  Forall (fun f' => catch f' error = None) pre ->
  catch f error = Some response ->
  handleException capturedStack app error env = response.
Proof.
  intros Hsplit Hpre Hf. unfold handleException. rewrite Hsplit.
  clear Hsplit. induction Hpre as [|f' pre Hf' _ IH]; cbn [List.app tryFilters].
  - by rewrite Hf.
  - by rewrite Hf'.
Qed.

(** X15. The [Retry-After] header of a [TooManyRequestsException]
    (status 429) is written by its own [toResponse]: [String(retryAfter)],
    the digits of the number when it is a safe integer.  In a development
    environment, when the exception has a stack, [errorToResponse] builds
    the response itself and the header is lost. *)
Theorem retry_after_lost_with_stack app e n stack env :
  globalFilters app = [] ->
  ex_status e = 429 ->
  ex_retryAfter e = Some (Some n) ->
  n <> 0 ->
  stackTruthy (ex_stack e) = Some stack ->
  (isDev env = false ->
   isSafeInteger n = true ->
   r_headers (handleException capturedStack app (ErrHttp e) env) !! "Retry-After"
   = Some (numberToString n))
  /\ (isDev env = true ->
      r_headers (handleException capturedStack app (ErrHttp e) env) !! "Retry-After"
      = None
      /\ r_status (handleException capturedStack app (ErrHttp e) env) = 429).
Proof.
  intros Hf Hst Hr Hn Hs. unfold handleException. rewrite Hf. cbn [tryFilters].
  unfold errorToResponse. cbn [toHttpException]. split.
  - intros -> _. unfold toResponse. rewrite Hr.
    destruct (Z.eqb_spec n 0) as [?|_]; [done|].
    cbn [r_headers]. by rewrite lookup_insert_eq.
  - intros ->. rewrite Hs. rewrite <- Hst. by destruct (ex_response e).
Qed.

(** *** The global prefix *)

Lemma stripPrefix_app c p rest :
  JsString.truthy p = true ->
  stripPrefix (mkOptions c (Some p)) (p ++ rest)
  = if JsString.truthy rest then rest else "/".
Proof.
  intros Hp. unfold stripPrefix. cbn [globalPrefix].
  by rewrite Hp, RouterExtra.startsWith_app, RouterExtra.slice_from_app.
Qed.

(** X16. With a global prefix, [handleRequest] cuts the prefix off the
    start of the path, wherever the prefix ends in it (not only at a
    slash), and looks up what is left, or [/] when nothing is left: the
    request is handled as the request for that rest is handled without
    a prefix. *)
Theorem global_prefix_cut_without_boundary app setting reqHeaders router
    method p rest env st :
  JsString.truthy p = true ->
  let rest' := if JsString.truthy rest then rest else "/" in
  stripPrefix (mkOptions (corsOption setting reqHeaders) (Some p))
    (p ++ rest) = rest'
  /\ handleRequest capturedStack regexTest app
       (mkOptions (corsOption setting reqHeaders) (Some p)) router
       (mkRequest method (p ++ rest)) env st
     = handleRequest capturedStack regexTest app
         (mkOptions (corsOption setting reqHeaders) None) router
         (mkRequest method rest') env st.
Proof.
  intros Hp rest'. split; [by apply stripPrefix_app|].
  unfold handleRequest. cbn [cors req_method req_pathname].
  rewrite stripPrefix_app by done. fold rest'.
  unfold stripPrefix at 2. cbn [globalPrefix].
  unfold applyCors. cbn [cors]. by destruct setting.
Qed.

Lemma routeFullPath_prefix a b :
  routeFullPath (Some ("/" ++ a)%string) None "" ("/" ++ b)
  = ("/" ++ JsString.joinSlash [a; b])%string.
Proof. destruct b; reflexivity. Qed.

(** X17. [registerRoutes] registers a route under the global prefix,
    and [handleRequest] cuts the global prefix off the request path
    before it looks the route up.  So with the prefix [/a] set when the
    routes are registered, the route [/b] is not found under [/a/b] (the
    request is answered 404 for [/b]); it is found under [/a/a/b]. *)
Theorem prefixed_route_found_under_doubled_prefix app method
    (h : RouteHandler) a b env st :
  RouterExtra.isSegment a -> RouterExtra.isSegment b ->
  RadixRouter.p_type (RadixRouter.parseSegment a) = RadixRouter.static ->
  RadixRouter.p_type (RadixRouter.parseSegment b) = RadixRouter.static ->
  JsString.startsWith b a = false ->
  let prefix := ("/" ++ a)%string in
  let opts := mkOptions None (Some prefix) in
  let router :=
    RadixRouter.register RadixRouter.newRouter method
      (routeFullPath (Some prefix) None "" ("/" ++ b)) h in
  handleRequest capturedStack regexTest app opts router
    (mkRequest method (prefix ++ "/" ++ b)) env st
  = (Returned (handleException capturedStack app
                 (ErrHttp (NotFoundException capturedStack
                             ("Cannot " ++ method ++ " /" ++ b))) env), st)
  /\ RadixRouter.matchRoute regexTest router method
       (stripPrefix opts (prefix ++ prefix ++ "/" ++ b))
     = Some (RadixRouter.mkMatch h ∅).
Proof.
  intros Ha Hb Hsa Hsb Hba prefix opts router.
  assert (Hp : JsString.truthy prefix = true) by done.
  assert (Hsegs : RadixRouter.splitPath (RadixRouter.normalizePath
                    (routeFullPath (Some prefix) None "" ("/" ++ b)))
                  = [a; b]).
  { subst prefix. rewrite routeFullPath_prefix.
    apply RouterExtra.segments_of_joined.
    apply Forall_cons; split; [done|]. by apply Forall_singleton. }
  split.
  - unfold handleRequest. cbn [cors req_method req_pathname andb bool_decide].
    rewrite bool_decide_eq_false_2 by (by intros [? ?]). cbn [andb].
    subst opts. rewrite stripPrefix_app by done.
    change (JsString.truthy ("/" ++ b)) with true. cbn iota.
    assert (Hnone : RadixRouter.matchRoute regexTest router method ("/" ++ b)
                    = None).
    { unfold RadixRouter.matchRoute. subst router.
      unfold RadixRouter.register, RadixRouter.newRouter.
      cbn [RadixRouter.root]. rewrite Hsegs.
      change ("/" ++ b)%string with ("/" ++ JsString.joinSlash [b])%string.
      rewrite (RouterExtra.segments_of_joined [b]) by (by apply Forall_singleton).
      cbn [RadixRouter.insertSegments]. unfold RadixRouter.insertSegment at 1.
      cbv zeta. rewrite Hsa.
      cbn [RadixRouter.createNode RadixRouter.children]. rewrite lookup_empty.
      cbn [RadixRouter.matchPath].
      unfold RadixRouter.staticStage, RadixRouter.regexStage,
        RadixRouter.paramStage, RadixRouter.wildcardStage.
      cbn [RadixRouter.children RadixRouter.set_children
           RadixRouter.paramChild RadixRouter.wildcardChild].
      destruct (decide (JsString.firstCharOf a = JsString.firstCharOf b))
        as [->|Hne].
      - rewrite lookup_insert_eq.
        rewrite !(proj1 (RouterExtra.insertSegment_keeps _ _ _)).
        cbn [RadixRouter.segment RadixRouter.createNode]. by rewrite Hba.
      - by rewrite lookup_insert_ne, lookup_empty. }
    by rewrite Hnone.
  - subst opts. rewrite stripPrefix_app by done.
    change (JsString.truthy (prefix ++ "/" ++ b)) with true. cbn iota.
    unfold RadixRouter.matchRoute. subst router.
    unfold RadixRouter.register, RadixRouter.newRouter.
    cbn [RadixRouter.root]. rewrite Hsegs.
    change (prefix ++ "/" ++ b)%string
      with ("/" ++ JsString.joinSlash [a; b])%string.
    rewrite (RouterExtra.segments_of_joined [a; b])
      by (apply Forall_cons; split; [done|]; by apply Forall_singleton).
    rewrite (RouterExtra.matchPath_fresh regexTest method h method
               (or_introl eq_refl) [a; b] [a; b] RadixRouter.static "" None ∅ ∅);
      [done|].
    cbn [RouterExtra.routeBind]. cbv zeta.
    by rewrite Hsa, Hsb, !String.eqb_refl.
Qed.

End Facts.

Lemma handleCors_allowed_origin_witness :
  let setting :=
    CorsObject (mkCors (OriginList ["https://a.example"; "https://b.example"])
                  None None None true None) in
  let r := handleCors setting {["Origin" := "https://b.example"]}
             (mkResponse 200 jsonHeaders BodyNull) in
  r_headers r !! allowOrigin = Some "https://b.example"
  /\ "https://b.example" ∈ ["https://a.example"; "https://b.example"].
Proof.
  intros setting r.
  assert (Hv : r_headers r !! allowOrigin = Some "https://b.example")
    by (vm_compute; reflexivity).
  split; [exact Hv|].
  pose proof (handleCors_allowed_origin setting
                {["Origin" := "https://b.example"]}
                (mkResponse 200 jsonHeaders BodyNull) "https://b.example"
                eq_refl Hv) as H.
  cbn in H. exact (proj2 (proj2 H)).
Defined.

Lemma unmatched_route_is_404_witness :
  handleRequest None (fun _ _ => true) noEnhancers (mkOptions None (Some "/api"))
    RadixRouter.newRouter (mkRequest "GET" "/api/users") None (mkState 0 [])
  = (Returned (handleException None noEnhancers
                 (ErrHttp (NotFoundException None "Cannot GET /users")) None),
     mkState 0 []).
Proof.
  apply (unmatched_route_is_404 None (fun _ _ => true) noEnhancers
           (mkOptions None (Some "/api")) RadixRouter.newRouter
           (mkRequest "GET" "/api/users") None (mkState 0 [])).
  - reflexivity.
  - vm_compute. reflexivity.
Defined.

(** [canActivate] throws an [UnauthorizedException] *)
Definition unauthorized : JsError :=
  ErrHttp (mkHttpException "UnauthorizedException" 401
             (RespString "Unauthorized") None None).

Lemma guard_exception_propagates_witness :
  let handler :=
    mkRouteHandler "list" (Some (MethodReturns VNull)) None ∅
      [mkGuard "jwt" (GuardThrows unauthorized); allowGuard "roles"]
      [recorder "A"] in
  let router := RadixRouter.register RadixRouter.newRouter "GET" "/users" handler in
  handleRequest None (fun _ _ => true)
    (mkApplication [allowGuard "global"] [] []) (mkOptions None None) router
    (mkRequest "GET" "/users") None (mkState 0 [])
  = (Returned (handleException None (mkApplication [allowGuard "global"] [] [])
                 unauthorized None),
     mkState 0 [CanActivate "global"; CanActivate "jwt"])
  /\ r_status (handleException None (mkApplication [allowGuard "global"] [] [])
                unauthorized None) = 401.
Proof.
  intros handler router.
  destruct (guard_exception_propagates None (fun _ _ => true)
              (mkApplication [allowGuard "global"] [] []) (mkOptions None None)
              router (mkRequest "GET" "/users") None
              (RadixRouter.mkMatch handler ∅)
              [allowGuard "global"] (mkGuard "jwt" (GuardThrows unauthorized))
              [allowGuard "roles"] unauthorized (mkState 0 []))
    as (_ & Hreq & Hstatus).
  - reflexivity.
  - vm_compute. reflexivity.
  - reflexivity.
  - repeat constructor.
  - reflexivity.
  - split.
    + apply Hreq. right. reflexivity.
    + apply Hstatus; reflexivity.
Defined.

(** A cache hit *)
Definition cached (v : JsValue) : Interceptor := mkInterceptor "cache" (Return v).

Lemma interceptor_without_handle_skips_handler_witness :
  executePipeline None noEnhancers
    (mkRouteHandler "get" (Some (MethodReturns (VString "fresh"))) None ∅ []
       [recorder "inner"; cached (VString "hit"); recorder "log"])
    (mkState 0 [])
  = (Returned (mkResponse 200
                 (<["Content-Type" := "text/plain"]> (∅ ∪ jsonHeaders))
                 (BodyText "hit")),
     mkState 0 [Before "log"; After "log"]).
Proof.
  destruct (interceptor_without_handle_skips_handler None noEnhancers
              (mkRouteHandler "get" (Some (MethodReturns (VString "fresh"))) None ∅ []
                 [recorder "inner"; cached (VString "hit"); recorder "log"])
              (VString "hit") (cached (VString "hit")) [recorder "inner"] ["log"]
              (mkState 0 [])) as (Hstate & _ & Hresult).
  - constructor.
  - reflexivity.
  - reflexivity.
  - specialize (Hresult eq_refl).
    destruct (executePipeline _ _ _ _) as [result state].
    cbn [fst snd] in Hstate, Hresult. by rewrite Hstate, Hresult.
Defined.

Lemma second_handle_call_skips_interceptors_witness :
  executePipeline None noEnhancers
    (mkRouteHandler "get" (Some (MethodThrows (ErrOther "boom"))) None ∅ []
       [recorder "A"; recorder "B"; retryOnce])
    (mkState 0 [])
  = (Thrown (ErrOther "boom"),
     mkState (-1) [Before "B"; Before "A"; HandlerInvoked; HandlerInvoked]).
Proof.
  apply (second_handle_call_skips_interceptors None ["A"; "B"] (ErrOther "boom")
           (mkRouteHandler "get" (Some (MethodThrows (ErrOther "boom"))) None ∅ []
              [recorder "A"; recorder "B"; retryOnce])
           (mkState 0 [])); reflexivity.
Defined.

Lemma first_filter_that_answers_wins_witness :
  let teapot := mkResponse 418 ∅ (BodyText "teapot") in
  let skip := mkFilter (fun _ => None) in
  let answer := mkFilter (fun _ => Some teapot) in
  let late := mkFilter (fun _ => Some (mkResponse 500 ∅ BodyNull)) in
  handleException None (mkApplication [] [] [skip; answer; late])
    (ErrOther "boom") None
  = teapot.
Proof.
  intros teapot skip answer late.
  apply (first_filter_that_answers_wins None
           (mkApplication [] [] [skip; answer; late]) [skip] answer [late]
           (ErrOther "boom") None teapot).
  - reflexivity.
  - repeat constructor.
  - reflexivity.
Defined.

Lemma retry_after_lost_with_stack_witness :
  let e := mkHttpException "TooManyRequestsException" 429
             (RespString "Too Many Requests") (Some "at limiter") (Some (Some 30)) in
  let dev : option JsObject := Some {["ENVIRONMENT" := JStr "development"]} in
  (isDev None = false ->
   r_headers (handleException None noEnhancers (ErrHttp e) None) !! "Retry-After"
   = Some (numberToString 30))
  /\ (isDev dev = true ->
      r_headers (handleException None noEnhancers (ErrHttp e) dev) !! "Retry-After"
      = None
      /\ r_status (handleException None noEnhancers (ErrHttp e) dev) = 429).
Proof.
  intros e dev. split.
  - intros Hdev.
    apply (retry_after_lost_with_stack None noEnhancers e 30 "at limiter" None);
      [reflexivity | reflexivity | reflexivity | lia | reflexivity
      | exact Hdev | reflexivity].
  - apply (retry_after_lost_with_stack None noEnhancers e 30 "at limiter" dev);
      [reflexivity | reflexivity | reflexivity | lia | reflexivity].
Defined.

Lemma global_prefix_cut_without_boundary_witness :
  stripPrefix (mkOptions (corsOption None ∅) (Some "/api")) ("/api" ++ "ary")
  = "ary"
  /\ handleRequest None (fun _ _ => true) noEnhancers
       (mkOptions (corsOption None ∅) (Some "/api")) RadixRouter.newRouter
       (mkRequest "GET" ("/api" ++ "ary")) None (mkState 0 [])
     = handleRequest None (fun _ _ => true) noEnhancers
         (mkOptions (corsOption None ∅) None) RadixRouter.newRouter
         (mkRequest "GET" "ary") None (mkState 0 []).
Proof.
  apply (global_prefix_cut_without_boundary None (fun _ _ => true) noEnhancers
           None ∅ RadixRouter.newRouter "GET" "/api" "ary" None (mkState 0 [])).
  reflexivity.
Defined.

Lemma prefixed_route_found_under_doubled_prefix_witness :
  let h := mkRouteHandler "list" (Some (MethodReturns VNull)) None ∅ [] [] in
  let opts := mkOptions None (Some "/api") in
  let router :=
    RadixRouter.register RadixRouter.newRouter "GET"
      (routeFullPath (Some "/api") None "" "/users") h in
  handleRequest None (fun _ _ => true) noEnhancers opts router
    (mkRequest "GET" "/api/users") None (mkState 0 [])
  = (Returned (handleException None noEnhancers
                 (ErrHttp (NotFoundException None "Cannot GET /users")) None),
     mkState 0 [])
  /\ RadixRouter.matchRoute (fun _ _ => true) router "GET"
       (stripPrefix opts "/api/api/users")
     = Some (RadixRouter.mkMatch h ∅).
Proof.
  intros h opts router.
  apply (prefixed_route_found_under_doubled_prefix None (fun _ _ => true)
           noEnhancers "GET" h "api" "users" None (mkState 0 []));
    repeat constructor.
Defined.

End PipelineExtra.

(** ** More of the container *)

Module DIExtra.
Import DI DIFacts ContainerApi.
Local Open Scope list_scope.
Local Open Scope di_scope.

(** Parents are created before their children. *)
Definition wellFormed (w : World) : Prop :=
  forall i c p, containers w !! i = Some c -> parent c = Some p -> p < i.

Lemma hasFrom_spec fuel cs tok :
  forall cid,
    hasFrom fuel cs cid tok
    = bool_decide (is_Some (getProviderRecordFrom fuel cs cid tok)).
Proof.
  induction fuel as [|fuel IH]; intros cid; cbn [hasFrom getProviderRecordFrom].
  - symmetry. apply bool_decide_eq_false_2. by intros [? ?].
  - destruct (cs !! cid) as [c|]; [|symmetry; apply bool_decide_eq_false_2; by intros [? ?]].
    destruct (providers c !! tok) as [r|].
    + rewrite (bool_decide_eq_true_2 (is_Some (Some r))) by eauto.
      symmetry. apply bool_decide_eq_true_2. eauto.
    + rewrite (bool_decide_eq_false_2 (is_Some None)) by (by intros [? ?]).
      cbn [orb]. destruct (parent c); [apply IH|].
      symmetry. apply bool_decide_eq_false_2. by intros [? ?].
Qed.

Lemma has_spec w cid tok :
  has w cid tok = bool_decide (is_Some (getProviderRecord w cid tok)).
Proof. apply hasFrom_spec. Qed.

(** X18. [has(token)] is false exactly when [getProviderRecord] finds
    nothing.  Then [resolve(token)] throws the [TokenNotFoundError] of the
    token, [resolve(token, { optional: true })] returns [undefined], and
    neither of them changes anything. *)
Theorem unregistered_token_not_found fuel w cid tok :
  has w cid tok = false ->
  tok ∉ stackOf w cid ->
  getProviderRecord w cid tok = None
  /\ resolve (S fuel) cid tok false w = (Err (TokenNotFoundError tok), w)
  /\ resolve (S fuel) cid tok true w = (Ok VUndef, w)
  /\ errorMessage (TokenNotFoundError tok)
     = ("No provider found for token: " ++ getTokenName tok)%string.
Proof.
  intros Hhas Hstack. rewrite has_spec in Hhas.
  apply bool_decide_eq_false_1 in Hhas.
  assert (Hnone : getProviderRecord w cid tok = None).
  { destruct (getProviderRecord w cid tok); [|done]. destruct Hhas. eauto. }
  split; [done|].
  unfold resolve, resolveWith. cbn [resolveInternal].
  unfold resolveInternalBody, bind, gets.
  rewrite bool_decide_eq_false_2 by done. rewrite Hnone. done.
Qed.

(** *** Registration *)

Lemma getProviderRecordFrom_register fuel cs cid tok record tok' :
  tok' <> tok ->
  forall c,
    getProviderRecordFrom fuel
      (alter (fun x => setProviders x (<[tok := record]> (providers x))) cid cs)
      c tok'
    = getProviderRecordFrom fuel cs c tok'.
Proof.
  intros Hne. induction fuel as [|fuel IH]; intros c; [done|].
  cbn [getProviderRecordFrom].
  destruct (decide (c = cid)) as [->|Hc].
  - rewrite list_lookup_alter_eq.
    destruct (cs !! cid) as [x|]; [|done]. cbn.
    rewrite lookup_insert_ne by done.
    destruct (providers x !! tok'); [done|].
    destruct (parent x); [apply IH | done].
  - rewrite list_lookup_alter_ne by done.
    destruct (cs !! c) as [x|]; [|done].
    destruct (providers x !! tok'); [done|].
    destruct (parent x); [apply IH | done].
Qed.

Lemma getProviderRecordFrom_below fuel cs cid (f : Container -> Container) tok' :
  (forall i c p, cs !! i = Some c -> parent c = Some p -> p < i) ->
  forall c, c < cid ->
    getProviderRecordFrom fuel (alter f cid cs) c tok'
    = getProviderRecordFrom fuel cs c tok'.
Proof.
  intros Hwf. induction fuel as [|fuel IH]; intros c Hlt; [done|].
  cbn [getProviderRecordFrom].
  rewrite list_lookup_alter_ne by lia.
  destruct (cs !! c) as [x|] eqn:Hx; [|done].
  destruct (providers x !! tok'); [done|].
  destruct (parent x) as [p|] eqn:Hp; [|done].
  apply IH. specialize (Hwf _ _ _ Hx Hp). lia.
Qed.

Lemma register_Ok w cid p record :
  createProviderRecord p = Ok record ->
  register cid p w
  = (Ok tt,
     updContainer cid
       (fun c => setProviders c (<[getProviderToken p := record]> (providers c)))
       w).
Proof. intros Hrec. unfold register. by rewrite Hrec. Qed.

Lemma getProviderRecord_registered w cid tok record :
  is_Some (containers w !! cid) ->
  getProviderRecord
    (updContainer cid
       (fun c => setProviders c (<[tok := record]> (providers c))) w)
    cid tok
  = Some (cid, record).
Proof.
  intros [x Hx]. unfold getProviderRecord, updContainer. cbn [containers].
  cbn [getProviderRecordFrom]. rewrite list_lookup_alter_eq, Hx. cbn.
  by rewrite lookup_insert_eq.
Qed.

Lemma stackOf_updContainer cid f w c :
  (forall x, resolutionStack (f x) = resolutionStack x) ->
  stackOf (updContainer cid f w) c = stackOf w c.
Proof.
  intros Hf. unfold stackOf, updContainer. cbn [containers].
  destruct (decide (c = cid)) as [->|Hne].
  - rewrite list_lookup_alter_eq. destruct (containers w !! cid); cbn; auto.
  - by rewrite list_lookup_alter_ne.
Qed.

(** X19. [register] writes the record under the token of the provider
    in the container it is called on, where it replaces a record of the
    same token and hides what the parents hold for it.  Every other
    token is looked up as before, from every container; and, parents
    being older than their children, so is every token from the parents
    of the container. *)
Theorem register_is_local w cid p record :
  createProviderRecord p = Ok record ->
  is_Some (containers w !! cid) ->
  let tok := getProviderToken p in
  let w' := after (register cid p) w in
  register cid p w = (Ok tt, w')
  /\ getProviderRecord w' cid tok = Some (cid, record)
  /\ (forall c tok', tok' <> tok ->
        getProviderRecord w' c tok' = getProviderRecord w c tok')
  /\ (wellFormed w -> forall c tok', c < cid ->
        getProviderRecord w' c tok' = getProviderRecord w c tok').
Proof.
  intros Hrec Hx tok w'.
  assert (Hw' : w' = updContainer cid
                       (fun c => setProviders c (<[tok := record]> (providers c))) w).
  { subst w'. unfold after. by rewrite (register_Ok _ _ _ _ Hrec). }
  split; [by rewrite (register_Ok _ _ _ _ Hrec), Hw'|].
  rewrite Hw'. split; [by apply getProviderRecord_registered|].
  unfold getProviderRecord, updContainer. cbn [containers]. split.
  - intros c tok' Hne. by apply getProviderRecordFrom_register.
  - intros Hwf c tok' Hlt. by apply getProviderRecordFrom_below.
Qed.

(** X20. Round trip of [registerValue] and [resolve]: a value that is
    neither [undefined] nor a promise is returned as it was registered,
    without any factory call and without any change, from the container
    it was registered in.  [registerValue(token, undefined)] throws and
    registers nothing. *)
Theorem value_round_trip fuel w cid tok v opt :
  is_Some (containers w !! cid) ->
  v <> VUndef ->
  isPromise v = false ->
  tok ∉ stackOf w cid ->
  let w' := after (registerValue cid tok v) w in
  has w' cid tok = true
  /\ resolve (S fuel) cid tok opt w' = (Ok v, w')
  /\ (exists message,
        registerValue cid tok VUndef w = (Err (ContainerError message), w)).
Proof.
  intros Hx Hv Hp Hstack w'.
  assert (Hrec : createProviderRecord (ValueProvider tok v)
                 = Ok (mkRecord tok SINGLETON (FValue v) v true)).
  { unfold createProviderRecord. by destruct v. }
  assert (Hw' : w' = updContainer cid
            (fun c => setProviders c
               (<[tok := mkRecord tok SINGLETON (FValue v) v true]> (providers c)))
            w).
  { subst w'. unfold after, registerValue.
    by rewrite (register_Ok _ _ _ _ Hrec). }
  assert (Hfound : getProviderRecord w' cid tok
                   = Some (cid, mkRecord tok SINGLETON (FValue v) v true)).
  { rewrite Hw'. by apply getProviderRecord_registered. }
  split; [|split].
  - rewrite has_spec, Hfound. apply bool_decide_eq_true_2. eauto.
  - apply resolve_of_internal; [|done]. cbn [resolveInternal].
    rewrite resolveInternalBody_found
      with (owner := cid) (r := mkRecord tok SINGLETON (FValue v) v true).
    + cbn [scope]. unfold resolveSingleton. cbn [isResolved instance].
      by destruct v.
    + rewrite Hw'. by rewrite stackOf_updContainer.
    + done.
  - eexists. unfold registerValue, register. cbn. reflexivity.
Qed.

(** X21. Whatever a resolution does and however it ends, it leaves
    every resolution stack as it found it (the [finally] blocks pop what
    was pushed), it adds and removes no container and no registration,
    it touches the request-scoped instances of no other container, and
    it only adds to the objects and to the factory calls. *)
Theorem resolve_restores_resolution_stack fuel cid tok opt w r w' :
  resolve fuel cid tok opt w = (r, w') ->
  (forall c, stackOf w' c = stackOf w c)
  /\ length (containers w') = length (containers w)
  /\ (forall c tok', has w' c tok' = has w c tok')
  /\ (forall c, c <> cid -> scopedOf w' c = scopedOf w c)
  /\ (exists objects, heap w' = heap w ++ objects)
  /\ (exists calls, factoryCalls w' = factoryCalls w ++ calls).
Proof.
  intros Hres. pose proof (resolve_preserves _ _ _ _ _ _ _ Hres) as Hstep.
  split; [intros c; by apply (stackOf_stepRel cid)|].
  destruct Hstep as (Hconts & Hscoped & Hheap & Hcalls).
  split; [symmetry; apply Hconts|].
  split; [|split; [done|split; [exact Hheap | exact Hcalls]]].
  intros c tok'. rewrite !has_spec. unfold getProviderRecord.
  pose proof (getProviderRecordFrom_rel (S c) _ _ tok' Hconts c) as Hrel.
  destruct (getProviderRecordFrom (S c) (containers w) c tok') as [[o r0]|].
  - destruct Hrel as (r' & -> & _).
    rewrite !bool_decide_eq_true_2; eauto.
  - by rewrite Hrel.
Qed.

(** *** A provider that needs itself *)

(** The token a factory resolves first *)
Definition firstDependency (f : Factory) : option Token :=
  match f with
  | FClass cls => fst <$> head (c_dependencies cls)
  | FFactory inject _ => head inject
  | FExisting tok => Some tok
  | FValue _ => None
  end.

(** No instance is there to be returned for the token *)
Definition uncached (w : World) (cid : nat) (tok : Token) (r : ProviderRecord)
  : Prop :=
  match scope r with
  | SINGLETON => isResolved r && negb (isUndefined (instance r)) = false
  | REQUEST => scopedOf w cid !! tok = None
  | TRANSIENT => False
  end.

Lemma stackOf_pushStack w cid tok :
  is_Some (containers w !! cid) ->
  stackOf (pushStack cid tok w) cid = stackOf w cid ++ [tok].
Proof.
  intros [x Hx]. unfold stackOf, pushStack, updContainer. cbn [containers].
  by rewrite list_lookup_alter_eq, Hx.
Qed.

Lemma stackOf_popStack_pushStack w cid tok c :
  stackOf (popStack cid (pushStack cid tok w)) c = stackOf w c.
Proof.
  unfold stackOf, popStack, pushStack, updContainer. cbn [containers].
  destruct (decide (c = cid)) as [->|Hne].
  - rewrite !list_lookup_alter_eq. destruct (containers w !! cid); [|done].
    cbn. by rewrite removelast_last.
  - by rewrite !list_lookup_alter_ne.
Qed.

Lemma mapM_first_Err {A B} (f : A -> M B) x rest w e w' :
  f x w = (Err e, w') -> mapM f (x :: rest) w = (Err e, w').
Proof. intros H. cbn [mapM]. unfold bind. by rewrite H. Qed.

Lemma runFactory_first_on_stack fuel f cid tok w :
  firstDependency f = Some tok ->
  tok ∈ stackOf w cid ->
  runFactory (resolveInternal (S fuel)) f cid w
  = (Err (CircularDependencyError (stackOf w cid ++ [tok])), w).
Proof.
  intros Hfirst Hin.
  destruct f as [cls|v|inject fn|t]; cbn [firstDependency] in Hfirst.
  - destruct (c_dependencies cls) as [|[t o] rest] eqn:Hdeps; [done|].
    injection Hfirst as ->.
    cbn [runFactory]. unfold instantiateClass. rewrite Hdeps.
    unfold bind at 1.
    rewrite (mapM_first_Err _ _ _ _
               (CircularDependencyError (stackOf w cid ++ [tok])) w); [done|].
    cbn [fst snd]. by apply resolveInternal_on_stack.
  - done.
  - destruct inject as [|t rest]; [done|]. injection Hfirst as ->.
    cbn [runFactory]. unfold bind at 1.
    rewrite (mapM_first_Err _ _ _ _
               (CircularDependencyError (stackOf w cid ++ [tok])) w); [done|].
    unfold resolveWith, bind. by rewrite resolveInternal_on_stack.
  - injection Hfirst as ->. cbn [runFactory]. unfold resolveWith, bind.
    by rewrite resolveInternal_on_stack.
Qed.

(** X22. A singleton or request-scoped provider whose factory resolves
    the provider's own token first (a class whose first constructor
    parameter is the class itself, a factory that injects its own token,
    an alias of itself) is reported: [resolve] throws the
    [CircularDependencyError] whose path is the resolution stack followed
    by the token twice, and the stack is as it was afterwards. *)
Theorem self_dependency_reported fuel w cid tok opt owner r :
  getProviderRecord w cid tok = Some (owner, r) ->
  uncached w cid tok r ->
  firstDependency (factory r) = Some tok ->
  tok ∉ stackOf w cid ->
  fst (resolve (S (S fuel)) cid tok opt w)
  = Err (CircularDependencyError (stackOf w cid ++ [tok; tok]))
  /\ stackOf (snd (resolve (S (S fuel)) cid tok opt w)) cid = stackOf w cid.
Proof.
  intros Hfound Hunc Hfirst Hstack.
  pose proof (getProviderRecord_container _ _ _ _ Hfound) as Hcid.
  assert (Hrun : forall w0, stackOf w0 cid = stackOf w cid ++ [tok] ->
            runFactory (resolveInternal (S fuel)) (factory r) cid w0
            = (Err (CircularDependencyError (stackOf w cid ++ [tok; tok])), w0)).
  { intros w0 Hw0. rewrite (runFactory_first_on_stack fuel _ cid tok w0 Hfirst).
    - rewrite Hw0. by rewrite <- app_assoc.
    - rewrite Hw0. set_solver. }
  assert (Hlog : stackOf (logFactoryCall tok (pushStack cid tok w)) cid
                 = stackOf w cid ++ [tok]).
  { unfold logFactoryCall, stackOf. cbn [containers].
    by apply stackOf_pushStack. }
  assert (Hint : resolveInternal (S (S fuel)) cid tok opt w
                 = (Err (CircularDependencyError (stackOf w cid ++ [tok; tok])),
                    popStack cid (logFactoryCall tok (pushStack cid tok w)))).
  { change (resolveInternal (S (S fuel)) cid tok opt w)
      with (resolveInternalBody (resolveInternal (S fuel)) cid tok opt w).
    rewrite resolveInternalBody_found with (owner := owner) (r := r) by done.
    unfold uncached in Hunc. destruct (scope r).
    - unfold resolveSingleton. rewrite Hunc.
      unfold bind, modify, tryFinally. by rewrite (Hrun _ Hlog).
    - unfold resolveRequestScoped. unfold bind at 1. unfold gets.
      rewrite Hunc. unfold bind, modify, tryFinally. by rewrite (Hrun _ Hlog).
    - done. }
  unfold resolve, resolveWith, bind. rewrite Hint. cbn [fst snd].
  split; [done|].
  unfold logFactoryCall, popStack, pushStack, updContainer, stackOf.
  cbn [containers]. rewrite !list_lookup_alter_eq.
  destruct (containers w !! cid); [|done]. cbn. by rewrite removelast_last.
Qed.

(** *** [clear] *)

(** What [clear] does to a record *)
Definition cleared (r : ProviderRecord) : ProviderRecord :=
  if bool_decide (token r = containerToken) then r
  else mkRecord (token r) (scope r) (factory r) VUndef false.

Lemma cleared_idemp r : cleared (cleared r) = cleared r.
Proof.
  unfold cleared. destruct (bool_decide (token r = containerToken)) eqn:E.
  - by rewrite E.
  - cbn [token]. by rewrite E.
Qed.

Lemma recRel_cleared r : recRel r (cleared r).
Proof.
  unfold cleared, recRel.
  by destruct (bool_decide (token r = containerToken)).
Qed.

Lemma hasFrom_contsRel fuel cs cs' tok :
  contsRel cs cs' ->
  forall c, hasFrom fuel cs' c tok = hasFrom fuel cs c tok.
Proof.
  intros Hrel c. rewrite !hasFrom_spec.
  pose proof (getProviderRecordFrom_rel fuel _ _ tok Hrel c) as H.
  destruct (getProviderRecordFrom fuel cs c tok) as [[o r0]|].
  - destruct H as (r' & -> & _). rewrite !bool_decide_eq_true_2; eauto.
  - by rewrite H.
Qed.

(** X23. [clear] keeps every registration, every parent and every
    resolution stack; in the container it is called on it empties the
    request-scoped instances and resets every record but the one of the
    container itself to "not resolved, no instance"; other containers
    are not touched, and a second [clear] changes nothing. *)
Theorem clear_keeps_registrations w cid c :
  containers w !! cid = Some c ->
  let w' := clear cid w in
  (forall c' tok, has w' c' tok = has w c' tok)
  /\ (forall c', stackOf w' c' = stackOf w c')
  /\ scopedOf w' cid = ∅
  /\ (forall tok, recordAt w' cid tok = cleared <$> recordAt w cid tok)
  /\ (forall other, other <> cid -> containers w' !! other = containers w !! other)
  /\ clear cid w' = w'.
Proof.
  intros Hc w'. subst w'. unfold clear.
  fold cleared.
  set (f := fun x : Container =>
              mkContainer (cleared <$> providers x) (parent x)
                (resolutionStack x) ∅).
  split; [|split; [|split; [|split; [|split]]]].
  - intros c' tok. unfold has, updContainer. cbn [containers].
    apply hasFrom_contsRel. apply contsRel_alter.
    intros x Hx. split; [done|]. split; [done|].
    intros t. subst f. cbn [providers]. rewrite lookup_fmap.
    destruct (providers x !! t); constructor. apply recRel_cleared.
  - intros c'. by apply stackOf_updContainer.
  - unfold scopedOf, updContainer. cbn [containers].
    by rewrite list_lookup_alter_eq, Hc.
  - intros tok. unfold recordAt, updContainer. cbn [containers].
    rewrite list_lookup_alter_eq, Hc. cbn. by rewrite lookup_fmap.
  - intros other Hne. unfold updContainer. cbn [containers].
    by rewrite list_lookup_alter_ne.
  - unfold updContainer. cbn [containers heap factoryCalls]. f_equal.
    rewrite list_alter_alter_eq. apply list_alter_ext; [|done].
    intros x _. subst f. cbn. f_equal.
    rewrite <- map_fmap_compose. apply map_fmap_ext.
    intros i r _. apply cleared_idemp.
Qed.

Lemma recordAt_found w cid tok r :
  recordAt w cid tok = Some r -> getProviderRecord w cid tok = Some (cid, r).
Proof.
  unfold recordAt, getProviderRecord. cbn [getProviderRecordFrom].
  destruct (containers w !! cid); [|done]. by intros ->.
Qed.

(** X24. After [clear], the next [resolve] of a singleton of the
    container builds it again: the factory is called, so a class is
    constructed anew, and a value provider gives its value again. *)
Theorem clear_forces_new_instance w cid c tok r :
  containers w !! cid = Some c ->
  providers c !! tok = Some r ->
  token r <> containerToken ->
  scope r = SINGLETON ->
  tok ∉ stackOf w cid ->
  (forall fuel opt v w1,
      resolve fuel cid tok opt (clear cid w) = (Ok v, w1) ->
      exists more, factoryCalls w1 = factoryCalls w ++ tok :: more)
  /\ (forall fuel opt v,
        factory r = FValue v -> v <> VUndef -> isPromise v = false ->
        fst (resolve (S fuel) cid tok opt (clear cid w)) = Ok v).
Proof.
  intros Hc Hr Htok Hscope Hstack.
  assert (Hat : recordAt (clear cid w) cid tok
                = Some (mkRecord (token r) (scope r) (factory r) VUndef false)).
  { unfold recordAt, clear, updContainer. cbn [containers].
    rewrite list_lookup_alter_eq, Hc. cbn. rewrite lookup_fmap, Hr. cbn.
    by rewrite bool_decide_eq_false_2. }
  apply recordAt_found in Hat.
  assert (Hst : tok ∉ stackOf (clear cid w) cid).
  { unfold clear. by rewrite stackOf_updContainer. }
  split.
  - intros fuel opt v w1 Hres. apply resolve_Ok_inv in Hres as [Hint _].
    by apply (singleton_uncached_calls_factory _ _ _ _ _ _ _ _ _ Hat Hscope
                eq_refl) in Hint.
  - intros fuel opt v Hf Hv Hp. unfold resolve, resolveWith, bind.
    cbn [resolveInternal].
    rewrite resolveInternalBody_found
      with (owner := cid)
           (r := mkRecord (token r) (scope r) (factory r) VUndef false)
      by done.
    cbn [scope]. rewrite Hscope. unfold resolveSingleton.
    cbn [isResolved instance factory andb]. rewrite Hf.
    unfold bind, modify, tryFinally. cbn [runFactory ret].
    destruct v; try done.
Qed.

(** *** One singleton for all containers below its owner *)

(** A singleton that [resolve] returned is in the record of its owner. *)
Lemma singleton_Ok_cached fuel w cid tok opt owner r v w1 :
  getProviderRecord w cid tok = Some (owner, r) ->
  scope r = SINGLETON ->
  resolve fuel cid tok opt w = (Ok v, w1) ->
  v <> VUndef ->
  exists r', recordAt w1 owner tok = Some r'
             /\ scope r' = SINGLETON /\ isResolved r' = true /\ instance r' = v.
Proof.
  intros Hfound Hscope Hres Hdef.
  pose proof (resolve_preserves _ _ _ _ _ _ _ Hres) as Hstep.
  apply resolve_Ok_inv in Hres as [Hint Hp].
  destruct (resolveInternal_Ok_found _ _ _ _ _ _ _ _ _ Hint Hfound)
    as (fuel' & -> & Hst & Hrun).
  rewrite Hscope in Hrun.
  destruct (getProviderRecord_stepRel _ _ _ _ _ _ _ Hstep Hfound)
    as (r' & Hfound' & (_ & Hsc' & _)).
  exists r'. apply getProviderRecord_recordAt in Hfound'.
  split; [done|]. split; [congruence|].
  unfold resolveSingleton in Hrun.
  destruct (isResolved r && negb (isUndefined (instance r))) eqn:Hc.
  - inversion Hrun; subst.
    apply getProviderRecord_recordAt in Hfound.
    rewrite Hfound in Hfound'. inversion Hfound'; subst.
    apply andb_true_iff in Hc as [-> _]. done.
  - apply guarded_Ok_inv in Hrun as (wf & Hbody & ->).
    apply factoryStep_Ok_inv in Hbody as (w3 & _ & ->); [|done].
    rewrite recordAt_popStack, recordAt_cacheInstance in Hfound'.
    destruct (recordAt w3 owner tok); inversion Hfound'; subst. done.
Qed.

(** X25. A singleton lives in the record of the container that owns
    the registration.  Once one container has resolved it to an
    instance, every container that finds the token in the same owner (a
    child, a sibling, the owner itself) is given that instance, and
    nothing is built again. *)
Theorem singleton_shared_by_containers fuel1 fuel2 w c1 c2 tok opt1 opt2
    owner r r2 v w1 :
  getProviderRecord w c1 tok = Some (owner, r) ->
  scope r = SINGLETON ->
  getProviderRecord w c2 tok = Some (owner, r2) ->
  tok ∉ stackOf w c2 ->
  resolve fuel1 c1 tok opt1 w = (Ok v, w1) ->
  v <> VUndef ->
  resolve (S fuel2) c2 tok opt2 w1 = (Ok v, w1).
Proof.
  intros Hfound1 Hscope Hfound2 Hstack Hres Hdef.
  pose proof (resolve_preserves _ _ _ _ _ _ _ Hres) as Hstep.
  destruct (singleton_Ok_cached _ _ _ _ _ _ _ _ _ Hfound1 Hscope Hres Hdef)
    as (r' & Hat & Hsc & Hres' & Hinst).
  destruct (getProviderRecord_stepRel _ _ _ _ _ _ _ Hstep Hfound2)
    as (r2' & Hfound2' & _).
  pose proof (getProviderRecord_recordAt _ _ _ _ _ Hfound2') as Hat2.
  rewrite Hat in Hat2. injection Hat2 as <-.
  apply resolve_Ok_inv in Hres as [_ Hp].
  apply resolve_of_internal; [|done]. cbn [resolveInternal].
  rewrite resolveInternalBody_found with (owner := owner) (r := r').
  - rewrite Hsc. unfold resolveSingleton. rewrite Hres', Hinst.
    by destruct v.
  - by rewrite (stackOf_stepRel _ _ _ _ Hstep).
  - done.
Qed.

(** X26. An alias is a singleton of its own: the record that
    [registerAlias] writes has the singleton scope whatever the scope of
    the provider it names, so the instance the alias was first resolved
    to is returned from then on, also when the provider it names is
    transient. *)
Theorem alias_keeps_first_instance fuel1 fuel2 w cid tok existing opt v w1 :
  is_Some (containers w !! cid) ->
  let w0 := after (registerAlias cid tok existing) w in
  resolve fuel1 cid tok opt w0 = (Ok v, w1) ->
  v <> VUndef ->
  getProviderRecord w0 cid tok
  = Some (cid, mkRecord tok SINGLETON (FExisting existing) VUndef false)
  /\ resolve (S fuel2) cid tok opt w1 = (Ok v, w1).
Proof.
  intros Hx w0 Hres Hdef.
  assert (Hfound : getProviderRecord w0 cid tok
            = Some (cid, mkRecord tok SINGLETON (FExisting existing) VUndef false)).
  { subst w0. unfold after, registerAlias.
    rewrite (register_Ok _ _ _
               (mkRecord tok SINGLETON (FExisting existing) VUndef false))
      by done.
    by apply getProviderRecord_registered. }
  split; [done|].
  by apply (singleton_resolved_once fuel1 fuel2 w0 cid tok opt cid _ v w1 Hfound).
Qed.

(** *** Child containers *)

Lemma getProviderRecordFrom_S fuel cs cid tok :
  getProviderRecordFrom (S fuel) cs cid tok
  = match cs !! cid with
    | None => None
    | Some c =>
        match providers c !! tok with
        | Some r => Some (cid, r)
        | None =>
            match parent c with
            | Some p => getProviderRecordFrom fuel cs p tok
            | None => None
            end
        end
    end.
Proof. reflexivity. Qed.

Lemma getProviderRecordFrom_enough fuel fuel' cs tok :
  (forall i c p, cs !! i = Some c -> parent c = Some p -> p < i) ->
  forall cid, cid < fuel -> cid < fuel' ->
    getProviderRecordFrom fuel cs cid tok = getProviderRecordFrom fuel' cs cid tok.
Proof.
  intros Hwf. revert fuel'.
  induction fuel as [|fuel IH]; intros fuel' cid H1 H2; [lia|].
  destruct fuel' as [|fuel']; [lia|]. cbn [getProviderRecordFrom].
  destruct (cs !! cid) as [c|] eqn:Hc; [|done].
  destruct (providers c !! tok); [done|].
  destruct (parent c) as [p|] eqn:Hp; [|done].
  specialize (Hwf _ _ _ Hc Hp). apply IH; lia.
Qed.

Lemma getProviderRecordFrom_app fuel cs more tok :
  forall cid, cid < length cs ->
    (forall i c p, cs !! i = Some c -> parent c = Some p -> p < i) ->
    getProviderRecordFrom fuel (cs ++ more) cid tok
    = getProviderRecordFrom fuel cs cid tok.
Proof.
  induction fuel as [|fuel IH]; intros cid Hlt Hwf; [done|].
  cbn [getProviderRecordFrom]. rewrite lookup_app_l by done.
  destruct (cs !! cid) as [c|] eqn:Hc; [|done].
  destruct (providers c !! tok); [done|].
  destruct (parent c) as [p|] eqn:Hp; [|done].
  specialize (Hwf _ _ _ Hc Hp) as Hlt'. apply IH; [lia | done].
Qed.

(** X27. [createChild] adds a container whose parent is the container
    it was called on.  The child resolves [Container] to itself, and
    finds every other token exactly where its parent finds it; the
    containers that were there are as they were, and parents are still
    older than their children. *)
Theorem createChild_inherits p w :
  wellFormed w ->
  is_Some (containers w !! p) ->
  let child := fst (createChild p w) in
  let w' := snd (createChild p w) in
  child = length (containers w)
  /\ (forall tok, tok <> containerToken ->
        getProviderRecord w' child tok = getProviderRecord w p tok)
  /\ (forall fuel opt,
        resolve (S fuel) child containerToken opt w'
        = (Ok (VContainer child), w'))
  /\ (forall c tok, c < child ->
        getProviderRecord w' c tok = getProviderRecord w c tok)
  /\ wellFormed w'.
Proof.
  intros Hwf [x Hx] child w'.
  pose proof (lookup_lt_Some _ _ _ Hx) as Hp.
  subst child w'. unfold createChild, newContainer. cbn [fst snd].
  set (cs := containers w) in *.
  set (self := mkContainer _ (Some p) [] ∅).
  assert (Hself : (cs ++ [self]) !! length cs = Some self).
  { rewrite lookup_app_r by lia. by rewrite Nat.sub_diag. }
  split; [done|]. split; [|split; [|split]].
  - intros tok Hne. unfold getProviderRecord. cbn [containers].
    rewrite (getProviderRecordFrom_S (length cs) (cs ++ [self])), Hself.
    subst self. cbn [providers parent]. rewrite lookup_singleton_ne by done.
    rewrite getProviderRecordFrom_app by done.
    apply getProviderRecordFrom_enough; [done | lia | lia].
  - intros fuel opt. apply resolve_of_internal; [|done].
    cbn [resolveInternal].
    rewrite resolveInternalBody_found
      with (owner := length cs)
           (r := mkRecord containerToken SINGLETON
                   (FValue (VContainer (length cs)))
                   (VContainer (length cs)) true).
    + done.
    + unfold stackOf. cbn [containers]. rewrite Hself. subst self. cbn.
      set_solver.
    + unfold getProviderRecord. cbn [containers].
      rewrite getProviderRecordFrom_S, Hself. subst self. cbn [providers].
      by rewrite lookup_singleton_eq.
  - intros c tok Hlt. unfold getProviderRecord. cbn [containers].
    by apply getProviderRecordFrom_app.
  - intros i c q Hi Hq. cbn [containers] in Hi.
    destruct (decide (i < length cs)) as [Hlt|Hge].
    + rewrite lookup_app_l in Hi by done. by apply (Hwf i c q).
    + destruct (decide (i = length cs)) as [->|Hne].
      * rewrite Hself in Hi. injection Hi as <-. subst self.
        cbn in Hq. injection Hq as <-. done.
      * apply lookup_lt_Some in Hi. rewrite length_app in Hi. cbn in Hi. lia.
Qed.

(** *** Whose registrations a singleton is built with *)

Lemma getProviderRecordFrom_alter_same fuel cs cid (f : Container -> Container) tok :
  (forall x, providers (f x) = providers x /\ parent (f x) = parent x) ->
  forall c,
    getProviderRecordFrom fuel (alter f cid cs) c tok
    = getProviderRecordFrom fuel cs c tok.
Proof.
  intros Hf. induction fuel as [|fuel IH]; intros c; [done|].
  cbn [getProviderRecordFrom].
  destruct (decide (c = cid)) as [->|Hc].
  - rewrite list_lookup_alter_eq.
    destruct (cs !! cid) as [x|]; [|done]. cbn.
    destruct (Hf x) as [-> ->].
    destruct (providers x !! tok); [done|].
    destruct (parent x); [apply IH | done].
  - rewrite list_lookup_alter_ne by done.
    destruct (cs !! c) as [x|]; [|done].
    destruct (providers x !! tok); [done|].
    destruct (parent x); [apply IH | done].
Qed.

Lemma getProviderRecord_entered w cid tok c t :
  getProviderRecord (logFactoryCall tok (pushStack cid tok w)) c t
  = getProviderRecord w c t.
Proof.
  unfold getProviderRecord, logFactoryCall, pushStack, updContainer.
  cbn [containers]. by apply getProviderRecordFrom_alter_same.
Qed.

Lemma recordAt_entered w cid tok owner t :
  recordAt (logFactoryCall tok (pushStack cid tok w)) owner t
  = recordAt w owner t.
Proof.
  unfold recordAt, logFactoryCall, pushStack, updContainer. cbn [containers].
  destruct (decide (owner = cid)) as [->|Hne].
  - rewrite list_lookup_alter_eq. by destruct (containers w !! cid).
  - by rewrite list_lookup_alter_ne.
Qed.

(** X29. The factory of a singleton is run on the container that
    [resolve] was called on, not on the container that owns the
    registration.  So a singleton class that is owned by a parent and
    first resolved through a child is constructed with what the CHILD
    finds for its dependency (here a resolved singleton such as a value
    the child registered), and that object is cached in the parent,
    which returns it from then on. *)
Theorem singleton_built_with_resolver_registrations fuel fuel2 w cid
    tokS tokD opt opt2 optD owner rS cls ownerD rD :
  getProviderRecord w cid tokS = Some (owner, rS) ->
  scope rS = SINGLETON ->
  isResolved rS = false ->
  factory rS = FClass cls ->
  c_dependencies cls = [(tokD, optD)] ->
  getProviderRecord w cid tokD = Some (ownerD, rD) ->
  scope rD = SINGLETON ->
  isResolved rD = true ->
  instance rD <> VUndef ->
  isPromise (instance rD) = false ->
  tokD <> tokS ->
  tokS ∉ stackOf w cid ->
  tokD ∉ stackOf w cid ->
  tokS ∉ stackOf w owner ->
  let built := VObj (length (heap w)) in
  exists w1,
    resolve (S (S fuel)) cid tokS opt w = (Ok built, w1)
    /\ heap w1 = heap w ++ [(c_name cls, [instance rD])]
    /\ resolve (S fuel2) owner tokS opt2 w1 = (Ok built, w1).
Proof.
  intros HfoundS HscS HresS HfacS Hdeps HfoundD HscD HresD HdefD HpD
    Hne HstS HstD HstO built.
  pose proof (getProviderRecord_container _ _ _ _ HfoundS) as Hcid.
  set (w2 := logFactoryCall tokS (pushStack cid tokS w)).
  assert (Hdep : resolveInternal (S fuel) cid tokD optD w2
                 = (Ok (instance rD), w2)).
  { cbn [resolveInternal].
    rewrite resolveInternalBody_found with (owner := ownerD) (r := rD).
    - rewrite HscD. unfold resolveSingleton. rewrite HresD.
      by destruct (instance rD).
    - subst w2. unfold logFactoryCall, stackOf. cbn [containers].
      fold (stackOf (pushStack cid tokS w) cid).
      rewrite stackOf_pushStack by done.
      intros [H|H%list_elem_of_singleton]%elem_of_app; done.
    - subst w2. by rewrite getProviderRecord_entered. }
  set (w3 := mkWorld (containers w2) (heap w2 ++ [(c_name cls, [instance rD])])
               (factoryCalls w2)).
  assert (Hrun : runFactory (resolveInternal (S fuel)) (factory rS) cid w2
                 = (Ok built, w3)).
  { rewrite HfacS. cbn [runFactory]. unfold instantiateClass.
    rewrite Hdeps. cbn [mapM]. unfold bind. cbn [fst snd]. rewrite Hdep.
    cbn [ret existsb]. rewrite HpD. done. }
  set (w1 := popStack cid (cacheInstance owner tokS built w3)).
  assert (Hint : resolveInternal (S (S fuel)) cid tokS opt w = (Ok built, w1)).
  { change (resolveInternal (S (S fuel)) cid tokS opt w)
      with (resolveInternalBody (resolveInternal (S fuel)) cid tokS opt w).
    rewrite resolveInternalBody_found with (owner := owner) (r := rS) by done.
    rewrite HscS. unfold resolveSingleton. rewrite HresS. cbn [andb].
    unfold bind, modify, tryFinally. fold w2. by rewrite Hrun. }
  assert (Hres : resolve (S (S fuel)) cid tokS opt w = (Ok built, w1))
    by (by apply resolve_of_internal).
  exists w1. split; [exact Hres|]. split; [done|].
  pose proof (resolve_preserves _ _ _ _ _ _ _ Hres) as Hstep.
  assert (Hat : recordAt w1 owner tokS
                = Some (mkRecord (token rS) (scope rS) (factory rS) built true)).
  { subst w1. rewrite recordAt_popStack, recordAt_cacheInstance.
    assert (recordAt w3 owner tokS = recordAt w owner tokS) as ->.
    { subst w3 w2. unfold recordAt at 1. cbn [containers].
      fold (recordAt (logFactoryCall tokS (pushStack cid tokS w)) owner tokS).
      apply recordAt_entered. }
    by rewrite (getProviderRecord_recordAt _ _ _ _ _ HfoundS). }
  apply resolve_of_internal; [|done]. cbn [resolveInternal].
  rewrite resolveInternalBody_found
    with (owner := owner)
         (r := mkRecord (token rS) (scope rS) (factory rS) built true).
  - cbn [scope]. rewrite HscS. by unfold resolveSingleton.
  - by rewrite (stackOf_stepRel _ _ _ _ Hstep).
  - by apply recordAt_found.
Qed.

(** *** Enhancer classes *)

(** The object that [new cls()] adds to the world *)
Definition built (cls : ClassDef) (w : World) : Result Value * World :=
  (Ok (VObj (length (heap w))),
   mkWorld (containers w) (heap w ++ [(c_name cls, [])]) (factoryCalls w)).

Lemma resolveInternal_missing fuel cid tok w :
  getProviderRecord w cid tok = None ->
  tok ∉ stackOf w cid ->
  resolveInternal (S fuel) cid tok false w = (Err (TokenNotFoundError tok), w).
Proof.
  intros Hnone Hstack. cbn [resolveInternal].
  unfold resolveInternalBody, bind, gets.
  rewrite bool_decide_eq_false_2 by done. by rewrite Hnone.
Qed.

Lemma instantiateClass_first_missing fuel cls cid dep rest w :
  c_dependencies cls = (dep, false) :: rest ->
  getProviderRecord w cid dep = None ->
  dep ∉ stackOf w cid ->
  runFactory (resolveInternal (S fuel)) (FClass cls) cid w
  = (Err (TokenNotFoundError dep), w).
Proof.
  intros Hdeps Hnone Hstack. cbn [runFactory]. unfold instantiateClass.
  rewrite Hdeps. unfold bind at 1.
  rewrite (mapM_first_Err _ _ _ _ (TokenNotFoundError dep) w); [done|].
  cbn [fst snd]. by apply resolveInternal_missing.
Qed.

(** A registered class whose first constructor parameter is a required
    token that nobody provides: its factory is called and fails, and
    nothing but the call is left of it. *)
Lemma resolve_first_missing fuel cid cls w owner r dep rest :
  let tok := ClassToken (c_name cls) in
  getProviderRecord w cid tok = Some (owner, r) ->
  factory r = FClass cls ->
  uncached w cid tok r \/ scope r = TRANSIENT ->
  c_dependencies cls = (dep, false) :: rest ->
  getProviderRecord w cid dep = None ->
  dep <> tok ->
  tok ∉ stackOf w cid ->
  dep ∉ stackOf w cid ->
  exists w1,
    resolve (S (S fuel)) cid tok false w = (Err (TokenNotFoundError dep), w1)
    /\ heap w1 = heap w
    /\ factoryCalls w1 = factoryCalls w ++ [tok].
Proof.
  intros tok Hfound Hfac Hunc Hdeps Hnone Hne Hstack Hdstack.
  pose proof (getProviderRecord_container _ _ _ _ Hfound) as Hcid.
  assert (Hrun : forall w0,
            getProviderRecord w0 cid dep = None ->
            dep ∉ stackOf w0 cid ->
            runFactory (resolveInternal (S fuel)) (factory r) cid w0
            = (Err (TokenNotFoundError dep), w0)).
  { intros w0 H0 H1. rewrite Hfac.
    by apply instantiateClass_first_missing with (rest := rest). }
  assert (Hentered :
            runFactory (resolveInternal (S fuel)) (factory r) cid
              (logFactoryCall tok (pushStack cid tok w))
            = (Err (TokenNotFoundError dep),
               logFactoryCall tok (pushStack cid tok w))).
  { apply Hrun; [by rewrite getProviderRecord_entered|].
    unfold logFactoryCall, stackOf. cbn [containers].
    fold (stackOf (pushStack cid tok w) cid).
    rewrite stackOf_pushStack by done.
    intros [H|H%list_elem_of_singleton]%elem_of_app; done. }
  unfold resolve, resolveWith, bind.
  change (resolveInternal (S (S fuel)) cid tok false w)
    with (resolveInternalBody (resolveInternal (S fuel)) cid tok false w).
  rewrite resolveInternalBody_found with (owner := owner) (r := r) by done.
  destruct Hunc as [Hunc|Htr].
  - unfold uncached in Hunc. destruct (scope r).
    + unfold resolveSingleton. rewrite Hunc.
      unfold bind, modify, tryFinally. rewrite Hentered.
      eexists. split; [reflexivity|]. by split.
    + unfold resolveRequestScoped. unfold bind at 1. unfold gets.
      rewrite Hunc. unfold bind, modify, tryFinally. rewrite Hentered.
      eexists. split; [reflexivity|]. by split.
    + done.
  - rewrite Htr. unfold resolveTransient, bind, modify.
    rewrite Hrun.
    + eexists. split; [reflexivity|]. by split.
    + done.
    + done.
Qed.

(** The self-dependent transient of [selfTransientWorld] constructs
    nothing while it recurses. *)
Lemma selfTransient_heap fuel :
  forall w, selfTransientState w ->
    heap (snd (resolveInternal fuel 0 (ClassToken "A") false w)) = heap w.
Proof.
  induction fuel as [|fuel IH]; intros w Hstate; [done|].
  pose proof (selfTransient_diverges fuel _ (selfTransientState_log w Hstate))
    as Hdiv.
  pose proof (IH _ (selfTransientState_log w Hstate)) as Hheap.
  destruct Hstate as [Hstack Hfound]. simpl.
  erewrite resolveInternalBody_found; [|rewrite Hstack; set_solver|done].
  cbn [scope]. unfold resolveTransient, bind at 1, modify.
  cbn [factory runFactory]. unfold instantiateClass. cbn [c_dependencies mapM].
  unfold bind. cbn [fst snd].
  destruct (resolveInternal fuel 0 (ClassToken "A") false
              (logFactoryCall (ClassToken "A") w)) as [[v|e|] w'];
    simpl in Hdiv; try discriminate. exact Hheap.
Qed.

(** X28. [resolveEnhancer] returns what the container resolves the
    enhancer class to, and when [resolve] does not return, whatever the
    reason, it constructs the class with no arguments instead of
    reporting it.  So a guard, interceptor, pipe or filter class is
    built without its dependencies when it is not registered; when it is
    registered but the first parameter of its constructor is a required
    token that nobody provides (the factory has then been called once,
    and the container holds no instance); and when its resolution
    recurses without end, as for the transient class that needs
    itself. *)
Theorem unregistered_enhancer_built_without_dependencies :
  (forall fuel cid cls w v w1,
      resolve fuel cid (ClassToken (c_name cls)) false w = (Ok v, w1) ->
      resolveEnhancer fuel cid (EnhancerClass cls) w = (Ok v, w1))
  /\ (forall fuel cid cls w w1,
        (exists e, resolve fuel cid (ClassToken (c_name cls)) false w
                   = (Err e, w1))
        \/ resolve fuel cid (ClassToken (c_name cls)) false w = (Diverge, w1) ->
        resolveEnhancer fuel cid (EnhancerClass cls) w = built cls w1)
  /\ (forall fuel cid cls w,
        has w cid (ClassToken (c_name cls)) = false ->
        ClassToken (c_name cls) ∉ stackOf w cid ->
        resolveEnhancer (S fuel) cid (EnhancerClass cls) w = built cls w)
  /\ (forall fuel cid cls w owner r dep rest,
        let tok := ClassToken (c_name cls) in
        getProviderRecord w cid tok = Some (owner, r) ->
        factory r = FClass cls ->
        uncached w cid tok r \/ scope r = TRANSIENT ->
        c_dependencies cls = (dep, false) :: rest ->
        has w cid dep = false ->
        dep <> tok ->
        tok ∉ stackOf w cid ->
        dep ∉ stackOf w cid ->
        exists w1,
          resolveEnhancer (S (S fuel)) cid (EnhancerClass cls) w = built cls w1
          /\ heap w1 = heap w
          /\ factoryCalls w1 = factoryCalls w ++ [tok])
  /\ (forall fuel,
        let a := mkClass "A" [(ClassToken "A", false)] (Some TRANSIENT) in
        exists w1,
          resolveEnhancer fuel 0 (EnhancerClass a) selfTransientWorld
          = built a w1
          /\ heap w1 = []).
Proof.
  assert (Hfall : forall fuel cid cls w w1,
            (exists e, resolve fuel cid (ClassToken (c_name cls)) false w
                       = (Err e, w1))
            \/ resolve fuel cid (ClassToken (c_name cls)) false w = (Diverge, w1) ->
            resolveEnhancer fuel cid (EnhancerClass cls) w = built cls w1).
  { intros fuel cid cls w w1 [[e Hres]|Hres];
      unfold resolveEnhancer; by rewrite Hres. }
  split; [|split; [exact Hfall|split; [|split]]].
  - intros fuel cid cls w v w1 Hres. unfold resolveEnhancer. by rewrite Hres.
  - intros fuel cid cls w Hhas Hstack. apply Hfall. left.
    exists (TokenNotFoundError (ClassToken (c_name cls))).
    rewrite has_spec in Hhas. apply bool_decide_eq_false_1 in Hhas.
    unfold resolve, resolveWith, bind. rewrite resolveInternal_missing; [done| |done].
    destruct (getProviderRecord w cid (ClassToken (c_name cls))); [|done].
    destruct Hhas. eauto.
  - intros fuel cid cls w owner r dep rest tok Hfound Hfac Hunc Hdeps Hhas
      Hne Hstack Hdstack.
    rewrite has_spec in Hhas. apply bool_decide_eq_false_1 in Hhas.
    assert (Hnone : getProviderRecord w cid dep = None).
    { destruct (getProviderRecord w cid dep); [|done]. destruct Hhas. eauto. }
    destruct (resolve_first_missing fuel cid cls w owner r dep rest
                Hfound Hfac Hunc Hdeps Hnone Hne Hstack Hdstack)
      as (w1 & Hres & Hheap & Hcalls).
    exists w1. split; [|by split].
    apply Hfall. left. eauto.
  - intros fuel a.
    pose proof (selfTransient_diverges fuel _ selfTransientWorld_state) as Hdiv.
    pose proof (selfTransient_heap fuel _ selfTransientWorld_state) as Hheap.
    destruct (resolveInternal fuel 0 (ClassToken "A") false selfTransientWorld)
      as [res w1] eqn:Hint.
    cbn [fst snd] in Hdiv, Hheap. subst res.
    exists w1. split; [|exact Hheap].
    apply (Hfall fuel 0 a). right.
    unfold resolve, resolveWith, bind. cbn [c_name a]. by rewrite Hint.
Qed.

(** *** Instances of the statements above *)

Ltac empty_stack :=
  let H := fresh in intros H; vm_compute in H; inversion H.

Lemma unregistered_token_not_found_witness :
  resolve 1 0 (StringToken "MISSING") false scopesRoot
  = (Err (TokenNotFoundError (StringToken "MISSING")), scopesRoot)
  /\ resolve 1 0 (StringToken "MISSING") true scopesRoot
     = (Ok VUndef, scopesRoot).
Proof.
  destruct (unregistered_token_not_found 0 scopesRoot 0 (StringToken "MISSING"))
    as (_ & H1 & H2 & _).
  - vm_compute. reflexivity.
  - empty_stack.
  - split; [exact H1 | exact H2].
Defined.

(** A root container that has the value ["8080"] under [PORT] *)
Definition portRecord : ProviderRecord :=
  mkRecord (StringToken "PORT") SINGLETON (FValue (VPrim "8080"))
    (VPrim "8080") true.

Definition portWorld : World :=
  registered [ValueProvider (StringToken "PORT") (VPrim "8080")].

Definition portContainer : Container :=
  mkContainer
    (<[StringToken "PORT" := portRecord]>
       {[containerToken :=
           mkRecord containerToken SINGLETON (FValue (VContainer 0))
             (VContainer 0) true]})
    None [] ∅.

Lemma register_is_local_witness :
  let p := ValueProvider (StringToken "PORT") (VPrim "8080") in
  let w' := after (register 0 p) scopesRoot in
  getProviderRecord w' 0 (StringToken "PORT") = Some (0, portRecord)
  /\ (forall c tok', tok' <> StringToken "PORT" ->
        getProviderRecord w' c tok' = getProviderRecord scopesRoot c tok').
Proof.
  intros p w'.
  destruct (register_is_local scopesRoot 0 p portRecord) as (_ & H1 & H2 & _).
  - reflexivity.
  - vm_compute. eauto.
  - split; [exact H1 | exact H2].
Defined.

Lemma value_round_trip_witness :
  let w' := after (registerValue 0 (StringToken "PORT") (VPrim "8080")) scopesRoot in
  has w' 0 (StringToken "PORT") = true
  /\ resolve 1 0 (StringToken "PORT") false w' = (Ok (VPrim "8080"), w').
Proof.
  intros w'.
  destruct (value_round_trip 0 scopesRoot 0 (StringToken "PORT") (VPrim "8080")
              false) as (H1 & H2 & _).
  - vm_compute. eauto.
  - discriminate.
  - reflexivity.
  - empty_stack.
  - split; [exact H1 | exact H2].
Defined.

(** A resolution that fails on a cycle leaves the stack empty. *)
Lemma resolve_restores_resolution_stack_witness :
  let outcome := resolve 3 0 (ClassToken "A") false singletonCycleWorld in
  (forall c, stackOf (snd outcome) c = stackOf singletonCycleWorld c)
  /\ length (containers (snd outcome)) = length (containers singletonCycleWorld).
Proof.
  intros outcome.
  destruct (resolve_restores_resolution_stack 3 0 (ClassToken "A") false
              singletonCycleWorld (fst outcome) (snd outcome))
    as (H1 & H2 & _).
  - subst outcome. by destruct (resolve _ _ _ _ _).
  - split; [exact H1 | exact H2].
Defined.

(** [class A { constructor(@Inject(A) a) {} }], a singleton *)
Definition selfSingletonWorld : World :=
  registered [TypeProvider (mkClass "A" [(ClassToken "A", false)] None)].

Lemma self_dependency_reported_witness :
  fst (resolve 2 0 (ClassToken "A") false selfSingletonWorld)
  = Err (CircularDependencyError
           (stackOf selfSingletonWorld 0 ++ [ClassToken "A"; ClassToken "A"])).
Proof.
  apply (self_dependency_reported 0 selfSingletonWorld 0 (ClassToken "A") false 0
           (mkRecord (ClassToken "A") SINGLETON
              (FClass (mkClass "A" [(ClassToken "A", false)] None)) VUndef false)).
  - vm_compute. reflexivity.
  - reflexivity.
  - reflexivity.
  - empty_stack.
Defined.

Lemma clear_keeps_registrations_witness :
  has (clear 0 portWorld) 0 (StringToken "PORT") = has portWorld 0 (StringToken "PORT")
  /\ recordAt (clear 0 portWorld) 0 (StringToken "PORT")
     = cleared <$> recordAt portWorld 0 (StringToken "PORT")
  /\ clear 0 (clear 0 portWorld) = clear 0 portWorld.
Proof.
  destruct (clear_keeps_registrations portWorld 0 portContainer)
    as (H1 & _ & _ & H2 & _ & H3).
  - vm_compute. reflexivity.
  - split; [apply H1 | split; [apply H2 | exact H3]].
Defined.

Lemma clear_forces_new_instance_witness :
  fst (resolve 1 0 (StringToken "PORT") false (clear 0 portWorld))
  = Ok (VPrim "8080").
Proof.
  destruct (clear_forces_new_instance portWorld 0 portContainer
              (StringToken "PORT") portRecord) as [_ H].
  - vm_compute. reflexivity.
  - vm_compute. reflexivity.
  - discriminate.
  - reflexivity.
  - empty_stack.
  - apply (H 0 false (VPrim "8080")); [reflexivity | discriminate | reflexivity].
Defined.

(** [Config], owned by the root, is resolved through the request scope 1
    and then asked for through the request scope 2. *)
Lemma singleton_shared_by_containers_witness :
  let config := ClassToken "Config" in
  let w1 := after (resolve 3 1 config false) scopesWorld in
  resolve 3 1 config false scopesWorld = (Ok (VObj 0), w1)
  /\ resolve 1 2 config false w1 = (Ok (VObj 0), w1).
Proof.
  intros config w1.
  assert (Hfirst : resolve 3 1 config false scopesWorld = (Ok (VObj 0), w1))
    by (vm_compute; reflexivity).
  split; [exact Hfirst|].
  apply (singleton_shared_by_containers 3 0 scopesWorld 1 2 config false false 0
           (mkRecord config SINGLETON (FClass (mkClass "Config" [] None))
              VUndef false)
           (mkRecord config SINGLETON (FClass (mkClass "Config" [] None))
              VUndef false)
           (VObj 0) w1).
  - vm_compute. reflexivity.
  - reflexivity.
  - vm_compute. reflexivity.
  - empty_stack.
  - exact Hfirst.
  - discriminate.
Defined.

(** An alias [JOB] of the transient class [Job] *)
Definition jobWorld : World :=
  registered [TypeProvider (mkClass "Job" [] (Some TRANSIENT))].

Lemma alias_keeps_first_instance_witness :
  let w0 := after (registerAlias 0 (StringToken "JOB") (ClassToken "Job")) jobWorld in
  let w1 := after (resolve 3 0 (StringToken "JOB") false) w0 in
  resolve 3 0 (StringToken "JOB") false w0 = (Ok (VObj 0), w1)
  /\ resolve 1 0 (StringToken "JOB") false w1 = (Ok (VObj 0), w1)
  /\ fst (resolve 3 0 (ClassToken "Job") false w1) = Ok (VObj 1).
Proof.
  intros w0 w1.
  assert (Hfirst : resolve 3 0 (StringToken "JOB") false w0 = (Ok (VObj 0), w1))
    by (vm_compute; reflexivity).
  split; [exact Hfirst|]. split; [|vm_compute; reflexivity].
  apply (alias_keeps_first_instance 3 0 jobWorld 0 (StringToken "JOB")
           (ClassToken "Job") false (VObj 0) w1).
  - vm_compute. eauto.
  - exact Hfirst.
  - discriminate.
Defined.

Lemma scopesRoot_wellFormed : wellFormed scopesRoot.
Proof.
  intros i c p Hi Hp. destruct i as [|i].
  - vm_compute in Hi. injection Hi as <-. discriminate.
  - vm_compute in Hi. destruct i; discriminate.
Qed.

Lemma createChild_inherits_witness :
  let w' := snd (createChild 0 scopesRoot) in
  fst (createChild 0 scopesRoot) = 1
  /\ getProviderRecord w' 1 (ClassToken "Config")
     = getProviderRecord scopesRoot 0 (ClassToken "Config")
  /\ resolve 1 1 containerToken false w' = (Ok (VContainer 1), w').
Proof.
  intros w'.
  destruct (createChild_inherits 0 scopesRoot scopesRoot_wellFormed)
    as (H1 & H2 & H3 & _).
  - vm_compute. eauto.
  - split; [exact H1|]. split; [by apply H2 | apply H3].
Defined.

(** A guard class that takes [Config] in its constructor and is not
    registered *)
Lemma unregistered_enhancer_built_without_dependencies_witness :
  let guard := mkClass "AuthGuard" [(ClassToken "Cache", false)] None in
  let withGuard := after (register 0 (TypeProvider guard)) scopesRoot in
  (fst (resolveEnhancer 1 0 (EnhancerClass guard) scopesRoot) = Ok (VObj 0)
   /\ heap (snd (resolveEnhancer 1 0 (EnhancerClass guard) scopesRoot))
      = [("AuthGuard", [])])
  /\ (fst (resolveEnhancer 2 0 (EnhancerClass guard) withGuard) = Ok (VObj 0)
      /\ heap (snd (resolveEnhancer 2 0 (EnhancerClass guard) withGuard))
         = [("AuthGuard", [])]
      /\ factoryCalls (snd (resolveEnhancer 2 0 (EnhancerClass guard) withGuard))
         = [ClassToken "AuthGuard"]).
Proof.
  intros guard withGuard.
  destruct unregistered_enhancer_built_without_dependencies
    as (_ & _ & Hunregistered & Hmissing & _).
  split.
  - rewrite (Hunregistered 0 0 guard scopesRoot);
      [by split | vm_compute; reflexivity | empty_stack].
  - destruct (Hmissing 0 0 guard withGuard 0
                (mkRecord (ClassToken "AuthGuard") SINGLETON (FClass guard)
                   VUndef false)
                (ClassToken "Cache") [])
      as (w1 & -> & Hheap & Hcalls);
      [vm_compute; reflexivity | reflexivity | left; reflexivity | reflexivity
      | vm_compute; reflexivity | discriminate | empty_stack | empty_stack |].
    unfold built. cbn [fst snd heap factoryCalls]. rewrite Hheap, Hcalls.
    by repeat split.
Defined.

(** The root has the class [Service], which needs [URL], and the value
    ["prod"] for [URL]; its child, container 1, has the value ["test"]
    for [URL]. *)
Definition overrideWorld : World :=
  after (registerValue 1 (StringToken "URL") (VPrim "test"))
    (snd (createChild 0
            (registered
               [TypeProvider (mkClass "Service" [(StringToken "URL", false)] None);
                ValueProvider (StringToken "URL") (VPrim "prod")]))).

Lemma singleton_built_with_resolver_registrations_witness :
  exists w1,
    resolve 3 1 (ClassToken "Service") false overrideWorld = (Ok (VObj 0), w1)
    /\ heap w1 = [("Service", [VPrim "test"])]
    /\ resolve 1 0 (ClassToken "Service") false w1 = (Ok (VObj 0), w1).
Proof.
  apply (singleton_built_with_resolver_registrations 1 0 overrideWorld 1
           (ClassToken "Service") (StringToken "URL") false false false 0
           (mkRecord (ClassToken "Service") SINGLETON
              (FClass (mkClass "Service" [(StringToken "URL", false)] None))
              VUndef false)
           (mkClass "Service" [(StringToken "URL", false)] None) 1
           (mkRecord (StringToken "URL") SINGLETON (FValue (VPrim "test"))
              (VPrim "test") true)).
  - vm_compute. reflexivity.
  - reflexivity.
  - reflexivity.
  - reflexivity.
  - reflexivity.
  - vm_compute. reflexivity.
  - reflexivity.
  - reflexivity.
  - discriminate.
  - reflexivity.
  - discriminate.
  - empty_stack.
  - empty_stack.
  - empty_stack.
Defined.

End DIExtra.
